(** * Bubble shooter: the grid simulation and matching engine

    A shallow embedding of [src/components/BubbleShooterCanvas.tsx] and of
    the session state of [src/components/Game.tsx].

    Conventions of the embedding.
    - Row and column indices, scores and millisecond timestamps are JS
      numbers that only ever hold integers: they are [Z].
    - Pixel quantities (positions, the descent offset, tick durations) are
      JS doubles.  They are modelled as rationals [Q] with exact
      arithmetic; [Math.sqrt(3)], which has no rational value, is taken as
      the double that the call returns.  Where the rounding of doubles
      decides a property (the round trip between [gridToXY] and
      [xyToGridGuess]), the two transforms are embedded a second time in
      module [F64], with every operation rounded to the nearest double,
      and checked against primitive floats in module [Machine].
    - The grid [(Bubble | null)[][]] is a list of rows of optional bubbles.
    - [Set<string>] of keys [r + ':' + c] is a finite set of pairs (the key
      is injective on integer pairs).
    - [Math.random()], [Date.now()] and the aim angle are inputs.
    - The host callbacks [onShot] and [onCombo] append to an event log. *)

From Stdlib Require Import ZArith QArith Qround Qminmax Qabs Qpower Lia Lqa List.
From Stdlib Require PrimFloat FloatOps SpecFloat Uint63.
From stdpp Require Import base decidable option list gmap sets.

Local Open Scope Z_scope.

(* [set_solver] clears hypotheses it has already consumed. *)
Local Set Warnings "-clear-no-such-hyp".

(** ** Data model (the types of [lib/types], as the component uses them) *)

Inductive BubbleColor :=
  | red | blue | green | yellow | purple | orange | cyan | pink | gray.

Inductive BubbleKind := normal | rainbow | bomb | freeze | aim.

#[global] Instance BubbleColor_eq_dec : EqDecision BubbleColor.
Proof. solve_decision. Defined.

#[global] Instance BubbleKind_eq_dec : EqDecision BubbleKind.
Proof. solve_decision. Defined.

Record Bubble := mkBubble {
  id : nat;
  row : Z;
  col : Z;
  x : Q;
  y : Q;
  color : BubbleColor;
  kind : BubbleKind;
  stationary : bool
}.

Record PowerupState := mkPower { freezeUntil : Z; aimBoostUntil : Z }.

Abbreviation Cell := (Z * Z)%type.
Abbreviation Grid := (list (list (option Bubble))).

(** ** Grid constants *)

Definition BUBBLE_RADIUS : Q := 16.
Definition BUBBLE_DIAMETER : Q := BUBBLE_RADIUS * 2.
(** [Math.sqrt(3) * BUBBLE_RADIUS * 0.98] evaluates to the double
    27.158556662679995, whose exact value is this fraction. *)
Definition ROW_V_SPACING : Q := 7644454104122883 # 281474976710656.
Definition COL_H_SPACING : Q := BUBBLE_DIAMETER * 0.98.
Definition MAX_COLS : Z := 12.
Definition MAX_ROWS : Z := 18.

(** [Math.round]: the nearest integer, halves towards plus infinity. *)
Definition Math_round (q : Q) : Z := Qfloor (q + (1 # 2)).

(** [computeGridSize(w, h).cols] *)
Definition computeCols (w : Z) : Z :=
  Z.min MAX_COLS (Z.max 8 (Qfloor (inject_Z w / COL_H_SPACING))).

(** The JS test [n % 2 === k]; [%] takes the sign of the dividend. *)
Definition isEven (n : Z) : bool := Z.rem n 2 =? 0.
Definition isOdd (n : Z) : bool := Z.rem n 2 =? 1.

(** [gridToXY(row, col, w)], reading [descentOffsetRef.current] as [off]. *)
Definition gridToXY (off : Q) (row col : Z) : Q * Q :=
  let rowOffset := if isEven row then 0%Q else (COL_H_SPACING / 2)%Q in
  let x := (rowOffset + BUBBLE_RADIUS + inject_Z col * COL_H_SPACING)%Q in
  let y := (BUBBLE_RADIUS + inject_Z row * ROW_V_SPACING - off)%Q in
  (x, y).

(** [xyToGridGuess(x, y, w)] *)
Definition xyToGridGuess (off : Q) (x y : Q) : Z * Z :=
  let row := Math_round ((y + off - BUBBLE_RADIUS) / ROW_V_SPACING) in
  let rowOffset := if isEven row then 0%Q else (COL_H_SPACING / 2)%Q in
  let col := Math_round ((x - rowOffset - BUBBLE_RADIUS) / COL_H_SPACING) in
  (row, col).

(** ** Grid store *)

(** Reading [grid[r][c]]; an absent slot reads as [undefined], which the
    source treats like [null].  Every read of the source goes through a row
    index in [0 .. grid.length - 1] (the callers clamp or filter), or
    through optional chaining. *)
Definition cell (g : Grid) (r c : Z) : option Bubble :=
  if (r <? 0) || (c <? 0) then None
  else match g !! Z.to_nat r with
       | Some rw => match rw !! Z.to_nat c with
                    | Some ob => ob
                    | None => None
                    end
       | None => None
       end.

(** Writing [grid[r][c] = v]; the source only writes slots that exist. *)
Definition setCell (g : Grid) (r c : Z) (v : option Bubble) : Grid :=
  if (r <? 0) || (c <? 0) then g
  else alter (λ rw, <[Z.to_nat c := v]> rw) (Z.to_nat r) g.

(** The usable width of row [r]: [cols - (r % 2 === 1 ? 1 : 0)]. *)
Definition maxColsOf (w r : Z) : Z :=
  computeCols w - (if isOdd r then 1 else 0).

(** The coordinates that [neighbors(r, c, w)] returns, for a grid of
    [rows] rows: the six candidates in their order, out-of-range ones
    skipped. *)
Definition neighborCells (rows w r c : Z) : list Cell :=
  let odd := isOdd r in
  let candidates :=
    [ (r, c - 1); (r, c + 1);
      (r - 1, c + (if odd then 0 else -1)); (r - 1, c + (if odd then 1 else 0));
      (r + 1, c + (if odd then 0 else -1)); (r + 1, c + (if odd then 1 else 0)) ] in
  filter (λ p : Cell,
            ¬ (p.1 < 0 ∨ p.1 >= rows) ∧ ¬ (p.2 < 0 ∨ p.2 >= maxColsOf w p.1))
         candidates.

(** [neighbors(r, c, w)]: each coordinate with the slot's content. *)
Definition neighbors (g : Grid) (w r c : Z) : list (Cell * option Bubble) :=
  (λ p : Cell, (p, cell g p.1 p.2)) <$> neighborCells (Z.of_nat (length g)) w r c.

(** ** Matching engine *)

Definition isGray (b : Bubble) : bool := bool_decide (color b = gray).

(** [b.color === targetColor || b.kind === 'rainbow'] *)
Definition matchesTarget (target : BubbleColor) (b : Bubble) : bool :=
  bool_decide (color b = target) || bool_decide (kind b = rainbow).

(** The neighbours that the flood pushes: occupied and matching. *)
Definition floodPushes (g : Grid) (w : Z) (target : BubbleColor) (cur : Cell)
  : list Cell :=
  omap (λ n : Cell * option Bubble,
          match n.2 with
          | Some nb => if matchesTarget target nb then Some n.1 else None
          | None => None
          end)
       (neighbors g w cur.1 cur.2).

(** The [while (stack.length)] loop of [floodMatch].  The head of the list
    is the top of the JS stack (the end of the array), so pushing
    [n1 .. nk] in order puts [nk] on top.  [fuel] bounds the number of
    iterations. *)
Fixpoint floodMatch_loop (fuel : nat) (g : Grid) (w : Z) (target : BubbleColor)
    (stack : list Cell) (visited : gset Cell) (res : list Cell)
  : option (list Cell) :=
  match stack with
  | [] => Some res
  | cur :: stack =>
    match fuel with
    | O => None
    | S fuel =>
      if decide (cur ∈ visited) then floodMatch_loop fuel g w target stack visited res
      else
        let visited := visited ∪ {[cur]} in
        match cell g cur.1 cur.2 with
        | None => floodMatch_loop fuel g w target stack visited res
        | Some b =>
          if matchesTarget target b then
            floodMatch_loop fuel g w target
              (rev (floodPushes g w target cur) ++ stack) visited (res ++ [cur])
          else floodMatch_loop fuel g w target stack visited res
        end
    end
  end.

(** Number of slots of the grid; every traversal below pops each stack
    entry once and pushes at most six entries per occupied slot. *)
Definition slotCount (g : Grid) : nat := length (concat g).

Definition traversalFuel (g : Grid) (stack : list Cell) : nat :=
  length stack + 6 * slotCount g.

(** [floodMatch(r, c, targetColor, w)] *)
Definition floodMatch (g : Grid) (w r c : Z) (target : BubbleColor)
  : option (list Cell) :=
  floodMatch_loop (traversalFuel g [(r, c)]) g w target [(r, c)] ∅ [].

(** The neighbours that the anchor search pushes: occupied, not yet
    visited, not gray. *)
Definition anchorPushes (g : Grid) (w : Z) (visited : gset Cell) (cur : Cell)
  : list Cell :=
  omap (λ n : Cell * option Bubble,
          match n.2 with
          | Some nb =>
            if decide (n.1 ∈ visited) then None
            else if isGray nb then None else Some n.1
          | None => None
          end)
       (neighbors g w cur.1 cur.2).

(** The [while (stack.length)] loop of [removeDisconnected]. *)
Fixpoint anchor_loop (fuel : nat) (g : Grid) (w : Z)
    (stack : list Cell) (visited : gset Cell) : option (gset Cell) :=
  match stack with
  | [] => Some visited
  | cur :: stack =>
    match fuel with
    | O => None
    | S fuel =>
      if decide (cur ∈ visited) then anchor_loop fuel g w stack visited
      else
        let visited := visited ∪ {[cur]} in
        match cell g cur.1 cur.2 with
        | None => anchor_loop fuel g w stack visited
        | Some b =>
          anchor_loop fuel g w (rev (anchorPushes g w visited cur) ++ stack) visited
        end
    end
  end.

(** The seeds, in the order they are pushed:
    [for (c = 0; c < cols; c++) if (grid[0]?.[c]) stack.push({r: 0, c})]. *)
Definition anchorSeeds (g : Grid) (w : Z) : list Cell :=
  (λ c, (0, c)) <$> filter (λ c, is_Some (cell g 0 c)) (seqZ 0 (computeCols w)).

(** [b && b.color !== 'gray' && !visited.has(key(r, c))] *)
Definition floating (visited : gset Cell) (r c : Z) (ob : option Bubble) : bool :=
  match ob with
  | Some b => negb (isGray b) && bool_decide ((r, c) ∉ visited)
  | None => false
  end.

(** The inner [for (c ...)] loop of the sweep, from column [c] on: the row
    after the sweep and the number of slots emptied. *)
Fixpoint sweepRow (visited : gset Cell) (r c : Z) (rw : list (option Bubble))
  : list (option Bubble) * Z :=
  match rw with
  | [] => ([], 0)
  | ob :: rest =>
    let '(rest', n) := sweepRow visited r (c + 1) rest in
    if floating visited r c ob then (None :: rest', 1 + n) else (ob :: rest', n)
  end.

(** The outer [for (r ...)] loop of the sweep, from row [r] on. *)
Fixpoint sweep (visited : gset Cell) (r : Z) (g : Grid) : Grid * Z :=
  match g with
  | [] => ([], 0)
  | rw :: rest =>
    let '(rw', n) := sweepRow visited r 0 rw in
    let '(rest', m) := sweep visited (r + 1) rest in
    (rw' :: rest', n + m)
  end.

(** [removeDisconnected(w)]: the grid afterwards and [dropCount].  (The
    sound played for a positive count is not part of the model.) *)
Definition removeDisconnected (g : Grid) (w : Z) : option (Grid * Z) :=
  let stack := rev (anchorSeeds g w) in
  visited ← anchor_loop (traversalFuel g stack) g w stack ∅;
  Some (sweep visited 0 g).

(** ** Round state: the refs of the component *)

Inductive Event := shotFired | comboAchieved.

Record State := mkState {
  grid : Grid;                       (* gridRef *)
  moving : option Bubble;            (* movingRef *)
  dir : option (Q * Q);              (* dirRef *)
  score : Z;                         (* scoreRef *)
  comboChain : Z;                    (* comboChainRef *)
  descentOffset : Q;                 (* descentOffsetRef *)
  power : PowerupState;              (* powerRef *)
  nextQueue : list BubbleKind;       (* nextQueueRef *)
  events : list Event                (* calls of onShot and onCombo, in order *)
}.

Definition withGrid (g : Grid) (st : State) : State :=
  mkState g (moving st) (dir st) (score st) (comboChain st) (descentOffset st)
          (power st) (nextQueue st) (events st).

Definition withScore (s : Z) (st : State) : State :=
  mkState (grid st) (moving st) (dir st) s (comboChain st) (descentOffset st)
          (power st) (nextQueue st) (events st).

Definition withComboChain (n : Z) (st : State) : State :=
  mkState (grid st) (moving st) (dir st) (score st) n (descentOffset st)
          (power st) (nextQueue st) (events st).

Definition withDescentOffset (off : Q) (st : State) : State :=
  mkState (grid st) (moving st) (dir st) (score st) (comboChain st) off
          (power st) (nextQueue st) (events st).

Definition withPower (p : PowerupState) (st : State) : State :=
  mkState (grid st) (moving st) (dir st) (score st) (comboChain st) (descentOffset st)
          p (nextQueue st) (events st).

Definition withNextQueue (q : list BubbleKind) (st : State) : State :=
  mkState (grid st) (moving st) (dir st) (score st) (comboChain st) (descentOffset st)
          (power st) q (events st).

Definition withFlight (m : option Bubble) (d : option (Q * Q)) (st : State) : State :=
  mkState (grid st) m d (score st) (comboChain st) (descentOffset st)
          (power st) (nextQueue st) (events st).

Definition emit (e : Event) (st : State) : State :=
  mkState (grid st) (moving st) (dir st) (score st) (comboChain st) (descentOffset st)
          (power st) (nextQueue st) (events st ++ [e]).

(** ** Snap resolver *)

(** The cell that [placeBubbleAt(row, col, ...)] ends up addressing after
    its four clamping assignments. *)
Definition clampCell (g : Grid) (w : Z) (p : Cell) : Cell :=
  let row := p.1 in
  let col := p.2 in
  let row := if row <? 0 then 0 else row in
  let row := if row >=? Z.of_nat (length g) then Z.of_nat (length g) - 1 else row in
  let maxCols := maxColsOf w row in
  let col := if col <? 0 then 0 else col in
  let col := if col >=? maxCols then maxCols - 1 else col in
  (row, col).

(** [placeBubbleAt(row, col, b, w)]: [None] is the result [false];
    otherwise the grid afterwards and the bubble as mutated.  (On a grid
    without rows the source fails at [grid[row][col]]; the component
    builds its 18 rows before the first frame, and the properties of the
    snap below are stated for a grid that has rows.) *)
Definition placeBubbleAt (g : Grid) (off : Q) (w : Z) (row col : Z) (b : Bubble)
  : option (Grid * Bubble) :=
  let '(row, col) := clampCell g w (row, col) in
  match cell g row col with
  | Some _ => None
  | None =>
    let '(x, y) := gridToXY off row col in
    let b := mkBubble (id b) row col x y (color b) (kind b) true in
    Some (setCell g row col (Some b), b)
  end.

(** The candidate list of [trySnapAndResolve], in its order. *)
Definition snapCandidates (guess : Cell) : list Cell :=
  let '(r, c) := guess in
  [ (r, c); (r, c - 1); (r, c + 1); (r - 1, c); (r + 1, c);
    (r - 1, c - 1); (r + 1, c + 1) ].

(** [for (const cand of candidates) if (placeBubbleAt(...)) { placed = true; break; }] *)
Fixpoint placeFirst (g : Grid) (off : Q) (w : Z) (b : Bubble) (cands : list Cell)
  : option (Grid * Bubble) :=
  match cands with
  | [] => None
  | cand :: rest =>
    match placeBubbleAt g off w cand.1 cand.2 b with
    | Some r => Some r
    | None => placeFirst g off w b rest
    end
  end.

(** The [while (queue.length)] loop of the bomb branch.  The queue is
    first-in first-out: [shift] takes the head, [push] appends.  [seen] and
    [around] receive the same keys; [around] is kept as a list because the
    source iterates over it. *)
Fixpoint bomb_loop (fuel : nat) (g : Grid) (w : Z)
    (queue : list (Cell * Z)) (seen : gset Cell) (around : list Cell)
  : option (list Cell) :=
  match queue with
  | [] => Some around
  | (cur, d) :: queue =>
    match fuel with
    | O => None
    | S fuel =>
      if d >? 2 then bomb_loop fuel g w queue seen around
      else if decide (cur ∈ seen) then bomb_loop fuel g w queue seen around
      else
        bomb_loop fuel g w
          (queue ++ ((λ n : Cell * option Bubble, (n.1, d + 1)) <$> neighbors g w cur.1 cur.2))
          (seen ∪ {[cur]}) (around ++ [cur])
    end
  end.

(** One origin, at most 6 entries of depth 1, 36 of depth 2 and 216 of
    depth 3 are ever queued. *)
Definition bombFuel : nat := 259.

Definition bombAround (g : Grid) (w : Z) (origin : Cell) : option (list Cell) :=
  bomb_loop bombFuel g w [(origin, 0)] ∅ [].

(** The body of [for (const k of around)]:
    [if (bb && bb.color !== 'gray') grid[rr][cc] = null].  (The counter
    [removed] only selects a sound.) *)
Definition blastCell (g : Grid) (k : Cell) : Grid :=
  match cell g k.1 k.2 with
  | Some bb => if isGray bb then g else setCell g k.1 k.2 None
  | None => g
  end.

Definition blast (g : Grid) (around : list Cell) : Grid :=
  fold_left blastCell around g.

(** [for (const cell of group) grid[cell.r][cell.c] = null] *)
Definition clearCells (g : Grid) (group : list Cell) : Grid :=
  fold_left (λ g (k : Cell), setCell g k.1 k.2 None) group g.

(** [trySnapAndResolve(b, w, h)] at the time [now = Date.now()].  [None]
    only if a traversal runs out of fuel. *)
Definition trySnapAndResolve (w : Z) (now : Z) (b : Bubble) (st : State)
  : option State :=
  let guess := xyToGridGuess (descentOffset st) (x b) (y b) in
  match placeFirst (grid st) (descentOffset st) w b (snapCandidates guess) with
  | None => Some st
  | Some (g, b) =>
    match kind b with
    | bomb =>
      around ← bombAround g w (row b, col b);
      dropped ← removeDisconnected (blast g around) w;
      Some (withGrid dropped.1 st)
    | freeze =>
      Some (withGrid (setCell g (row b) (col b) None)
              (withPower (mkPower (now + 5000) (aimBoostUntil (power st))) st))
    | aim =>
      Some (withGrid (setCell g (row b) (col b) None)
              (withPower (mkPower (freezeUntil (power st)) (now + 6000)) st))
    | normal | rainbow =>
      group ← floodMatch g w (row b) (col b) (color b);
      if 3 <=? Z.of_nat (length group) then
        let st := withGrid (clearCells g group) st in
        let st := withScore (score st + 10 * Z.of_nat (length group)) st in
        let st := withComboChain (comboChain st + 1) st in
        dropped ← removeDisconnected (grid st) w;
        let st := withGrid dropped.1 st in
        if dropped.2 >? 0 then
          Some (emit comboAchieved (withScore (score st + 5 * dropped.2) st))
        else Some st
      else Some (withComboChain 0 (withGrid g st))
    end
  end.

(** A contact in the main loop: [trySnapAndResolve(moving, ...);
    movingRef.current = null; dirRef.current = null]. *)
Definition contact (w : Z) (now : Z) (st : State) : option State :=
  match moving st with
  | None => Some st
  | Some b =>
    st ← trySnapAndResolve w now b st;
    Some (withFlight None None st)
  end.

(** ** Next-queue and shooting *)

(** One iteration of the loop of [refillNextQueue], [roll] being the
    value of [Math.random()]. *)
Definition kindOfRoll (rainbowEnabled : bool) (roll : Q) : BubbleKind :=
  if rainbowEnabled && negb (Qle_bool 0.08 roll) then rainbow
  else if negb (Qle_bool 0.11 roll) then bomb
  else if negb (Qle_bool 0.135 roll) then freeze
  else if negb (Qle_bool 0.16 roll) then aim
  else normal.

(** [refillNextQueue()]; [rolls i] is the roll of iteration [i]. *)
Definition refillNextQueue (rainbowEnabled : bool) (rolls : nat → Q) (st : State)
  : State :=
  let q := (λ i, kindOfRoll rainbowEnabled (rolls i)) <$> seq 0 3 in
  withNextQueue q st.

(** What [shoot] draws or reads from outside the state: the rolls of a
    refill, the colour drawn from the level palette, the fresh id and the
    direction [(cos aimAngle, sin aimAngle)]. *)
Record ShotInput := mkShot {
  shotRolls : nat → Q;
  shotColor : BubbleColor;
  shotId : nat;
  shotDir : Q * Q
}.

(** [shoot(w, h)] *)
Definition shoot (rainbowEnabled : bool) (w h : Z) (i : ShotInput) (st : State)
  : State :=
  match moving st with
  | Some _ => st
  | None =>
    let kind := match nextQueue st with k :: _ => k | [] => normal end in
    let st := withNextQueue (tail (nextQueue st)) st in
    let st := if (length (nextQueue st) <? 2)%nat
              then refillNextQueue rainbowEnabled (shotRolls i) st else st in
    let sx := (inject_Z w / 2)%Q in
    let sy := (inject_Z h - BUBBLE_RADIUS - 8)%Q in
    let b := mkBubble (shotId i) (-1) (-1) sx sy (shotColor i) kind false in
    emit shotFired (withFlight (Some b) (Some (shotDir i)) st)
  end.

(** ** Descent controller *)

(** What a row insertion draws: for each column of the new row its fresh
    id and its colour (drawn from [BASE_COLORS] or from the level palette,
    both of [lib/levels]). *)
Record RowInput := mkRow { rowId : Z → nat; rowColor : Z → BubbleColor }.

(** [b.row = b.row + 1] *)
Definition pushDown (ob : option Bubble) : option Bubble :=
  match ob with
  | Some b => Some (mkBubble (id b) (row b + 1) (col b) (x b) (y b)
                             (color b) (kind b) (stationary b))
  | None => None
  end.

(** [addNewDescendingRow(w, h)] *)
Definition addNewDescendingRow (w : Z) (i : RowInput) (st : State) : State :=
  let newRow :=
    (λ c, let '(x, y) := gridToXY (descentOffset st) 0 c in
          Some (mkBubble (rowId i c) 0 c x y (rowColor i c) normal true))
      <$> seqZ 0 (computeCols w) in
  let shifted := (λ rw, pushDown <$> rw) <$> grid st in
  withGrid (removelast (newRow :: shifted)) st.

(** The part of a level configuration that the modelled code reads. *)
Record LevelConfig := mkLevel { descentSpeed : Q; rainbowEnabled : bool }.

(** What one frame reads from outside the state: the frame timestamp
    [now], the previous one [last], [Date.now()], and the draws of a row
    insertion. *)
Record Tick := mkTick { tNow : Q; tLast : Q; tDate : Z; tRow : RowInput }.

Definition tickDt (t : Tick) : Q := Qmin 0.033 ((tNow t - tLast t) / 1000).

(** [descent] of the frame *)
Definition tickDescent (level : LevelConfig) (t : Tick) (st : State) : Q :=
  let frozen := tDate t <? freezeUntil (power st) in
  ((if frozen then descentSpeed level * 0.35 else descentSpeed level) * tickDt t)%Q.

(** The descent update of [loop] (the statements under "Update descent"). *)
Definition loopDescent (level : LevelConfig) (w : Z) (t : Tick) (st : State) : State :=
  let st := withDescentOffset (descentOffset st + tickDescent level t st) st in
  let addRowThreshold := ROW_V_SPACING in
  if negb (Qle_bool (descentOffset st) addRowThreshold) then
    let st := withDescentOffset (descentOffset st - addRowThreshold) st in
    addNewDescendingRow w (tRow t) st
  else st.

(** The descent updates of a sequence of frames. *)
Definition runDescent (level : LevelConfig) (w : Z) (ts : list Tick) (st : State)
  : State :=
  fold_left (λ st t, loopDescent level w t st) ts st.

(** ** Notions used to state the properties *)

(** Every row has [cols] slots, as [initGrid] and [addNewDescendingRow]
    build them. *)
Definition wfGrid (w : Z) (g : Grid) : Prop :=
  Forall (λ rw, length rw = Z.to_nat (computeCols w)) g.

(** A usable cell of the grid. *)
Definition inBounds (g : Grid) (w : Z) (p : Cell) : Prop :=
  0 <= p.1 < Z.of_nat (length g) ∧ 0 <= p.2 < maxColsOf w p.1.

(** The empty grid of [initGrid]:
    [Array.from({ length: rows }, () => Array(cols).fill(null))]. *)
Definition emptyGrid (w : Z) : Grid :=
  replicate (Z.to_nat MAX_ROWS) (replicate (Z.to_nat (computeCols w)) None).

(** A grid-resident bubble as [initGrid] creates it. *)
Definition seededBubble (off : Q) (i : nat) (r c : Z) (cl : BubbleColor) : Bubble :=
  let '(x, y) := gridToXY off r c in mkBubble i r c x y cl normal true.

(** The cached position of a bubble agrees with its cell at offset [off]. *)
Definition cachedAt (off : Q) (b : Bubble) : Prop :=
  (x b == (gridToXY off (row b) (col b)).1)%Q ∧
  (y b == (gridToXY off (row b) (col b)).2)%Q.

(** The invariant on cached positions over the whole grid. *)
Definition cacheInvariant (st : State) : Prop :=
  ∀ r c b, cell (grid st) r c = Some b → cachedAt (descentOffset st) b.

(** Two cells joined by a neighbour edge. *)
Definition adjacent (g : Grid) (w : Z) (p q : Cell) : Prop :=
  q ∈ neighborCells (Z.of_nat (length g)) w p.1 p.2.

(** Distance at most 2 in the neighbour graph. *)
Definition within2 (g : Grid) (w : Z) (o p : Cell) : Prop :=
  p = o ∨ adjacent g w o p ∨ ∃ m, adjacent g w o m ∧ adjacent g w m p.

(** Connected to the anchor row: an occupied cell of row 0, or a non-gray
    occupied cell next to an anchored one. *)
Inductive anchored (g : Grid) (w : Z) : Cell → Prop :=
  | anchored_top c b :
      cell g 0 c = Some b → anchored g w (0, c)
  | anchored_step p q b :
      anchored g w p → adjacent g w p q →
      cell g q.1 q.2 = Some b → color b ≠ gray → anchored g w q.

(** Number of bubbles in the grid. *)
Definition bubbleCount (g : Grid) : Z :=
  Z.of_nat (length (filter (λ ob : option Bubble, is_Some ob) (concat g))).

(** The states that the component reaches, as far as the next-queue is
    concerned: the queue starts empty ([useRef([])]) and only
    [refillNextQueue] and [shoot] assign it. *)
Inductive queueReach (re : bool) (w h : Z) : State → Prop :=
  | queueReach_mount st : nextQueue st = [] → queueReach re w h st
  | queueReach_refill st rolls :
      queueReach re w h st → queueReach re w h (refillNextQueue re rolls st)
  | queueReach_shoot st i :
      queueReach re w h st → queueReach re w h (shoot re w h i st)
  | queueReach_other st st' :
      queueReach re w h st → nextQueue st' = nextQueue st → queueReach re w h st'.



(** The coordinates of all slots of the grid, row by row. *)
Definition allCells (g : Grid) : list Cell :=
  mjoin (imap (λ r rw, imap (λ c _, (Z.of_nat r, Z.of_nat c)) rw) g).

(** Number of slots not yet visited: the measure of the traversals. *)
Definition unvisited (g : Grid) (visited : gset Cell) : nat :=
  length (filter (λ p, p ∉ visited) (allCells g)).

(** One breadth-first layer of the bomb search: the cells of [l] not seen
    before are recorded, and their neighbours form the next layer. *)
Fixpoint bombLayer (g : Grid) (w : Z) (l : list Cell) (seen : gset Cell)
    (around : list Cell) : list Cell * gset Cell * list Cell :=
  match l with
  | [] => ([], seen, around)
  | c :: l =>
    if decide (c ∈ seen) then bombLayer g w l seen around
    else
      let '(next, seen', around') :=
        bombLayer g w l (seen ∪ {[c]}) (around ++ [c]) in
      (neighborCells (Z.of_nat (length g)) w c.1 c.2 ++ next, seen', around')
  end.

(** What holds of the stack and the visited set throughout the anchor
    search of [removeDisconnected]. *)
Definition anchorInv (g : Grid) (w : Z) (stack : list Cell) (visited : gset Cell)
  : Prop :=
  (∀ p, p ∈ stack ∨ p ∈ visited → anchored g w p) ∧
  (∀ c b, 0 <= c < computeCols w → cell g 0 c = Some b →
          (0, c) ∈ visited ∨ (0, c) ∈ stack) ∧
  (∀ p q b nb, p ∈ visited → cell g p.1 p.2 = Some b → adjacent g w p q →
               cell g q.1 q.2 = Some nb → color nb ≠ gray →
               q ∈ visited ∨ q ∈ stack).

(** What the sweep leaves in a slot. *)
Definition swept (visited : gset Cell) (r c : Z) (ob : option Bubble) : option Bubble :=
  if floating visited r c ob then None else ob.

(** Number of bubbles in a row. *)
Definition rowBubbles (rw : list (option Bubble)) : Z :=
  Z.of_nat (length (filter (λ ob : option Bubble, is_Some ob) rw)).

(** ** Concrete rounds, used as examples *)

(** A 256 pixel wide playfield has 8 columns. *)
Definition exWidth : Z := 256.

(** The grid of [initGrid] with the listed cells seeded at offset 0. *)
Definition gridOf (bs : list (Cell * BubbleColor)) : Grid :=
  fold_left (λ g e, setCell g e.1.1 e.1.2 (Some (seededBubble 0 0 e.1.1 e.1.2 e.2)))
            bs (emptyGrid exWidth).

(** A round over grid [g] with combo chain [combo], nothing in flight. *)
Definition roundOf (g : Grid) (combo : Z) : State :=
  mkState g None None 0 combo 0 (mkPower 0 0) [normal; normal; normal] [].

(** A bubble in flight whose position is the centre of cell [(r, c)]. *)
Definition shotAt (r c : Z) (cl : BubbleColor) (k : BubbleKind) : Bubble :=
  mkBubble 99 (-1) (-1) (gridToXY 0 r c).1 (gridToXY 0 r c).2 cl k false.

(** The same bubble once [placeBubbleAt] has put it into cell [(r, c)]. *)
Definition landedAt (r c : Z) (cl : BubbleColor) (k : BubbleKind) : Bubble :=
  mkBubble 99 r c (gridToXY 0 r c).1 (gridToXY 0 r c).2 cl k true.

(** A column of six red bubbles hanging from row 0. *)
Definition exChain : Grid :=
  gridOf [ ((0, 3), red); ((1, 3), red); ((2, 3), red);
           ((3, 3), red); ((4, 3), red); ((5, 3), red) ].

(** Two red bubbles in row 0. *)
Definition exPair : Grid := gridOf [ ((0, 3), red); ((0, 4), red) ].

(** One red bubble in row 0. *)
Definition exSingle : Grid := gridOf [ ((0, 3), red) ].

(** A red bubble in row 0 and a blue one with no support. *)
Definition exFloating : Grid := gridOf [ ((0, 3), red); ((3, 3), blue) ].

(** Cell (2, 4) and the six other snap candidates around it, all taken. *)
Definition exCrowded : Grid :=
  gridOf [ ((2, 4), red); ((2, 3), blue); ((2, 5), green); ((1, 4), red);
           ((3, 4), blue); ((1, 3), green); ((3, 5), red) ].

Definition exRow : RowInput := mkRow (λ _, 0%nat) (λ _, red).

(** A frame 33 ms after the previous one. *)
Definition exTick : Tick := mkTick 33 0 0 exRow.

Definition exShot : ShotInput := mkShot (λ _, 0.5%Q) red 7 (0, -1)%Q.

(** A level descending 10 px/s, one descending 2000 px/s, and one whose
    33 ms frame advances exactly one row spacing. *)
Definition exLevel : LevelConfig := mkLevel 10 false.
Definition exFastLevel : LevelConfig := mkLevel 2000 false.
Definition exEdgeLevel : LevelConfig := mkLevel (ROW_V_SPACING / 0.033) false.

(** A round with a bubble already in flight. *)
Definition exInFlight : State :=
  withFlight (Some (shotAt 9 4 red normal)) (Some (0, -1)%Q) (roundOf exSingle 0).

(** The round after the first shot of a fresh queue has landed. *)
Definition exAfterShot : State :=
  withFlight None None (shoot false exWidth 600 exShot (roundOf exSingle 0)).

(** ** Further notions *)

(** The slot of [p] holds a bubble that the flood for [target] accepts. *)
Definition matchesAt (g : Grid) (target : BubbleColor) (p : Cell) : Prop :=
  ∃ b, cell g p.1 p.2 = Some b ∧ matchesTarget target b = true.

(** Connected to the origin of a flood through accepted bubbles. *)
Inductive floodReach (g : Grid) (w : Z) (target : BubbleColor) (o : Cell)
  : Cell → Prop :=
  | floodReach_origin : matchesAt g target o → floodReach g w target o o
  | floodReach_step p q :
      floodReach g w target o p → adjacent g w p q → matchesAt g target q →
      floodReach g w target o q.

(** What holds of the stack, the visited set and the result throughout
    the loop of [floodMatch]. *)
Definition floodInv (g : Grid) (w : Z) (target : BubbleColor) (o : Cell)
    (stack : list Cell) (visited : gset Cell) (res : list Cell) : Prop :=
  (∀ p, p ∈ res → p ∈ visited ∧ floodReach g w target o p) ∧
  (∀ p, p ∈ stack → matchesAt g target p → floodReach g w target o p) ∧
  (o ∈ visited ∨ o ∈ stack) ∧
  (∀ p, p ∈ visited → matchesAt g target p →
        p ∈ res ∧
        ∀ q, adjacent g w p q → matchesAt g target q → q ∈ visited ∨ q ∈ stack).

(** ** Seeding the grid *)

(** The starting patterns of a level ([level.startingPattern]). *)
Inductive Pattern :=
  | simplePattern | alternatingPattern | randomPattern | fullPattern.

#[global] Instance Pattern_eq_dec : EqDecision Pattern.
Proof. solve_decision. Defined.

(** The part of a level configuration that [initGrid] reads. *)
Record SeedConfig := mkSeedConfig {
  startingPattern : Pattern;
  doubleLayer : bool;
  unbreakableGrayCount : Z
}.

(** What [initGrid] draws: for each seeded cell its fresh id, its colour
    (drawn from the level palette of [lib/levels]) and the roll of the
    random pattern; for the obstacle loop the pairs of rolls of its
    iterations, in order, and the ids of the obstacles. *)
Record SeedInput := mkSeedInput {
  seedId : Z → Z → nat;
  seedColor : Z → Z → BubbleColor;
  seedRoll : Z → Z → Q;
  grayDraws : list (Q * Q);
  grayId : Z → nat
}.

(** [topRows] *)
Definition topRows (cfg : SeedConfig) : Z := if doubleLayer cfg then 8 else 6.

(** The body of the seeding loops for cell [(r, c)]: the three [continue]
    tests in their order, then the write. *)
Definition seedCell (cfg : SeedConfig) (inp : SeedInput) (off : Q) (g : Grid)
    (r c : Z) : Grid :=
  if bool_decide (startingPattern cfg = simplePattern) && (r >? 3) then g
  else if bool_decide (startingPattern cfg = alternatingPattern) && isOdd (r + c) then g
  else if bool_decide (startingPattern cfg = randomPattern)
          && negb (Qle_bool 0.25 (seedRoll inp r c)) then g
  else
    let '(x, y) := gridToXY off r c in
    setCell g r c (Some (mkBubble (seedId inp r c) r c x y (seedColor inp r c) normal true)).

(** [for (let c = 0; c < cols - (r % 2 === 1 ? 1 : 0); c++)] *)
Definition seedRow (cfg : SeedConfig) (inp : SeedInput) (off : Q) (w : Z) (g : Grid)
    (r : Z) : Grid :=
  fold_left (λ g c, seedCell cfg inp off g r c) (seqZ 0 (maxColsOf w r)) g.

(** [for (let r = 0; r < topRows; r++)] *)
Definition seedRows (cfg : SeedConfig) (inp : SeedInput) (off : Q) (w : Z) (g : Grid)
  : Grid :=
  fold_left (λ g r, seedRow cfg inp off w g r) (seqZ 0 (topRows cfg)) g.

(** The loop [while (placedGray < level.unbreakableGrayCount)], one pair
    of rolls per iteration; [None] when the rolls run out before the loop
    ends. *)
Fixpoint placeGray (cfg : SeedConfig) (inp : SeedInput) (off : Q) (w : Z)
    (draws : list (Q * Q)) (placedGray : Z) (g : Grid) : option Grid :=
  if placedGray <? unbreakableGrayCount cfg then
    match draws with
    | [] => None
    | (u, v) :: draws =>
      let r := Qfloor (u * inject_Z (Z.min (topRows cfg + 4) MAX_ROWS)) in
      let c := Qfloor (v * inject_Z (maxColsOf w r)) in
      match cell g r c with
      | Some _ => placeGray cfg inp off w draws placedGray g
      | None =>
        let '(x, y) := gridToXY off r c in
        placeGray cfg inp off w draws (placedGray + 1)
          (setCell g r c (Some (mkBubble (grayId inp placedGray) r c x y gray normal true)))
      end
    end
  else Some g.

(** [initGrid(w, h)] *)
Definition initGrid (cfg : SeedConfig) (inp : SeedInput) (w : Z) (st : State)
  : option State :=
  g ← placeGray cfg inp (descentOffset st) w (grayDraws inp) 0
        (seedRows cfg inp (descentOffset st) w (emptyGrid w));
  Some (withGrid g st).

(** The bubbles that [initGrid] may leave in a slot. *)
Definition seededWell (cfg : SeedConfig) (off : Q) (g : Grid) (w : Z) : Prop :=
  ∀ r c b, cell g r c = Some b →
    (row b, col b) = (r, c) ∧ inBounds g w (r, c) ∧ r < topRows cfg + 4 ∧
    kind b = normal ∧ stationary b = true ∧ cachedAt off b ∧
    (topRows cfg <= r → color b = gray) ∧
    (startingPattern cfg = simplePattern → 3 < r → color b = gray) ∧
    (startingPattern cfg = alternatingPattern → isOdd (r + c) = true → color b = gray).

(** Rolls as [Math.random()] returns them. *)
Definition unitRoll (u : Q) : Prop := (0 <= u)%Q ∧ (u < 1)%Q.

(** ** The bubble in flight and the round checks of the main loop *)

Definition SHOOT_SPEED : Q := 520.

(** The bubbles of the grid in the order of the scans
    [for r ... for c ... if (!b) continue]. *)
Definition bubblesOf (g : Grid) : list Bubble :=
  omap (λ ob : option Bubble, ob) (concat g).

(** [Math.hypot(moving.x - b.x, moving.y - b.y) < BUBBLE_DIAMETER - 1];
    both sides are non-negative, so the test is made on the squares. *)
Definition touches (mx my : Q) (b : Bubble) : bool :=
  negb (Qle_bool ((BUBBLE_DIAMETER - 1) * (BUBBLE_DIAMETER - 1))
                 ((mx - x b) * (mx - x b) + (my - y b) * (my - y b))).

(** The two wall tests, in their order:
    [if (x <= R) { x = R; dx *= -1 }  if (x >= width - R) { x = width - R; dx *= -1 }]. *)
Definition bounce (w : Z) (px dx : Q) : Q * Q :=
  let '(px, dx) :=
    if Qle_bool px BUBBLE_RADIUS then (BUBBLE_RADIUS, (dx * -1)%Q) else (px, dx) in
  if Qle_bool (inject_Z w - BUBBLE_RADIUS) px
  then ((inject_Z w - BUBBLE_RADIUS)%Q, (dx * -1)%Q) else (px, dx).

(** The statements of [loop] under "Update moving bubble", for a frame of
    [dt] seconds at the time [now = Date.now()]. *)
Definition advanceFlight (w now : Z) (dt : Q) (st : State) : option State :=
  match moving st, dir st with
  | Some m, Some (dx, dy) =>
    let x1 := (x m + dx * SHOOT_SPEED * dt)%Q in
    let y1 := (y m + dy * SHOOT_SPEED * dt)%Q in
    let '(x2, dx2) := bounce w x1 dx in
    let m' := mkBubble (id m) (row m) (col m) x2 y1 (color m) (kind m) (stationary m) in
    let st := withFlight (Some m') (Some (dx2, dy)) st in
    if Qle_bool y1 (BUBBLE_RADIUS + 2) then contact w now st
    else if existsb (touches x2 y1) (bubblesOf (grid st)) then contact w now st
    else Some st
  | _, _ => Some st
  end.

(** The lose test of [loop]: some bubble has
    [b.y + BUBBLE_RADIUS >= canvas.height - 64]. *)
Definition atDanger (h : Z) (g : Grid) : bool :=
  existsb (λ b, Qle_bool (inject_Z h - 64) (y b + BUBBLE_RADIUS)) (bubblesOf g).

(** The win test of [loop]:
    [gridRef.current.flat().filter(b => b && b.color !== 'gray').length === 0]. *)
Definition roundWon (g : Grid) : bool :=
  (length (filter (λ b, color b ≠ gray) (bubblesOf g)) =? 0)%nat.

(** [elapsed] of the win branch:
    [startMsRef.current ? Math.floor((Date.now() - startMsRef.current) / 1000) : 0]
    (a start time of 0 is falsy, like [null]). *)
Definition elapsedSeconds (startMs : option Z) (now : Z) : Z :=
  match startMs with
  | Some s => if s =? 0 then 0 else (now - s) / 1000
  | None => 0
  end.

(** [levelScore] *)
Definition levelScore (sc lives : Z) (startMs : option Z) (now : Z) : Z :=
  let elapsed := elapsedSeconds startMs now in
  let timeBonus := Z.max 0 (500 - elapsed * 5) in
  sc + timeBonus + lives * 50.

(** ** The session ([Game.tsx]) *)

Record GameState := mkGame {
  levelIndex : Z;
  lives : Z;
  totalScore : Z;        (* stats.score *)
  shots : Z;             (* stats.shots *)
  combos : Z;            (* stats.combos *)
  runningKey : Z;
  muted : bool
}.

(** The initial [useState] values. *)
Definition newGame : GameState := mkGame 0 3 0 0 0 0 false.

(** [handleLoseLife] *)
Definition handleLoseLife (gs : GameState) : GameState :=
  let next := lives gs - 1 in
  if next <=? 0
  then mkGame (levelIndex gs) 3 (totalScore gs) (shots gs) (combos gs)
              (runningKey gs + 1) (muted gs)
  else mkGame (levelIndex gs) next (totalScore gs) (shots gs) (combos gs)
              (runningKey gs) (muted gs).

(** [handleLevelWin(levelScore)]: the score is added at once; the callback
    of [setTimeout] runs 800 ms later with the [levelIndex] of the closure. *)
Definition handleLevelWin (won : Z) (gs : GameState) : GameState :=
  mkGame (levelIndex gs) (lives gs) (totalScore gs + won) (shots gs) (combos gs)
         (runningKey gs) (muted gs).

(** The callback of the timer; [levels] is [LEVELS.length] and [captured]
    the [levelIndex] the closure holds. *)
Definition winTimer (levels captured : Z) (gs : GameState) : GameState :=
  if captured <? levels - 1
  then mkGame (captured + 1) 3 (totalScore gs) (shots gs) (combos gs)
              (runningKey gs + 1) (muted gs)
  else mkGame 0 3 (totalScore gs) (shots gs) (combos gs) (runningKey gs + 1)
              (muted gs).

(** [handleShot] and [handleCombo] *)
Definition handleShot (gs : GameState) : GameState :=
  mkGame (levelIndex gs) (lives gs) (totalScore gs) (shots gs + 1) (combos gs)
         (runningKey gs) (muted gs).

Definition handleCombo (gs : GameState) : GameState :=
  mkGame (levelIndex gs) (lives gs) (totalScore gs) (shots gs) (combos gs + 1)
         (runningKey gs) (muted gs).

(** [restartLevel], the skip button and the mute button *)
Definition restartLevel (gs : GameState) : GameState :=
  mkGame (levelIndex gs) (lives gs) (totalScore gs) (shots gs) (combos gs)
         (runningKey gs + 1) (muted gs).

Definition skipLevel (levels : Z) (gs : GameState) : GameState :=
  mkGame (Z.max 0 (Z.min (levels - 1) (levelIndex gs + 1))) (lives gs) (totalScore gs)
         (shots gs) (combos gs) (runningKey gs) (muted gs).

Definition toggleMute (gs : GameState) : GameState :=
  mkGame (levelIndex gs) (lives gs) (totalScore gs) (shots gs) (combos gs)
         (runningKey gs) (negb (muted gs)).

(** [accuracy] *)
Definition accuracy (gs : GameState) : Z :=
  if shots gs >? 0
  then Math_round
         ((inject_Z (shots gs - Z.max 0 (shots gs - combos gs * 2)) / inject_Z (shots gs))
          * 100)
  else 100.

(** A session is the component state and the timers still to fire, oldest
    first (all have the same delay), each with the level index it captured. *)
Record Session := mkSession { game : GameState; timers : list Z }.

Definition newSession : Session := mkSession newGame [].

(** What the player, the canvas and the clock can make the session do. *)
Inductive GameEvent :=
  | LoseLife | LevelWon (won : Z) | TimerFires | Shot | Combo | Restart | Skip | Mute.

Definition gameStep (levels : Z) (s : Session) (e : GameEvent) : Session :=
  match e with
  | LoseLife => mkSession (handleLoseLife (game s)) (timers s)
  | LevelWon won =>
      mkSession (handleLevelWin won (game s)) (timers s ++ [levelIndex (game s)])
  | TimerFires =>
      match timers s with
      | captured :: rest => mkSession (winTimer levels captured (game s)) rest
      | [] => s
      end
  | Shot => mkSession (handleShot (game s)) (timers s)
  | Combo => mkSession (handleCombo (game s)) (timers s)
  | Restart => mkSession (restartLevel (game s)) (timers s)
  | Skip => mkSession (skipLevel levels (game s)) (timers s)
  | Mute => mkSession (toggleMute (game s)) (timers s)
  end.

Definition gameRun (levels : Z) (es : list GameEvent) (s : Session) : Session :=
  fold_left (gameStep levels) es s.


(** What every reachable session satisfies; the captured indexes of the
    pending timers are part of it. *)
Definition sessionInv (levels : Z) (s : Session) : Prop :=
  1 <= lives (game s) <= 3 ∧ 0 <= levelIndex (game s) < levels ∧
  0 <= shots (game s) ∧ 0 <= combos (game s) ∧ 0 <= runningKey (game s) ∧
  Forall (λ i, 0 <= i < levels) (timers s).


(** ** Further concrete rounds *)

(** A red bubble in row 0 and a blue one in the last slot of row 1, which
    an odd row does not use. *)
Definition exStranded : Grid := gridOf [ ((0, 3), red); ((1, 7), blue) ].

(** One red bubble in the last column of row 0. *)
Definition exTopRight : Grid := gridOf [ ((0, 7), red) ].

(** A simple level with two obstacles, and one asking for 200 of them. *)
Definition exSeed : SeedConfig := mkSeedConfig simplePattern false 2.
Definition exOverfull : SeedConfig := mkSeedConfig simplePattern false 200.

(** Draws for the seeding: every cell red, three pairs of obstacle rolls. *)
Definition exSeedInput : SeedInput :=
  mkSeedInput (λ _ _, 0%nat) (λ _ _, red) (λ _ _, 0.5%Q)
              [ (0.5, 0.5)%Q; (0.95, 0.5)%Q; (0.95, 0.5)%Q ] (λ _, 0%nat).

(** A session after ten shots and two combos. *)
Definition exGame : GameState := mkGame 0 3 0 10 2 0 false.


(** ** The coordinate transforms in double precision *)

(** The pixel arithmetic of [gridToXY] and [xyToGridGuess] with the
    rounding of JS numbers: a double is the rational it denotes, and every
    operation returns the double nearest to its exact result, halves to
    the even significand (53 bits, last place no lower than [2^-1074]).
    Results beyond the largest double, which JS turns into [Infinity], are
    not modelled. *)
Module F64.

Definition pow2 (e : Z) : Q := Qpower 2 e.

(** [floor (log2 |q|)], for [q] other than 0. *)
Definition ilog2 (q : Q) : Z :=
  let l := Z.log2 (Z.abs (Qnum q)) - Z.log2 (Z.pos (Qden q)) in
  if Qle_bool (pow2 l) (Qabs q) then l else l - 1.

(** The nearest integer, halves to the even one. *)
Definition rne (q : Q) : Z :=
  let f := Qfloor q in
  match (q - inject_Z f ?= 1 # 2)%Q with
  | Lt => f
  | Gt => f + 1
  | Eq => if Z.even f then f else f + 1
  end.

(** The exponent of the last place of the double nearest to [q]. *)
Definition ulpExp (q : Q) : Z := Z.max (ilog2 q - 52) (-1074).

(** The double nearest to [q]. *)
Definition rnd (q : Q) : Q :=
  if Qeq_bool q 0 then 0%Q
  else Qred (inject_Z (rne (q / pow2 (ulpExp q))) * pow2 (ulpExp q)).

Definition add (a b : Q) : Q := rnd (a + b).
Definition sub (a b : Q) : Q := rnd (a - b).
Definition mul (a b : Q) : Q := rnd (a * b).
Definition div (a b : Q) : Q := rnd (a / b).

(** [Math.sqrt(3)] is the double nearest to the square root of 3,
    1.7320508075688772. *)
Definition sqrt3 : Q := 3900231685776981 # 2251799813685248.

Definition BUBBLE_RADIUS : Q := 16.
Definition BUBBLE_DIAMETER : Q := mul BUBBLE_RADIUS 2.
Definition ROW_V_SPACING : Q := mul (mul sqrt3 BUBBLE_RADIUS) (rnd 0.98).
Definition COL_H_SPACING : Q := mul BUBBLE_DIAMETER (rnd 0.98).

(** [gridToXY(row, col, w)], reading [descentOffsetRef.current] as [off]. *)
Definition gridToXY (off : Q) (row col : Z) : Q * Q :=
  let rowOffset := if isEven row then 0%Q else div COL_H_SPACING 2 in
  let x := add (add rowOffset BUBBLE_RADIUS) (mul (inject_Z col) COL_H_SPACING) in
  let y := sub (add BUBBLE_RADIUS (mul (inject_Z row) ROW_V_SPACING)) off in
  (x, y).

(** [xyToGridGuess(x, y, w)] *)
Definition xyToGridGuess (off : Q) (x y : Q) : Z * Z :=
  let row := Math_round (div (sub (add y off) BUBBLE_RADIUS) ROW_V_SPACING) in
  let rowOffset := if isEven row then 0%Q else div COL_H_SPACING 2 in
  let col := Math_round (div (sub (sub x rowOffset) BUBBLE_RADIUS) COL_H_SPACING) in
  (row, col).

(** The unit roundoff [2^-53]. *)
Definition u : Q := 1 # 9007199254740992.

End F64.

(** ** The same transforms on the machine's doubles *)

(** The two transforms once more, on primitive binary64 floats, whose
    operations are those of the hardware.  They serve to check [F64]
    against real double arithmetic on concrete inputs. *)
Module Machine.
Import PrimFloat.

(** An integer as a double (exact below [2^53]). *)
Definition ofZ (n : Z) : float :=
  match n with
  | Z0 => 0%float
  | Zpos _ => of_uint63 (Uint63.of_Z n)
  | Zneg p => (- of_uint63 (Uint63.of_Z (Zpos p)))%float
  end.

(** The rational that a finite double denotes. *)
Definition toQ (f : float) : Q :=
  match FloatOps.Prim2SF f with
  | SpecFloat.S754_finite s m e =>
    Qred ((if s then -1 else 1) * inject_Z (Zpos m) * F64.pow2 e)
  | _ => 0%Q
  end.

#[local] Set Warnings "-inexact-float".
Definition sqrt3 : float := sqrt 3%float.
Definition BUBBLE_RADIUS : float := 16%float.
Definition BUBBLE_DIAMETER : float := (BUBBLE_RADIUS * 2)%float.
Definition ROW_V_SPACING : float := (sqrt 3 * BUBBLE_RADIUS * 0.98)%float.
Definition COL_H_SPACING : float := (BUBBLE_DIAMETER * 0.98)%float.
#[local] Set Warnings "+inexact-float".

Definition gridToXY (off : float) (row col : Z) : float * float :=
  let rowOffset := if isEven row then 0%float else (COL_H_SPACING / 2)%float in
  let x := (rowOffset + BUBBLE_RADIUS + ofZ col * COL_H_SPACING)%float in
  let y := (BUBBLE_RADIUS + ofZ row * ROW_V_SPACING - off)%float in
  (x, y).

Definition xyToGridGuess (off x y : float) : Z * Z :=
  let row := Math_round (toQ ((y + off - BUBBLE_RADIUS) / ROW_V_SPACING)%float) in
  let rowOffset := if isEven row then 0%float else (COL_H_SPACING / 2)%float in
  let col := Math_round (toQ ((x - rowOffset - BUBBLE_RADIUS) / COL_H_SPACING)%float) in
  (row, col).

End Machine.

(** [F64] and the machine agree on cell [(r, c)] at the integer offset
    [o]: same position, and same guess for that position. *)
Definition agreeAt (o r c : Z) : bool :=
  Qeq_bool (Machine.toQ (Machine.gridToXY (Machine.ofZ o) r c).1)
           (F64.gridToXY (inject_Z o) r c).1
  && Qeq_bool (Machine.toQ (Machine.gridToXY (Machine.ofZ o) r c).2)
              (F64.gridToXY (inject_Z o) r c).2
  && bool_decide
       (Machine.xyToGridGuess (Machine.ofZ o)
          (Machine.gridToXY (Machine.ofZ o) r c).1
          (Machine.gridToXY (Machine.ofZ o) r c).2
        = F64.xyToGridGuess (inject_Z o)
            (F64.gridToXY (inject_Z o) r c).1 (F64.gridToXY (inject_Z o) r c).2).

(** ** Inputs for the coordinate transforms *)

(** The offset 1e18, which is a double. *)
Definition exHugeOffset : Q := inject_Z (10 ^ 18).
(** ** Coordinate transforms *)

Lemma ROW_V_SPACING_pos : (0 < ROW_V_SPACING)%Q.
Proof. reflexivity. Qed.

Lemma COL_H_SPACING_pos : (0 < COL_H_SPACING)%Q.
Proof. reflexivity. Qed.

(** ** Grid store: reading and writing *)

Lemma computeCols_range (w : Z) : 8 <= computeCols w <= 12.
Proof. unfold computeCols, MAX_COLS. lia. Qed.

Lemma maxColsOf_range (w r : Z) : 7 <= maxColsOf w r <= computeCols w.
Proof.
  unfold maxColsOf. pose proof (computeCols_range w). destruct (isOdd r); lia.
Qed.

Lemma cell_Some_bounds (g : Grid) (r c : Z) (b : Bubble) :
  cell g r c = Some b →
  0 <= r < Z.of_nat (length g) ∧
  ∃ rw, g !! Z.to_nat r = Some rw ∧ 0 <= c < Z.of_nat (length rw).
Proof.
  unfold cell. intros H.
  destruct (r <? 0) eqn:Hr; [done|]. destruct (c <? 0) eqn:Hc; [done|].
  simpl in H. destruct (g !! Z.to_nat r) as [rw|] eqn:Hg; [|done].
  destruct (rw !! Z.to_nat c) as [ob|] eqn:Hw; [|done].
  apply lookup_lt_Some in Hg, Hw. split; [lia|]. exists rw. split; [done|lia].
Qed.

Lemma length_setCell (g : Grid) (r c : Z) (v : option Bubble) :
  length (setCell g r c v) = length g.
Proof. unfold setCell. destruct (_ || _); [done|]. apply length_alter. Qed.

Lemma wfGrid_setCell (w : Z) (g : Grid) (r c : Z) (v : option Bubble) :
  wfGrid w g → wfGrid w (setCell g r c v).
Proof.
  unfold wfGrid, setCell. intros H. destruct (_ || _); [done|].
  apply Forall_alter; [done|]. intros rw _ Hl. by rewrite length_insert.
Qed.

Lemma cell_setCell_ne (g : Grid) (r c r' c' : Z) (v : option Bubble) :
  (r, c) ≠ (r', c') → cell (setCell g r c v) r' c' = cell g r' c'.
Proof.
  intros Hne. unfold setCell, cell.
  destruct (r <? 0) eqn:Hr; [done|]. destruct (c <? 0) eqn:Hc; [done|].
  destruct (r' <? 0) eqn:Hr'; [done|]. destruct (c' <? 0) eqn:Hc'; [done|].
  simpl. destruct (decide (Z.to_nat r = Z.to_nat r')) as [E|E].
  - rewrite <- E, list_lookup_alter_eq.
    destruct (g !! Z.to_nat r) as [rw|]; [|done]. simpl.
    rewrite list_lookup_insert_ne; [done|]. intros E'.
    apply Hne. f_equal; lia.
  - by rewrite list_lookup_alter_ne.
Qed.

Lemma cell_setCell_eq (g : Grid) (r c : Z) (v : option Bubble) (rw : list (option Bubble)) :
  0 <= r → g !! Z.to_nat r = Some rw → 0 <= c < Z.of_nat (length rw) →
  cell (setCell g r c v) r c = v.
Proof.
  intros Hr Hg Hc. unfold setCell, cell.
  replace (r <? 0) with false by lia. replace (c <? 0) with false by lia. simpl.
  rewrite list_lookup_alter_eq, Hg. simpl.
  rewrite list_lookup_insert_eq by lia. done.
Qed.

(** A write either lands in the slot or, when the slot does not exist,
    changes nothing readable. *)
Lemma cell_setCell_cases (g : Grid) (r c r' c' : Z) (v : option Bubble) :
  cell (setCell g r c v) r' c' = v ∨
  cell (setCell g r c v) r' c' = cell g r' c'.
Proof.
  destruct (decide ((r, c) = (r', c'))) as [E|E].
  - injection E as <- <-. unfold setCell, cell.
    destruct (r <? 0) eqn:Hr; [by right|]. destruct (c <? 0) eqn:Hc; [by right|].
    simpl. rewrite list_lookup_alter_eq.
    destruct (g !! Z.to_nat r) as [rw|]; [|by right]. simpl.
    destruct (decide (Z.to_nat c < length rw)%nat).
    + rewrite list_lookup_insert_eq by done. by left.
    + rewrite list_insert_ge by lia. by right.
  - right. by apply cell_setCell_ne.
Qed.

Lemma wfGrid_row (w : Z) (g : Grid) (r : nat) (rw : list (option Bubble)) :
  wfGrid w g → g !! r = Some rw → Z.of_nat (length rw) = computeCols w.
Proof.
  intros Hwf Hg. unfold wfGrid in Hwf. rewrite Forall_lookup in Hwf.
  specialize (Hwf _ _ Hg). simpl in Hwf. pose proof (computeCols_range w). lia.
Qed.

Lemma inBounds_row (w : Z) (g : Grid) (p : Cell) :
  wfGrid w g → inBounds g w p →
  ∃ rw, g !! Z.to_nat p.1 = Some rw ∧ 0 <= p.2 < Z.of_nat (length rw).
Proof.
  intros Hwf [Hr Hc].
  destruct (lookup_lt_is_Some_2 g (Z.to_nat p.1)) as [rw Hrw]; [lia|].
  exists rw. split; [done|]. rewrite (wfGrid_row _ _ _ _ Hwf Hrw).
  pose proof (maxColsOf_range w p.1). lia.
Qed.

(** ** Snap placement *)

Lemma clampCell_inBounds (g : Grid) (w : Z) (p : Cell) :
  (0 < length g)%nat → inBounds g w (clampCell g w p).
Proof.
  intros Hlen. unfold inBounds, clampCell. simpl.
  set (r1 := if p.1 <? 0 then 0 else p.1).
  set (r2 := if r1 >=? Z.of_nat (length g) then Z.of_nat (length g) - 1 else r1).
  pose proof (maxColsOf_range w r2).
  assert (0 <= r1) by (unfold r1; destruct (p.1 <? 0) eqn:?; lia).
  split.
  - unfold r2. destruct (r1 >=? Z.of_nat (length g)) eqn:?; lia.
  - destruct (p.2 <? 0) eqn:?; simpl;
      match goal with |- context [?a >=? ?b] => destruct (a >=? b) eqn:? end; lia.
Qed.


Lemma placeBubbleAt_free (g : Grid) (off : Q) (w : Z) (p : Cell) (b : Bubble) :
  cell g (clampCell g w p).1 (clampCell g w p).2 = None →
  let q := clampCell g w p in
  let b' := mkBubble (id b) q.1 q.2 (gridToXY off q.1 q.2).1 (gridToXY off q.1 q.2).2
                     (color b) (kind b) true in
  placeBubbleAt g off w p.1 p.2 b = Some (setCell g q.1 q.2 (Some b'), b').
Proof.
  intros Hfree. unfold placeBubbleAt. rewrite <- surjective_pairing.
  destruct (clampCell g w p) as [r c] eqn:E. simpl in *. rewrite Hfree.
  by destruct (gridToXY off r c).
Qed.

Lemma placeBubbleAt_taken (g : Grid) (off : Q) (w : Z) (p : Cell) (b : Bubble) :
  is_Some (cell g (clampCell g w p).1 (clampCell g w p).2) →
  placeBubbleAt g off w p.1 p.2 b = None.
Proof.
  intros [b0 Hb]. unfold placeBubbleAt. rewrite <- surjective_pairing.
  destruct (clampCell g w p) as [r c] eqn:E. simpl in *. by rewrite Hb.
Qed.




Lemma wfGrid_emptyGrid (w : Z) : wfGrid w (emptyGrid w).
Proof.
  unfold wfGrid, emptyGrid. apply Forall_replicate. by rewrite length_replicate.
Qed.

Lemma cell_emptyGrid (w r c : Z) : cell (emptyGrid w) r c = None.
Proof.
  unfold cell, emptyGrid. destruct (_ || _); [done|].
  destruct (replicate _ _ !! Z.to_nat r) as [rw|] eqn:E; [|done].
  apply lookup_replicate in E as [-> _].
  destruct (replicate _ _ !! Z.to_nat c) as [ob|] eqn:E'; [|done].
  by apply lookup_replicate in E' as [-> _].
Qed.

(** ** Shooting and the next-queue *)

(** C9.  While a bubble is in flight, [shoot] returns without any effect:
    the whole state is unchanged, so the next-queue and its head are
    unchanged, the bubble in flight is the same one and no shot event is
    emitted. *)
Theorem shoot_in_flight_is_noop (re : bool) (w h : Z) (i : ShotInput) (st : State)
    (b : Bubble) :
  moving st = Some b →
  shoot re w h i st = st ∧
  nextQueue (shoot re w h i st) = nextQueue st ∧
  moving (shoot re w h i st) = Some b ∧
  events (shoot re w h i st) = events st.
Proof.
  intros Hm. assert (shoot re w h i st = st) as E.
  { unfold shoot. by rewrite Hm. }
  by rewrite E.
Qed.

Lemma refillNextQueue_queue (re : bool) (rolls : nat → Q) (st : State) :
  nextQueue (refillNextQueue re rolls st) =
    [ kindOfRoll re (rolls 0%nat); kindOfRoll re (rolls 1%nat);
      kindOfRoll re (rolls 2%nat) ].
Proof. reflexivity. Qed.

Lemma shoot_queue (re : bool) (w h : Z) (i : ShotInput) (st : State) :
  moving st = None →
  nextQueue (shoot re w h i st) =
    if (length (tail (nextQueue st)) <? 2)%nat
    then [ kindOfRoll re (shotRolls i 0%nat); kindOfRoll re (shotRolls i 1%nat);
           kindOfRoll re (shotRolls i 2%nat) ]
    else tail (nextQueue st).
Proof.
  intros Hm. unfold shoot. rewrite Hm. simpl.
  by destruct (length (tail (nextQueue st)) <? 2)%nat.
Qed.

Lemma queueReach_length (re : bool) (w h : Z) (st : State) :
  queueReach re w h st → (length (nextQueue st) <= 3)%nat.
Proof.
  induction 1 as [st E|st rolls _ IH|st i _ IH|st st' _ IH E].
  - rewrite E. simpl. lia.
  - rewrite refillNextQueue_queue. simpl. lia.
  - destruct (moving st) as [b|] eqn:Hm.
    + unfold shoot. by rewrite Hm.
    + rewrite shoot_queue by done.
      destruct (length (tail (nextQueue st)) <? 2)%nat eqn:E; simpl; [lia|].
      destruct (nextQueue st); simpl in *; lia.
  - by rewrite E.
Qed.

(** C10.  [refillNextQueue] assigns the queue to exactly the three rolled
    kinds, whatever it held; a [shoot] that launches a bubble from a
    reachable state leaves a queue of length 2 or 3; and when the refill
    triggers (fewer than 2 kinds left after the dequeue) the queue
    afterwards is the three rolled kinds only, so the kind that was still
    queued is gone. *)
Theorem refill_replaces_queue (re : bool) (w h : Z) (i : ShotInput) (st : State) :
  queueReach re w h st → moving st = None →
  (∀ rolls st0,
     nextQueue (refillNextQueue re rolls st0) =
       [ kindOfRoll re (rolls 0%nat); kindOfRoll re (rolls 1%nat);
         kindOfRoll re (rolls 2%nat) ]) ∧
  (length (nextQueue (shoot re w h i st)) = 2%nat ∨
   length (nextQueue (shoot re w h i st)) = 3%nat) ∧
  ((length (tail (nextQueue st)) < 2)%nat →
     nextQueue (shoot re w h i st) =
       [ kindOfRoll re (shotRolls i 0%nat); kindOfRoll re (shotRolls i 1%nat);
         kindOfRoll re (shotRolls i 2%nat) ]) ∧
  ((2 <= length (tail (nextQueue st)))%nat →
     nextQueue (shoot re w h i st) = tail (nextQueue st)).
Proof.
  intros Hreach Hm. pose proof (queueReach_length _ _ _ _ Hreach) as Hlen.
  rewrite (shoot_queue re w h i st Hm).
  split; [intros; apply refillNextQueue_queue|].
  destruct (length (tail (nextQueue st)) <? 2)%nat eqn:E.
  - apply Nat.ltb_lt in E. split; [by right|]. split; [done|lia].
  - apply Nat.ltb_ge in E. split; [|split; [lia|done]].
    destruct (nextQueue st) as [|k q]; simpl in *; lia.
Qed.

(** ** Descent controller *)

Lemma tickDt_range (t : Tick) :
  (tLast t <= tNow t)%Q → (0 <= tickDt t <= 0.033)%Q.
Proof.
  intros H. unfold tickDt. split.
  - apply Q.min_glb; [discriminate|].
    assert (0 <= tNow t - tLast t)%Q by lra.
    apply Qle_shift_div_l; [reflexivity|]. lra.
  - apply Q.le_min_l.
Qed.

Lemma tickDescent_range (level : LevelConfig) (t : Tick) (st : State) :
  (0 <= descentSpeed level)%Q → (descentSpeed level * 0.033 <= ROW_V_SPACING)%Q →
  (tLast t <= tNow t)%Q →
  (0 <= tickDescent level t st <= ROW_V_SPACING)%Q.
Proof.
  intros Hs Hv Ht. pose proof (tickDt_range t Ht) as [Hd0 Hd1].
  unfold tickDescent. destruct (tDate t <? freezeUntil (power st)); split; nra.
Qed.

Lemma loopDescent_below (level : LevelConfig) (w : Z) (t : Tick) (st : State) :
  (descentOffset st + tickDescent level t st <= ROW_V_SPACING)%Q →
  loopDescent level w t st =
    withDescentOffset (descentOffset st + tickDescent level t st) st.
Proof.
  intros H. unfold loopDescent. cbn [descentOffset withDescentOffset].
  apply Qle_bool_iff in H. by rewrite H.
Qed.

Lemma loopDescent_above (level : LevelConfig) (w : Z) (t : Tick) (st : State) :
  (ROW_V_SPACING < descentOffset st + tickDescent level t st)%Q →
  loopDescent level w t st =
    addNewDescendingRow w (tRow t)
      (withDescentOffset (descentOffset st + tickDescent level t st - ROW_V_SPACING) st).
Proof.
  intros H. unfold loopDescent. cbn [descentOffset withDescentOffset].
  destruct (Qle_bool _ ROW_V_SPACING) eqn:E; [|done].
  apply Qle_bool_iff in E. lra.
Qed.

Lemma loopDescent_offset_range (level : LevelConfig) (w : Z) (t : Tick) (st : State) :
  (0 <= descentSpeed level)%Q → (descentSpeed level * 0.033 <= ROW_V_SPACING)%Q →
  (tLast t <= tNow t)%Q →
  (0 <= descentOffset st <= ROW_V_SPACING)%Q →
  (0 <= descentOffset (loopDescent level w t st) <= ROW_V_SPACING)%Q.
Proof.
  intros Hs Hv Ht Ho.
  pose proof (tickDescent_range level t st Hs Hv Ht) as Hd.
  destruct (Qlt_le_dec ROW_V_SPACING (descentOffset st + tickDescent level t st)) as [L|L].
  - rewrite loopDescent_above by done. cbn. lra.
  - rewrite loopDescent_below by done. cbn. lra.
Qed.

(** C6, as the code has it.  With a non-negative descent rate whose
    per-frame advance (at the 33 ms cap) does not exceed one row spacing,
    and frames whose timestamps do not go backwards: each frame adds a
    descent between 0 and one spacing; when the sum stays at or below the
    spacing nothing else happens; when it exceeds the spacing exactly one
    row is inserted and exactly one spacing is subtracted; and over any
    sequence of frames the offset stays between 0 and the spacing, both
    ends included. *)
Theorem descent_offset_bounded (level : LevelConfig) (w : Z) :
  (0 <= descentSpeed level)%Q → (descentSpeed level * 0.033 <= ROW_V_SPACING)%Q →
  (∀ t st, (tLast t <= tNow t)%Q → (0 <= descentOffset st <= ROW_V_SPACING)%Q →
     let d := tickDescent level t st in
     (0 <= d <= ROW_V_SPACING)%Q ∧
     ((descentOffset st + d <= ROW_V_SPACING)%Q →
        loopDescent level w t st = withDescentOffset (descentOffset st + d) st) ∧
     ((ROW_V_SPACING < descentOffset st + d)%Q →
        loopDescent level w t st =
          addNewDescendingRow w (tRow t)
            (withDescentOffset (descentOffset st + d - ROW_V_SPACING) st)) ∧
     (0 <= descentOffset (loopDescent level w t st) <= ROW_V_SPACING)%Q) ∧
  (∀ ts st, Forall (λ t, (tLast t <= tNow t)%Q) ts →
     (0 <= descentOffset st <= ROW_V_SPACING)%Q →
     (0 <= descentOffset (runDescent level w ts st) <= ROW_V_SPACING)%Q).
Proof.
  intros Hs Hv. split.
  - intros t st Ht Ho d. split; [by apply tickDescent_range|].
    split; [apply loopDescent_below|]. split; [apply loopDescent_above|].
    by apply loopDescent_offset_range.
  - intros ts. unfold runDescent.
    induction ts as [|t ts IH]; intros st Hts Ho; [done|].
    apply Forall_cons in Hts as [Ht Hts]. simpl. apply IH; [done|].
    by apply loopDescent_offset_range.
Qed.

(** A frame that inserts no row leaves the grid as it is. *)
Lemma loopDescent_grid_below (level : LevelConfig) (w : Z) (t : Tick) (st : State) :
  (descentOffset st + tickDescent level t st <= ROW_V_SPACING)%Q →
  grid (loopDescent level w t st) = grid st.
Proof. intros H. by rewrite loopDescent_below. Qed.

(** C1 does not hold of the code.  The descent update changes
    [descentOffset] and nothing else: a frame with a positive descent and
    no row insertion leaves every bubble, with its cached [(x, y)], in
    place, so a cached position that agreed with [gridToXY] before the
    frame no longer does after it, and the invariant on cached positions
    is lost. *)
Theorem cached_position_goes_stale (level : LevelConfig) (w : Z) (t : Tick)
    (st : State) (r c : Z) (b : Bubble) :
  cacheInvariant st → cell (grid st) r c = Some b →
  (0 < tickDescent level t st)%Q →
  (descentOffset st + tickDescent level t st <= ROW_V_SPACING)%Q →
  cell (grid (loopDescent level w t st)) r c = Some b ∧
  ¬ cachedAt (descentOffset (loopDescent level w t st)) b ∧
  ¬ cacheInvariant (loopDescent level w t st).
Proof.
  intros Hinv Hc Hpos Hle. destruct (Hinv r c b Hc) as [_ Hy].
  rewrite loopDescent_below by done.
  assert (¬ cachedAt (descentOffset st + tickDescent level t st) b) as Hstale.
  { intros [_ Hy']. cbn in Hy, Hy'. rewrite Hy in Hy'. lra. }
  split; [done|]. split; [done|]. intros Hinv'. apply Hstale.
  by apply (Hinv' r c b).
Qed.

(** *** Row insertion *)

Lemma lookup_removelast {A : Type} (l : list A) (i : nat) :
  (i + 1 < length l)%nat → removelast l !! i = l !! i.
Proof.
  revert i. induction l as [|a l IH]; intros i Hi; simpl in *; [lia|].
  destruct l as [|a' l]; simpl in *; [lia|].
  destruct i as [|i]; [done|]. simpl. apply IH. simpl. lia.
Qed.

(** A row insertion moves the content of row [r] to row [r + 1], bumping
    [row] and keeping the cached [(x, y)]. *)
Lemma addNewDescendingRow_shifts (w : Z) (i : RowInput) (st : State) (r c : Z) :
  0 <= r → r + 1 < Z.of_nat (length (grid st)) →
  cell (grid (addNewDescendingRow w i st)) (r + 1) c = pushDown (cell (grid st) r c).
Proof.
  intros Hr Hlen. unfold addNewDescendingRow, cell. cbn [grid withGrid].
  replace (r + 1 <? 0) with false by lia. replace (r <? 0) with false by lia.
  destruct (c <? 0); [done|]. simpl orb. cbv iota.
  rewrite lookup_removelast by (simpl; rewrite length_fmap; lia).
  replace (Z.to_nat (r + 1)) with (S (Z.to_nat r)) by lia. simpl.
  rewrite list_lookup_fmap. destruct (grid st !! Z.to_nat r) as [rw|]; [|done].
  simpl. rewrite list_lookup_fmap. by destruct (rw !! Z.to_nat c) as [[b|]|].
Qed.

Lemma isEven_succ (r : Z) : 0 <= r → isEven (r + 1) = negb (isEven r).
Proof.
  intros Hr. unfold isEven. rewrite !Z.rem_mod_nonneg by lia.
  pose proof (Z.mod_pos_bound r 2). pose proof (Z.mod_pos_bound (r + 1) 2).
  destruct (r mod 2 =? 0) eqn:E; simpl; [|apply Z.eqb_eq]; try apply Z.eqb_neq;
    rewrite Z.add_mod by lia; [apply Z.eqb_eq in E|apply Z.eqb_neq in E].
  - rewrite E. done.
  - replace (r mod 2) with 1 by lia. done.
Qed.

(** After the shift the cached [x] belongs to a row of the other parity:
    whatever the offset, the cached position no longer agrees with the
    bubble's cell. *)
Lemma pushDown_cache_stale (off off' : Q) (b b' : Bubble) :
  0 <= row b → cachedAt off b → pushDown (Some b) = Some b' → ¬ cachedAt off' b'.
Proof.
  intros Hr [Hx _] [= <-] [Hx' _]. unfold gridToXY in Hx, Hx'.
  cbn [fst snd row col x y] in Hx, Hx'. rewrite Hx in Hx'.
  rewrite isEven_succ in Hx' by done. clear Hx.
  assert (0 < COL_H_SPACING)%Q as Hpos by reflexivity.
  set (k := (inject_Z (col b) * COL_H_SPACING)%Q) in *. clearbody k.
  set (h := COL_H_SPACING) in *. clearbody h.
  set (rad := BUBBLE_RADIUS) in *. clearbody rad.
  assert (h / 2 == h * (1 # 2))%Q as Hhalf by field.
  destruct (isEven (row b)); cbn [negb] in Hx'; rewrite Hhalf in Hx'; lra.
Qed.

(** ** Termination of the traversals *)

Lemma length_join_imap {A B : Type} (f : nat → list A → list B) (g : list (list A)) :
  (∀ i rw, length (f i rw) = length rw) →
  length (mjoin (imap f g)) = length (concat g).
Proof.
  revert f. induction g as [|rw g IH]; intros f Hf; [done|].
  simpl. rewrite !length_app, Hf. f_equal. apply IH. intros i rw'. apply Hf.
Qed.

Lemma length_allCells (g : Grid) : length (allCells g) = slotCount g.
Proof.
  unfold allCells, slotCount. apply length_join_imap.
  intros i rw. apply length_imap.
Qed.

Lemma cell_Some_allCells (g : Grid) (r c : Z) (b : Bubble) :
  cell g r c = Some b → (r, c) ∈ allCells g.
Proof.
  intros H. apply cell_Some_bounds in H as (Hr & rw & Hrw & Hc).
  unfold allCells. apply list_elem_of_join.
  exists (imap (λ c _, (r, Z.of_nat c)) rw). split.
  - apply elem_of_lookup_imap. exists (Z.to_nat c).
    destruct (lookup_lt_is_Some_2 rw (Z.to_nat c)) as [ob Hob]; [lia|].
    exists ob. split; [|done]. f_equal. lia.
  - apply elem_of_lookup_imap. exists (Z.to_nat r), rw. split; [|done].
    replace (Z.of_nat (Z.to_nat r)) with r by lia. done.
Qed.

Lemma unvisited_le (g : Grid) (visited : gset Cell) :
  (unvisited g visited <= slotCount g)%nat.
Proof. unfold unvisited. rewrite <- length_allCells. apply length_filter. Qed.

Lemma filter_visit_le (l : list Cell) (visited : gset Cell) (p : Cell) :
  (length (filter (λ q, q ∉ visited ∪ {[p]}) l) <=
   length (filter (λ q, q ∉ visited) l))%nat.
Proof.
  induction l as [|q l IH]; [done|].
  rewrite !filter_cons. repeat case_decide; simpl; try lia. set_solver.
Qed.

Lemma filter_visit_lt (l : list Cell) (visited : gset Cell) (p : Cell) :
  p ∈ l → p ∉ visited →
  (length (filter (λ q, q ∉ visited ∪ {[p]}) l) <
   length (filter (λ q, q ∉ visited) l))%nat.
Proof.
  intros Hin Hp. induction l as [|q l IH]; [by apply elem_of_nil in Hin|].
  pose proof (filter_visit_le l visited p) as Hle.
  rewrite !filter_cons. apply elem_of_cons in Hin as [<-|Hin].
  - rewrite decide_False by set_solver. rewrite decide_True by done. simpl. lia.
  - specialize (IH Hin). repeat case_decide; simpl; try lia. set_solver.
Qed.

Lemma unvisited_visit_le (g : Grid) (visited : gset Cell) (p : Cell) :
  (unvisited g (visited ∪ {[p]}) <= unvisited g visited)%nat.
Proof. apply filter_visit_le. Qed.

Lemma unvisited_visit_lt (g : Grid) (visited : gset Cell) (p : Cell) (b : Bubble) :
  cell g p.1 p.2 = Some b → p ∉ visited →
  (unvisited g (visited ∪ {[p]}) < unvisited g visited)%nat.
Proof.
  intros Hc Hp. apply filter_visit_lt; [|done].
  destruct p as [r c]. by eapply cell_Some_allCells.
Qed.

Lemma length_omap_le {A B : Type} (f : A → option B) (l : list A) :
  (length (omap f l) <= length l)%nat.
Proof.
  induction l as [|a l IH]; [done|]. unfold omap in *. simpl.
  destruct (f a); simpl; lia.
Qed.

Lemma length_neighborCells (rows w r c : Z) :
  (length (neighborCells rows w r c) <= 6)%nat.
Proof. unfold neighborCells. etrans; [apply length_filter|]. done. Qed.

Lemma length_neighbors (g : Grid) (w r c : Z) : (length (neighbors g w r c) <= 6)%nat.
Proof. unfold neighbors. rewrite length_fmap. apply length_neighborCells. Qed.

Lemma length_floodPushes (g : Grid) (w : Z) (target : BubbleColor) (cur : Cell) :
  (length (floodPushes g w target cur) <= 6)%nat.
Proof. etrans; [apply length_omap_le|apply length_neighbors]. Qed.

Lemma length_anchorPushes (g : Grid) (w : Z) (visited : gset Cell) (cur : Cell) :
  (length (anchorPushes g w visited cur) <= 6)%nat.
Proof. etrans; [apply length_omap_le|apply length_neighbors]. Qed.

Lemma floodMatch_loop_total (g : Grid) (w : Z) (target : BubbleColor) (fuel : nat) :
  ∀ stack visited res,
    (length stack + 6 * unvisited g visited <= fuel)%nat →
    is_Some (floodMatch_loop fuel g w target stack visited res).
Proof.
  induction fuel as [|fuel IH]; intros [|cur stack] visited res Hf; simpl in *;
    [done|lia|done|].
  pose proof (unvisited_visit_le g visited cur) as Hle.
  case_decide; [apply IH; lia|].
  destruct (cell g cur.1 cur.2) as [b|] eqn:Hc; [|apply IH; lia].
  pose proof (unvisited_visit_lt g visited cur b Hc ltac:(done)) as Hlt.
  destruct (matchesTarget target b); [|apply IH; lia].
  apply IH. rewrite length_app, length_rev.
  pose proof (length_floodPushes g w target cur). lia.
Qed.

Lemma anchor_loop_total (g : Grid) (w : Z) (fuel : nat) :
  ∀ stack visited,
    (length stack + 6 * unvisited g visited <= fuel)%nat →
    is_Some (anchor_loop fuel g w stack visited).
Proof.
  induction fuel as [|fuel IH]; intros [|cur stack] visited Hf; simpl in *;
    [done|lia|done|].
  pose proof (unvisited_visit_le g visited cur) as Hle.
  case_decide; [apply IH; lia|].
  destruct (cell g cur.1 cur.2) as [b|] eqn:Hc; [|apply IH; lia].
  pose proof (unvisited_visit_lt g visited cur b Hc ltac:(done)) as Hlt.
  apply IH. rewrite length_app, length_rev.
  pose proof (length_anchorPushes g w (visited ∪ {[cur]}) cur). lia.
Qed.

Lemma floodMatch_total (g : Grid) (w r c : Z) (target : BubbleColor) :
  is_Some (floodMatch g w r c target).
Proof.
  apply floodMatch_loop_total. unfold traversalFuel.
  pose proof (unvisited_le g ∅). lia.
Qed.

Lemma removeDisconnected_total (g : Grid) (w : Z) :
  ∃ visited,
    anchor_loop (traversalFuel g (rev (anchorSeeds g w))) g w (rev (anchorSeeds g w)) ∅
      = Some visited ∧
    removeDisconnected g w = Some (sweep visited 0 g).
Proof.
  destruct (anchor_loop_total g w (traversalFuel g (rev (anchorSeeds g w)))
              (rev (anchorSeeds g w)) ∅) as [visited Hv].
  { unfold traversalFuel. pose proof (unvisited_le g ∅). lia. }
  exists visited. split; [done|]. unfold removeDisconnected. by rewrite Hv.
Qed.

(** ** Disconnection removal *)

Lemma elem_of_neighbors (g : Grid) (w r c : Z) (n : Cell * option Bubble) :
  n ∈ neighbors g w r c ↔
  n.1 ∈ neighborCells (Z.of_nat (length g)) w r c ∧ n.2 = cell g n.1.1 n.1.2.
Proof.
  unfold neighbors. rewrite list_elem_of_fmap. split.
  - intros (p & -> & Hp). done.
  - intros [Hp Hb]. exists n.1. split; [|done]. destruct n as [p ob]. simpl in *. by subst.
Qed.

Lemma elem_of_anchorPushes (g : Grid) (w : Z) (visited : gset Cell) (cur q : Cell) :
  q ∈ anchorPushes g w visited cur ↔
  adjacent g w cur q ∧ (q ∉ visited) ∧
  ∃ nb, cell g q.1 q.2 = Some nb ∧ color nb ≠ gray.
Proof.
  unfold anchorPushes, adjacent. rewrite list_elem_of_omap. split.
  - intros ([p ob] & Hn & Hf). apply elem_of_neighbors in Hn as [Hp Hob].
    simpl in *. destruct ob as [nb|]; [|done].
    case_decide; [done|]. unfold isGray in Hf. case_bool_decide; [done|].
    injection Hf as <-. eauto.
  - intros (Hadj & Hv & nb & Hc & Hg). exists (q, Some nb). split.
    + apply elem_of_neighbors. by split.
    + simpl. rewrite decide_False by done. unfold isGray.
      by rewrite bool_decide_eq_false_2.
Qed.

Lemma elem_of_rev {A : Type} (a : A) (l : list A) : a ∈ rev l ↔ a ∈ l.
Proof. rewrite !list_elem_of_In. symmetry. apply in_rev. Qed.

Lemma anchored_occupied (g : Grid) (w : Z) (p : Cell) :
  anchored g w p → ∃ b, cell g p.1 p.2 = Some b.
Proof. destruct 1; eauto. Qed.


Lemma anchorInv_seeds (g : Grid) (w : Z) : anchorInv g w (rev (anchorSeeds g w)) ∅.
Proof.
  split; [|split].
  - intros p [Hp|Hp]; [|set_solver].
    rewrite elem_of_rev in Hp. unfold anchorSeeds in Hp.
    apply list_elem_of_fmap in Hp as (c & -> & Hc).
    apply list_elem_of_filter in Hc as [[b Hb] _]. by econstructor.
  - intros c b Hc Hb. right. rewrite elem_of_rev. unfold anchorSeeds.
    apply list_elem_of_fmap. exists c. split; [done|].
    apply list_elem_of_filter. split; [by rewrite Hb|].
    apply elem_of_seqZ. lia.
  - set_solver.
Qed.

Lemma anchorInv_skip (g : Grid) (w : Z) (cur : Cell) (stack : list Cell) (visited : gset Cell) :
  cur ∈ visited → anchorInv g w (cur :: stack) visited → anchorInv g w stack visited.
Proof.
  intros Hcur (H1 & H2 & H3). split; [|split].
  - intros p Hp. apply H1. set_solver.
  - intros c b Hc Hb. destruct (H2 c b Hc Hb) as [?|Hin]; [by left|].
    apply elem_of_cons in Hin as [->|?]; [by left|by right].
  - intros p q b nb Hp Hb Hadj Hnb Hg.
    destruct (H3 p q b nb Hp Hb Hadj Hnb Hg) as [?|Hin]; [by left|].
    apply elem_of_cons in Hin as [->|?]; [by left|by right].
Qed.

Lemma anchorInv_empty_slot (g : Grid) (w : Z) (cur : Cell) (stack : list Cell) (visited : gset Cell) :
  cell g cur.1 cur.2 = None →
  anchorInv g w (cur :: stack) visited → anchorInv g w stack (visited ∪ {[cur]}).
Proof.
  intros Hnone (H1 & H2 & H3). split; [|split].
  - intros p Hp. apply H1. set_solver.
  - intros c b Hc Hb. destruct (H2 c b Hc Hb) as [?|Hin]; [left; set_solver|].
    apply elem_of_cons in Hin as [->|?]; [left; set_solver|by right].
  - intros p q b nb Hp Hb Hadj Hnb Hg.
    apply elem_of_union in Hp as [Hp|Hp].
    + destruct (H3 p q b nb Hp Hb Hadj Hnb Hg) as [?|Hin]; [left; set_solver|].
      apply elem_of_cons in Hin as [->|?]; [left; set_solver|by right].
    + apply elem_of_singleton in Hp as ->. congruence.
Qed.

Lemma anchorInv_expand (g : Grid) (w : Z) (cur : Cell) (b : Bubble) (stack : list Cell)
    (visited : gset Cell) :
  cell g cur.1 cur.2 = Some b →
  anchorInv g w (cur :: stack) visited →
  anchorInv g w (rev (anchorPushes g w (visited ∪ {[cur]}) cur) ++ stack)
            (visited ∪ {[cur]}).
Proof.
  intros Hb (H1 & H2 & H3). split; [|split].
  - intros p [Hp|Hp].
    + apply elem_of_app in Hp as [Hp|Hp]; [|apply H1; set_solver].
      rewrite elem_of_rev in Hp.
      apply elem_of_anchorPushes in Hp as (Hadj & _ & nb & Hnb & Hg).
      eapply anchored_step; [|done..]. apply H1. set_solver.
    + apply H1. set_solver.
  - intros c b' Hc Hb'. destruct (H2 c b' Hc Hb') as [?|Hin]; [left; set_solver|].
    apply elem_of_cons in Hin as [->|?]; [left; set_solver|].
    right. apply elem_of_app. by right.
  - intros p q b' nb Hp Hb' Hadj Hnb Hg.
    destruct (decide (q ∈ visited ∪ {[cur]})) as [?|Hq]; [by left|right].
    apply elem_of_app.
    apply elem_of_union in Hp as [Hp|Hp].
    + destruct (H3 p q b' nb Hp Hb' Hadj Hnb Hg) as [?|Hin]; [set_solver|].
      apply elem_of_cons in Hin as [->|?]; [set_solver|by right].
    + apply elem_of_singleton in Hp as ->. left.
      rewrite elem_of_rev. apply elem_of_anchorPushes. eauto.
Qed.

Lemma anchor_loop_inv (g : Grid) (w : Z) (fuel : nat) :
  ∀ stack visited result,
    anchorInv g w stack visited →
    anchor_loop fuel g w stack visited = Some result →
    anchorInv g w [] result.
Proof.
  induction fuel as [|fuel IH]; intros [|cur stack] visited result Hinv Hrun;
    simpl in Hrun; try done.
  - by injection Hrun as <-.
  - by injection Hrun as <-.
  - case_decide.
    + eapply IH; [|done]. by eapply anchorInv_skip.
    + destruct (cell g cur.1 cur.2) as [b|] eqn:Hb.
      * eapply IH; [|done]. by eapply anchorInv_expand.
      * eapply IH; [|done]. by apply anchorInv_empty_slot.
Qed.

(** When the search ends, the visited set is the set of anchored cells. *)
Lemma anchorInv_final (g : Grid) (w : Z) (result : gset Cell) (p : Cell) :
  wfGrid w g → anchorInv g w [] result → (p ∈ result ↔ anchored g w p).
Proof.
  intros Hwf (H1 & H2 & H3). split; [intros; apply H1; by right|].
  induction 1 as [c b Hb|p q b Hp IH Hadj Hb Hg].
  - destruct (H2 c b) as [?|Hin]; [|done|done|by apply elem_of_nil in Hin].
    apply cell_Some_bounds in Hb as (_ & rw & Hrw & Hc).
    rewrite (wfGrid_row _ _ _ _ Hwf Hrw) in Hc. done.
  - destruct (anchored_occupied _ _ _ Hp) as [bp Hbp].
    destruct (H3 p q bp b IH Hbp Hadj Hb Hg) as [?|Hin]; [done|].
    by apply elem_of_nil in Hin.
Qed.

Lemma sweepRow_lookup (visited : gset Cell) (r : Z) (rw : list (option Bubble)) :
  ∀ c0 i, (sweepRow visited r c0 rw).1 !! i =
          swept visited r (c0 + Z.of_nat i) <$> rw !! i.
Proof.
  induction rw as [|ob rw IH]; intros c0 i; simpl; [done|].
  specialize (IH (c0 + 1)). destruct (sweepRow visited r (c0 + 1) rw) as [rest n].
  simpl in IH. destruct i as [|i].
  - unfold swept. replace (c0 + Z.of_nat 0) with c0 by lia.
    simpl. by destruct (floating visited r c0 ob).
  - replace (c0 + Z.of_nat (S i)) with (c0 + 1 + Z.of_nat i) by lia.
    rewrite <- IH. by destruct (floating visited r c0 ob).
Qed.

Lemma sweep_lookup (visited : gset Cell) (g : Grid) :
  ∀ r0 i, (sweep visited r0 g).1 !! i =
          (λ rw, (sweepRow visited (r0 + Z.of_nat i) 0 rw).1) <$> g !! i.
Proof.
  induction g as [|rw g IH]; intros r0 i; simpl; [done|].
  specialize (IH (r0 + 1)).
  destruct (sweepRow visited r0 0 rw) as [rw' n] eqn:Erw.
  destruct (sweep visited (r0 + 1) g) as [rest m]. simpl in IH.
  destruct i as [|i]; simpl.
  - replace (r0 + Z.of_nat 0) with r0 by lia. by rewrite Erw.
  - replace (r0 + Z.of_nat (S i)) with (r0 + 1 + Z.of_nat i) by lia. apply IH.
Qed.

Lemma cell_sweep (visited : gset Cell) (g : Grid) (r c : Z) :
  cell (sweep visited 0 g).1 r c = swept visited r c (cell g r c).
Proof.
  unfold cell. destruct (r <? 0) eqn:Hr; [done|]. destruct (c <? 0) eqn:Hc; [done|].
  simpl. rewrite sweep_lookup. destruct (g !! Z.to_nat r) as [rw|]; [|done]. simpl.
  rewrite sweepRow_lookup. replace (0 + Z.of_nat (Z.to_nat r)) with r by lia.
  replace (0 + Z.of_nat (Z.to_nat c)) with c by lia.
  destruct (rw !! Z.to_nat c) as [ob|]; [|done]. done.
Qed.

Lemma bubbleCount_cons (rw : list (option Bubble)) (g : Grid) :
  bubbleCount (rw :: g) = rowBubbles rw + bubbleCount g.
Proof.
  unfold bubbleCount, rowBubbles. simpl. rewrite filter_app, length_app. lia.
Qed.

Lemma sweepRow_count (visited : gset Cell) (r : Z) (rw : list (option Bubble)) :
  ∀ c0, (sweepRow visited r c0 rw).2 =
        rowBubbles rw - rowBubbles (sweepRow visited r c0 rw).1.
Proof.
  unfold rowBubbles.
  induction rw as [|ob rw IH]; intros c0; simpl; [done|].
  specialize (IH (c0 + 1)). destruct (sweepRow visited r (c0 + 1) rw) as [rest n].
  simpl in IH. destruct (floating visited r c0 ob) eqn:Ef; simpl.
  - destruct ob as [b|]; [|done]. rewrite !filter_cons.
    rewrite decide_True by done. rewrite decide_False by (by intros [? ?]).
    simpl. lia.
  - rewrite !filter_cons. case_decide; simpl; lia.
Qed.

Lemma sweep_count (visited : gset Cell) (g : Grid) :
  ∀ r0, (sweep visited r0 g).2 = bubbleCount g - bubbleCount (sweep visited r0 g).1.
Proof.
  induction g as [|rw g IH]; intros r0; simpl; [done|].
  specialize (IH (r0 + 1)). pose proof (sweepRow_count visited r0 rw 0) as Hrw.
  destruct (sweepRow visited r0 0 rw) as [rw' n].
  destruct (sweep visited (r0 + 1) g) as [rest m]. simpl in *.
  rewrite !bubbleCount_cons. lia.
Qed.

(** C5.  On a grid whose rows have [cols] slots, [removeDisconnected]
    returns; it empties exactly the slots holding a non-gray bubble that is
    not connected to an occupied cell of row 0 through non-gray occupied
    neighbours; every gray bubble and every connected bubble stays as it
    is; and the count returned is the number of bubbles that left the
    grid. *)
Theorem removeDisconnected_drops_unanchored (g : Grid) (w : Z) :
  wfGrid w g →
  ∃ g' n,
    removeDisconnected g w = Some (g', n) ∧
    (∀ r c b, cell g r c = Some b → color b ≠ gray → ¬ anchored g w (r, c) →
              cell g' r c = None) ∧
    (∀ r c b, cell g r c = Some b → anchored g w (r, c) → cell g' r c = Some b) ∧
    (∀ r c b, cell g r c = Some b → color b = gray → cell g' r c = Some b) ∧
    (∀ r c, cell g r c = None → cell g' r c = None) ∧
    n = bubbleCount g - bubbleCount g'.
Proof.
  intros Hwf. destruct (removeDisconnected_total g w) as (visited & Hrun & ->).
  pose proof (anchor_loop_inv _ _ _ _ _ _ (anchorInv_seeds g w) Hrun) as Hinv.
  pose proof (λ p, anchorInv_final g w visited p Hwf Hinv) as Hvis.
  destruct (sweep visited 0 g) as [g' n] eqn:Es.
  exists g', n. split; [done|].
  assert (∀ r c, cell g' r c = swept visited r c (cell g r c)) as Hcell.
  { intros r c. pose proof (cell_sweep visited g r c) as H. by rewrite Es in H. }
  repeat split.
  - intros r c b Hb Hg Hna. rewrite Hcell, Hb. unfold swept, floating, isGray.
    rewrite bool_decide_eq_false_2 by done.
    rewrite bool_decide_eq_true_2; [done|]. by rewrite Hvis.
  - intros r c b Hb Ha. rewrite Hcell, Hb. unfold swept, floating.
    rewrite (bool_decide_eq_false_2 ((r, c) ∉ visited)); [|rewrite Hvis; tauto].
    by rewrite andb_false_r.
  - intros r c b Hb Hg. rewrite Hcell, Hb. unfold swept, floating, isGray.
    by rewrite bool_decide_eq_true_2.
  - intros r c Hb. by rewrite Hcell, Hb.
  - pose proof (sweep_count visited g 0) as H. by rewrite Es in H.
Qed.

(** ** The bomb search *)

Lemma bomb_loop_mono (g : Grid) (w : Z) (fuel : nat) :
  ∀ queue seen around result k,
    bomb_loop fuel g w queue seen around = Some result →
    bomb_loop (fuel + k) g w queue seen around = Some result.
Proof.
  induction fuel as [|fuel IH]; intros [|[cur d] queue] seen around result k H;
    simpl in *; try done.
  - by destruct k.
  - destruct (d >? 2); [by apply IH|]. case_decide; by apply IH.
Qed.

Lemma bomb_loop_skip (g : Grid) (w : Z) (l : list (Cell * Z)) :
  ∀ fuel queue seen around,
    Forall (λ e, 2 < e.2) l →
    bomb_loop (length l + fuel) g w (l ++ queue) seen around =
    bomb_loop fuel g w queue seen around.
Proof.
  induction l as [|[cur d] l IH]; intros fuel queue seen around Hl; [done|].
  apply Forall_cons in Hl as [Hd Hl]. simpl in *.
  replace (d >? 2) with true by lia. by apply IH.
Qed.

Lemma neighbors_depth (g : Grid) (w : Z) (cur : Cell) (d : Z) :
  (λ n : Cell * option Bubble, (n.1, d)) <$> neighbors g w cur.1 cur.2 =
  (λ c, (c, d)) <$> neighborCells (Z.of_nat (length g)) w cur.1 cur.2.
Proof. unfold neighbors. by rewrite <- list_fmap_compose. Qed.

Lemma bomb_loop_layer (g : Grid) (w : Z) (d : Z) (l : list Cell) :
  d <= 2 →
  ∀ fuel queue seen around,
    bomb_loop (length l + fuel) g w (((λ c, (c, d)) <$> l) ++ queue) seen around =
    bomb_loop fuel g w
      (queue ++ ((λ c, (c, d + 1)) <$> (bombLayer g w l seen around).1.1))
      (bombLayer g w l seen around).1.2 (bombLayer g w l seen around).2.
Proof.
  intros Hd. induction l as [|c l IH]; intros fuel queue seen around; simpl.
  - by rewrite app_nil_r.
  - replace (d >? 2) with false by lia. case_decide; [apply IH|].
    rewrite neighbors_depth, <- app_assoc, IH.
    destruct (bombLayer g w l (seen ∪ {[c]}) (around ++ [c])) as [[next seen'] around'].
    simpl. by rewrite fmap_app, app_assoc.
Qed.

Lemma bombLayer_spec (g : Grid) (w : Z) (l : list Cell) :
  ∀ seen around,
    (∀ p, p ∈ seen ↔ p ∈ around) →
    (∀ p, p ∈ (bombLayer g w l seen around).1.2 ↔ p ∈ (bombLayer g w l seen around).2) ∧
    (∀ p, p ∈ (bombLayer g w l seen around).2 ↔ p ∈ around ∨ p ∈ l) ∧
    (∀ q, q ∈ (bombLayer g w l seen around).1.1 ↔
          ∃ c, c ∈ l ∧ (c ∉ seen) ∧ adjacent g w c q) ∧
    (length (bombLayer g w l seen around).1.1 <= 6 * length l)%nat.
Proof.
  induction l as [|c l IH]; intros seen around Hsa; simpl.
  - split; [done|]. split; [intros p; rewrite elem_of_nil; tauto|].
    split; [|done]. intros q. rewrite elem_of_nil. split; [done|].
    intros (c & Hc & _). by apply elem_of_nil in Hc.
  - case_decide as Hc.
    + destruct (IH seen around Hsa) as (H1 & H2 & H3 & H4).
      split; [done|]. split; [|split; [|lia]].
      * intros p. rewrite H2, elem_of_cons. split; [tauto|].
        intros [?|[->|?]]; [tauto| |tauto]. left. by apply Hsa.
      * intros q. rewrite H3. split.
        -- intros (c' & Hin & Hns & Hadj). exists c'. rewrite elem_of_cons. tauto.
        -- intros (c' & Hin & Hns & Hadj). exists c'.
           apply elem_of_cons in Hin as [->|Hin]; [done|tauto].
    + destruct (IH (seen ∪ {[c]}) (around ++ [c])) as (H1 & H2 & H3 & H4).
      { intros p. rewrite elem_of_union, elem_of_app, Hsa, elem_of_singleton.
        rewrite elem_of_cons, elem_of_nil. tauto. }
      destruct (bombLayer g w l (seen ∪ {[c]}) (around ++ [c]))
        as [[next seen'] around']. simpl in *.
      split; [done|]. split; [|split].
      * intros p. rewrite H2, elem_of_app, !elem_of_cons, elem_of_nil. tauto.
      * intros q. rewrite elem_of_app, H3. split.
        -- intros [Hq|(c' & Hin & Hns & Hadj)].
           ++ exists c. rewrite elem_of_cons. auto.
           ++ exists c'. rewrite elem_of_cons. split; [tauto|]. split; [|done].
              intros Hs. apply Hns. apply elem_of_union. tauto.
        -- intros (c' & Hin & Hns & Hadj).
           destruct (decide (c' = c)) as [->|Hne]; [by left|right].
           exists c'. apply elem_of_cons in Hin as [->|Hin]; [done|].
           split; [done|]. split; [|done].
           rewrite elem_of_union, elem_of_singleton. tauto.
      * rewrite length_app.
        pose proof (length_neighborCells (Z.of_nat (length g)) w c.1 c.2). lia.
Qed.

(** The bomb search returns, and what it returns is the set of cells at
    distance at most 2 from the origin. *)
Lemma bombAround_within2 (g : Grid) (w : Z) (o : Cell) :
  ∃ around, bombAround g w o = Some around ∧ ∀ p, p ∈ around ↔ within2 g w o p.
Proof.
  destruct (bombLayer g w [o] ∅ []) as [[n1 s1] a1] eqn:E1.
  destruct (bombLayer g w n1 s1 a1) as [[n2 s2] a2] eqn:E2.
  destruct (bombLayer g w n2 s2 a2) as [[n3 s3] a3] eqn:E3.
  destruct (bombLayer_spec g w [o] ∅ []) as (A1 & B1 & C1 & D1).
  { intros p. rewrite elem_of_nil. set_solver. }
  rewrite E1 in A1, B1, C1, D1. cbn [fst snd] in *.
  destruct (bombLayer_spec g w n1 s1 a1 A1) as (A2 & B2 & C2 & D2).
  rewrite E2 in A2, B2, C2, D2. cbn [fst snd] in *.
  destruct (bombLayer_spec g w n2 s2 a2 A2) as (A3 & B3 & C3 & D3).
  rewrite E3 in A3, B3, C3, D3. cbn [fst snd] in *.
  exists a3. split.
  - unfold bombAround, bombFuel.
    replace 259%nat
      with ((length [o] + (length n1 + (length n2 + (length n3 + 0)))) +
            (259 - (1 + length n1 + length n2 + length n3)))%nat
      by (cbn [length] in *; lia).
    apply bomb_loop_mono.
    pose proof (bomb_loop_layer g w 0 [o] ltac:(lia)
                  (length n1 + (length n2 + (length n3 + 0))) [] ∅ []) as L0.
    rewrite E1 in L0. cbn [fst snd] in L0.
    cbn [app fmap list_fmap] in L0. etrans; [exact L0|]. clear L0.
    pose proof (bomb_loop_layer g w 1 n1 ltac:(lia)
                  (length n2 + (length n3 + 0)) [] s1 a1) as L1.
    rewrite E2 in L1. cbn [fst snd] in L1.
    rewrite app_nil_r in L1. cbn [app] in L1.
    change (0 + 1) with 1. etrans; [exact L1|]. clear L1.
    pose proof (bomb_loop_layer g w 2 n2 ltac:(lia) (length n3 + 0) [] s2 a2) as L2.
    rewrite E3 in L2. cbn [fst snd] in L2.
    rewrite app_nil_r in L2. cbn [app] in L2.
    change (1 + 1) with 2. etrans; [exact L2|]. clear L2.
    rewrite <- (app_nil_r ((λ c, (c, 2 + 1)) <$> n3)).
    rewrite <- (length_fmap (λ c, (c, 2 + 1)) n3).
    rewrite bomb_loop_skip; [by destruct (0 + 0)%nat|].
    apply Forall_fmap, Forall_forall. intros c _. simpl. lia.
  - intros p. rewrite B3, B2, B1, C2, elem_of_nil. unfold within2.
    assert (∀ q, q ∈ n1 ↔ adjacent g w o q) as Hn1.
    { intros q. rewrite C1. split.
      - intros (c & Hc & _ & Hadj). apply elem_of_cons in Hc as [->|Hc]; [done|].
        by apply elem_of_nil in Hc.
      - intros Hadj. exists o. rewrite elem_of_cons. set_solver. }
    assert (∀ q, q ∈ s1 ↔ q = o) as Hs1.
    { intros q. rewrite A1, B1, elem_of_cons, !elem_of_nil. tauto. }
    rewrite elem_of_cons, elem_of_nil, Hn1. split.
    + intros [[[[]|[->|[]]]|Hadj]|(c & Hc & Hns & Hadj)]; [by left|by right; left|].
      right; right. exists c. by rewrite <- Hn1.
    + intros [->|[Hadj|(m & Hom & Hmp)]]; [tauto|tauto|].
      destruct (decide (m = o)) as [->|Hne]; [tauto|].
      right. exists m. rewrite Hn1, Hs1. tauto.
Qed.

(** ** Clearing cells *)

Lemma cell_setCell_occupied (g : Grid) (r c : Z) (b : Bubble) (v : option Bubble) :
  cell g r c = Some b → cell (setCell g r c v) r c = v.
Proof.
  intros H. apply cell_Some_bounds in H as (Hr & rw & Hrw & Hc).
  eapply cell_setCell_eq; [lia|done..].
Qed.

Lemma cell_pair_ne (p k : Cell) : p ≠ k → (k.1, k.2) ≠ (p.1, p.2).
Proof. intros Hne E. apply Hne. destruct p, k. simpl in *. congruence. Qed.

Lemma cell_blastCell_same (g : Grid) (k : Cell) :
  cell (blastCell g k) k.1 k.2 =
    match cell g k.1 k.2 with
    | Some bb => if isGray bb then Some bb else None
    | None => None
    end.
Proof.
  unfold blastCell. destruct (cell g k.1 k.2) as [bb|] eqn:Hk; [|done].
  destruct (isGray bb); [done|]. by eapply cell_setCell_occupied.
Qed.

Lemma cell_blastCell_other (g : Grid) (k p : Cell) :
  p ≠ k → cell (blastCell g k) p.1 p.2 = cell g p.1 p.2.
Proof.
  intros Hne. unfold blastCell. destruct (cell g k.1 k.2) as [bb|]; [|done].
  destruct (isGray bb); [done|]. by apply cell_setCell_ne, cell_pair_ne.
Qed.

Lemma cell_blast_None (around : list Cell) :
  ∀ (g : Grid) (p : Cell),
    cell g p.1 p.2 = None → cell (blast g around) p.1 p.2 = None.
Proof.
  unfold blast. induction around as [|k around IH]; intros g p Hp; [done|].
  cbn [fold_left]. apply IH. destruct (decide (p = k)) as [->|Hne].
  - by rewrite cell_blastCell_same, Hp.
  - by rewrite cell_blastCell_other.
Qed.

Lemma cell_blast_gray (around : list Cell) :
  ∀ (g : Grid) (p : Cell) (bb : Bubble),
    cell g p.1 p.2 = Some bb → color bb = gray →
    cell (blast g around) p.1 p.2 = Some bb.
Proof.
  unfold blast. induction around as [|k around IH]; intros g p bb Hp Hg; [done|].
  cbn [fold_left]. apply IH; [|done]. destruct (decide (p = k)) as [->|Hne].
  - rewrite cell_blastCell_same, Hp. unfold isGray. by rewrite bool_decide_eq_true_2.
  - by rewrite cell_blastCell_other.
Qed.

Lemma cell_blast_hit (around : list Cell) :
  ∀ (g : Grid) (p : Cell) (bb : Bubble),
    p ∈ around → cell g p.1 p.2 = Some bb → color bb ≠ gray →
    cell (blast g around) p.1 p.2 = None.
Proof.
  unfold blast. induction around as [|k around IH]; intros g p bb Hin Hp Hg;
    [by apply elem_of_nil in Hin|].
  cbn [fold_left]. destruct (decide (p = k)) as [->|Hne].
  - apply (cell_blast_None around). rewrite cell_blastCell_same, Hp. unfold isGray.
    by rewrite bool_decide_eq_false_2.
  - apply elem_of_cons in Hin as [?|Hin]; [done|].
    eapply IH; [done| |done]. by rewrite cell_blastCell_other.
Qed.

Lemma cell_blast_miss (around : list Cell) :
  ∀ (g : Grid) (p : Cell),
    p ∉ around → cell (blast g around) p.1 p.2 = cell g p.1 p.2.
Proof.
  unfold blast. induction around as [|k around IH]; intros g p Hin; [done|].
  cbn [fold_left]. rewrite not_elem_of_cons in Hin. destruct Hin as [Hne Hin].
  rewrite IH by done. by apply cell_blastCell_other.
Qed.

Lemma cell_clearCells_None (group : list Cell) :
  ∀ (g : Grid) (p : Cell),
    cell g p.1 p.2 = None → cell (clearCells g group) p.1 p.2 = None.
Proof.
  unfold clearCells. induction group as [|k group IH]; intros g p Hp; [done|].
  cbn [fold_left]. apply IH.
  destruct (cell_setCell_cases g k.1 k.2 p.1 p.2 None) as [->| ->]; done.
Qed.

Lemma cell_clearCells_hit (group : list Cell) :
  ∀ (g : Grid) (p : Cell),
    p ∈ group → is_Some (cell g p.1 p.2) → cell (clearCells g group) p.1 p.2 = None.
Proof.
  unfold clearCells. induction group as [|k group IH]; intros g p Hin [bb Hp];
    [by apply elem_of_nil in Hin|].
  cbn [fold_left]. destruct (decide (p = k)) as [->|Hne].
  - apply (cell_clearCells_None group). by eapply cell_setCell_occupied.
  - apply elem_of_cons in Hin as [?|Hin]; [done|].
    apply IH; [done|]. rewrite cell_setCell_ne by by apply cell_pair_ne. by rewrite Hp.
Qed.

Lemma cell_clearCells_miss (group : list Cell) :
  ∀ (g : Grid) (p : Cell),
    p ∉ group → cell (clearCells g group) p.1 p.2 = cell g p.1 p.2.
Proof.
  unfold clearCells. induction group as [|k group IH]; intros g p Hin; [done|].
  cbn [fold_left]. rewrite not_elem_of_cons in Hin. destruct Hin as [Hne Hin].
  rewrite IH by done. by apply cell_setCell_ne, cell_pair_ne.
Qed.

(** ** The flood match *)

Lemma floodMatch_loop_res (g : Grid) (w : Z) (target : BubbleColor) (fuel : nat) :
  ∀ stack visited res result,
    NoDup res →
    (∀ p, p ∈ res →
          p ∈ visited ∧ ∃ b, cell g p.1 p.2 = Some b ∧ matchesTarget target b = true) →
    floodMatch_loop fuel g w target stack visited res = Some result →
    NoDup result ∧
    ∀ p, p ∈ result → ∃ b, cell g p.1 p.2 = Some b ∧ matchesTarget target b = true.
Proof.
  induction fuel as [|fuel IH]; intros [|cur stack] visited res result Hnd Hres Hrun;
    simpl in Hrun; try done.
  - injection Hrun as <-. split; [done|]. intros p Hp. by apply Hres.
  - injection Hrun as <-. split; [done|]. intros p Hp. by apply Hres.
  - assert (∀ p, p ∈ res →
              p ∈ visited ∪ {[cur]} ∧
              ∃ b, cell g p.1 p.2 = Some b ∧ matchesTarget target b = true) as Hres'.
    { intros p Hp. destruct (Hres p Hp) as [Hv Hb]. split; [|done].
      apply elem_of_union. by left. }
    case_decide as Hv; [exact (IH _ _ _ _ Hnd Hres Hrun)|].
    destruct (cell g cur.1 cur.2) as [b|] eqn:Hb; [|exact (IH _ _ _ _ Hnd Hres' Hrun)].
    destruct (matchesTarget target b) eqn:Hm; [|exact (IH _ _ _ _ Hnd Hres' Hrun)].
    eapply IH; [| |done].
    + apply NoDup_app. split; [done|]. split; [|apply NoDup_singleton].
      intros p Hp Hp'. apply list_elem_of_singleton in Hp' as ->.
      by destruct (Hres cur Hp).
    + intros p Hp. apply elem_of_app in Hp as [Hp|Hp]; [by apply Hres'|].
      apply list_elem_of_singleton in Hp as ->. split; [|by eauto].
      apply elem_of_union. right. by apply elem_of_singleton.
Qed.

Lemma floodMatch_result (g : Grid) (w r c : Z) (target : BubbleColor) :
  ∃ group,
    floodMatch g w r c target = Some group ∧ NoDup group ∧
    ∀ p, p ∈ group → ∃ b, cell g p.1 p.2 = Some b ∧ matchesTarget target b = true.
Proof.
  destruct (floodMatch_total g w r c target) as [group Hrun].
  exists group. split; [done|].
  eapply (floodMatch_loop_res g w target _ _ ∅ []); [apply NoDup_nil_2| |exact Hrun].
  intros p Hp. by apply elem_of_nil in Hp.
Qed.

(** ** Snap resolution *)

Lemma placeFirst_Some (g : Grid) (off : Q) (w : Z) (b : Bubble) (cands : list Cell)
    (g1 : Grid) (b1 : Bubble) :
  placeFirst g off w b cands = Some (g1, b1) →
  ∃ q, (∃ p, p ∈ cands ∧ q = clampCell g w p) ∧
       cell g q.1 q.2 = None ∧
       b1 = mkBubble (id b) q.1 q.2 (gridToXY off q.1 q.2).1 (gridToXY off q.1 q.2).2
                     (color b) (kind b) true ∧
       g1 = setCell g q.1 q.2 (Some b1).
Proof.
  induction cands as [|p cands IH]; simpl; [done|].
  destruct (cell g (clampCell g w p).1 (clampCell g w p).2) as [b0|] eqn:E.
  - rewrite placeBubbleAt_taken by (by rewrite E). intros H.
    destruct (IH H) as (q & (p' & Hp' & ->) & Hq). exists (clampCell g w p').
    split; [|done]. exists p'. split; [|done]. apply elem_of_cons. by right.
  - rewrite (placeBubbleAt_free _ _ _ _ _ E). cbv zeta. intros [= <- <-].
    exists (clampCell g w p). split; [|done]. exists p. split; [|done].
    apply elem_of_cons. by left.
Qed.

(** The bubble that was placed sits in its own cell of the new grid. *)
Lemma placeFirst_placed (g : Grid) (off : Q) (w : Z) (b : Bubble) (cands : list Cell)
    (g1 : Grid) (b1 : Bubble) :
  wfGrid w g → (0 < length g)%nat →
  placeFirst g off w b cands = Some (g1, b1) →
  cell g1 (row b1) (col b1) = Some b1 ∧
  kind b1 = kind b ∧ color b1 = color b ∧
  wfGrid w g1 ∧ length g1 = length g ∧
  (∀ r c, (r, c) ≠ (row b1, col b1) → cell g1 r c = cell g r c).
Proof.
  intros Hwf Hlen H.
  apply placeFirst_Some in H as (q & (p & _ & ->) & Hfree & -> & ->).
  cbn [row col kind color].
  pose proof (clampCell_inBounds g w p Hlen) as Hin.
  destruct (inBounds_row w g _ Hwf Hin) as (rw & Hrw & Hc).
  destruct Hin as [? _]. split; [eapply cell_setCell_eq; [lia|done..]|].
  split; [done|]. split; [done|]. split; [by apply wfGrid_setCell|].
  split; [apply length_setCell|]. intros r c Hne. by apply cell_setCell_ne.
Qed.

Lemma sweepRow_nonneg (visited : gset Cell) (r : Z) (rw : list (option Bubble)) :
  ∀ c0, 0 <= (sweepRow visited r c0 rw).2.
Proof.
  induction rw as [|ob rw IH]; intros c0; simpl; [done|].
  specialize (IH (c0 + 1)). destruct (sweepRow visited r (c0 + 1) rw) as [rest n].
  destruct (floating visited r c0 ob); simpl in *; lia.
Qed.

Lemma sweep_nonneg (visited : gset Cell) (g : Grid) :
  ∀ r0, 0 <= (sweep visited r0 g).2.
Proof.
  induction g as [|rw g IH]; intros r0; simpl; [done|].
  specialize (IH (r0 + 1)). pose proof (sweepRow_nonneg visited r0 rw 0).
  destruct (sweepRow visited r0 0 rw) as [rw' n].
  destruct (sweep visited (r0 + 1) g) as [rest m]. simpl in *. lia.
Qed.

Lemma removeDisconnected_cells (g : Grid) (w : Z) :
  ∃ g' n, removeDisconnected g w = Some (g', n) ∧
    (∀ r c, cell g r c = None → cell g' r c = None) ∧
    (∀ r c b, cell g r c = Some b → color b = gray → cell g' r c = Some b) ∧
    (∀ r c, cell g' r c = None ∨ cell g' r c = cell g r c) ∧
    n = bubbleCount g - bubbleCount g' ∧ 0 <= n.
Proof.
  destruct (removeDisconnected_total g w) as (visited & _ & ->).
  pose proof (cell_sweep visited g) as Hcell.
  pose proof (sweep_count visited g 0) as Hn.
  pose proof (sweep_nonneg visited g 0) as Hpos.
  destruct (sweep visited 0 g) as [g' n]. simpl in *.
  exists g', n. split; [done|]. repeat split; [| | |done|done].
  - intros r c H. by rewrite Hcell, H.
  - intros r c b H Hg. rewrite Hcell, H. unfold swept, floating, isGray.
    by rewrite bool_decide_eq_true_2.
  - intros r c. rewrite Hcell. unfold swept.
    destruct (floating visited r c (cell g r c)); auto.
Qed.

(** C2, as the code has it.  A placed bomb clears every non-gray bubble
    within distance 2 of its cell (its own cell included when the bomb is
    not gray), leaves gray bubbles and the cells beyond distance 2 as they
    are, and then runs the disconnection removal; the grid afterwards is
    the result of that removal, but the count it returns is discarded:
    score, combo chain and emitted events are exactly what they were
    before the snap.  The match branch scores the count of the same
    removal at 5 per bubble and signals a combo; the bomb branch does
    neither, so bubbles dropped by a bomb earn nothing. *)
Theorem bomb_clears_radius_without_score (w now : Z) (b : Bubble) (st : State)
    (g1 : Grid) (b1 : Bubble) :
  wfGrid w (grid st) → (0 < length (grid st))%nat →
  placeFirst (grid st) (descentOffset st) w b
    (snapCandidates (xyToGridGuess (descentOffset st) (x b) (y b))) = Some (g1, b1) →
  kind b = bomb →
  ∃ around g2 n st',
    bombAround g1 w (row b1, col b1) = Some around ∧
    (∀ p, p ∈ around ↔ within2 g1 w (row b1, col b1) p) ∧
    removeDisconnected (blast g1 around) w = Some (g2, n) ∧
    trySnapAndResolve w now b st = Some st' ∧
    grid st' = g2 ∧
    (∀ p, ¬ within2 g1 w (row b1, col b1) p →
          cell (blast g1 around) p.1 p.2 = cell g1 p.1 p.2) ∧
    (∀ p bb, within2 g1 w (row b1, col b1) p → cell g1 p.1 p.2 = Some bb →
             color bb ≠ gray → cell g2 p.1 p.2 = None) ∧
    (color b ≠ gray → cell g2 (row b1) (col b1) = None) ∧
    (∀ p bb, cell g1 p.1 p.2 = Some bb → color bb = gray →
             cell g2 p.1 p.2 = Some bb) ∧
    score st' = score st ∧ comboChain st' = comboChain st ∧ events st' = events st.
Proof.
  intros Hwf Hlen Hplace Hkind.
  destruct (placeFirst_placed _ _ _ _ _ _ _ Hwf Hlen Hplace)
    as (Hcell & Hk1 & Hc1 & _).
  destruct (bombAround_within2 g1 w (row b1, col b1)) as (around & Hrun & Haround).
  destruct (removeDisconnected_cells (blast g1 around) w)
    as (g2 & n & Hrem & Hnone & Hgray & _).
  exists around, g2, n, (withGrid g2 st).
  split; [done|]. split; [done|]. split; [done|]. split.
  { unfold trySnapAndResolve. rewrite Hplace, Hk1, Hkind. simpl.
    rewrite Hrun. simpl. by rewrite Hrem. }
  split; [done|].
  split; [intros p Hp; apply cell_blast_miss; by rewrite Haround|].
  assert (∀ p bb, within2 g1 w (row b1, col b1) p → cell g1 p.1 p.2 = Some bb →
                  color bb ≠ gray → cell g2 p.1 p.2 = None) as Hblast.
  { intros p bb Hp Hbb Hg. apply Hnone. eapply cell_blast_hit; [|done..].
    by apply Haround. }
  split; [done|]. split.
  { intros Hg. apply (Hblast (row b1, col b1) b1); [by left|done|congruence]. }
  split; [|done]. intros p bb Hbb Hg. apply Hgray; [|done].
  by apply cell_blast_gray.
Qed.

(** C7.  For a placed normal or rainbow bubble the flood match returns a
    duplicate-free list of occupied cells; when it has fewer than 3 cells
    the grid is left exactly as the placement made it and the score is
    unchanged; when it has at least 3 cells, every cell of the match, and
    no other, is cleared before the disconnection removal runs, and the
    score grows by 10 per cell (plus 5 per bubble dropped by that
    removal). *)
Theorem match_removes_only_three_or_more (w now : Z) (b : Bubble) (st : State)
    (g1 : Grid) (b1 : Bubble) :
  (0 < length (grid st))%nat →
  placeFirst (grid st) (descentOffset st) w b
    (snapCandidates (xyToGridGuess (descentOffset st) (x b) (y b))) = Some (g1, b1) →
  kind b = normal ∨ kind b = rainbow →
  ∃ group st',
    floodMatch g1 w (row b1) (col b1) (color b1) = Some group ∧ NoDup group ∧
    trySnapAndResolve w now b st = Some st' ∧
    ((length group < 3)%nat → grid st' = g1 ∧ score st' = score st) ∧
    ((3 <= length group)%nat →
       ∃ g2 n, removeDisconnected (clearCells g1 group) w = Some (g2, n) ∧
               grid st' = g2 ∧
               (∀ p, p ∉ group →
                     cell (clearCells g1 group) p.1 p.2 = cell g1 p.1 p.2) ∧
               (∀ p, p ∈ group → cell g2 p.1 p.2 = None) ∧
               score st' = score st + 10 * Z.of_nat (length group) + 5 * n).
Proof.
  intros _ Hplace Hkind.
  assert (kind b1 = kind b) as Hk1.
  { apply placeFirst_Some in Hplace as (q & _ & _ & -> & _). done. }
  destruct (floodMatch_result g1 w (row b1) (col b1) (color b1))
    as (group & Hrun & Hnd & Hocc).
  destruct (removeDisconnected_cells (clearCells g1 group) w)
    as (g2 & n & Hrem & Hnone & _ & _ & _ & Hn).
  assert (∃ st', trySnapAndResolve w now b st = Some st' ∧
            st' = if 3 <=? Z.of_nat (length group)
                  then (if n >? 0
                        then emit comboAchieved
                               (withScore (score st + 10 * Z.of_nat (length group) + 5 * n)
                                  (withGrid g2 (withComboChain (comboChain st + 1) st)))
                        else withGrid g2
                               (withComboChain (comboChain st + 1)
                                  (withScore (score st + 10 * Z.of_nat (length group)) st)))
                  else withComboChain 0 (withGrid g1 st)) as (st' & Hst & Est).
  { unfold trySnapAndResolve. rewrite Hplace.
    assert (match kind b1 with
            | bomb | freeze | aim => False
            | _ => True
            end) as Hnorm by (rewrite Hk1; by destruct Hkind as [-> | ->]).
    destruct (kind b1); try done; simpl; rewrite Hrun; simpl;
      destruct (3 <=? Z.of_nat (length group)); simpl; eauto;
      rewrite Hrem; simpl; destruct (n >? 0); eauto. }
  exists group, st'. split; [done|]. split; [done|]. split; [done|]. split.
  - intros Hlt. rewrite Est. replace (3 <=? Z.of_nat (length group)) with false by lia.
    done.
  - intros Hge. exists g2, n. split; [done|]. rewrite Est.
    replace (3 <=? Z.of_nat (length group)) with true by lia.
    split; [by destruct (n >? 0)|]. split; [apply cell_clearCells_miss|]. split.
    + intros p Hp. apply Hnone. apply cell_clearCells_hit; [done|].
      destruct (Hocc p Hp) as (bb & -> & _). done.
    + destruct (n >? 0) eqn:En; simpl; [done|].
      lia.
Qed.

(** C3, as the code has it.  A snap that places nothing changes nothing.
    After a placement: a normal or rainbow bubble adds one to the combo
    chain when its match has at least 3 cells (whether or not anything is
    dropped afterwards) and sets the chain to zero when the match is
    smaller; a bomb, freeze or aim bubble leaves the chain as it was. *)
Theorem combo_chain_follows_matches (w now : Z) (b : Bubble) (st : State) :
  (0 < length (grid st))%nat →
  let placed :=
    placeFirst (grid st) (descentOffset st) w b
      (snapCandidates (xyToGridGuess (descentOffset st) (x b) (y b))) in
  (placed = None → trySnapAndResolve w now b st = Some st) ∧
  (∀ g1 b1, placed = Some (g1, b1) →
     ∃ st', trySnapAndResolve w now b st = Some st' ∧
       match kind b with
       | bomb | freeze | aim => comboChain st' = comboChain st
       | normal | rainbow =>
         ∃ group, floodMatch g1 w (row b1) (col b1) (color b1) = Some group ∧
                  comboChain st' =
                    if 3 <=? Z.of_nat (length group) then comboChain st + 1 else 0
       end).
Proof.
  intros _ placed. split.
  - intros Hnone. unfold trySnapAndResolve. fold placed. by rewrite Hnone.
  - intros g1 b1 Hplace.
    assert (kind b1 = kind b) as Hk1.
    { apply placeFirst_Some in Hplace as (q & _ & _ & -> & _). done. }
    destruct (floodMatch_result g1 w (row b1) (col b1) (color b1))
      as (group & Hrun & _ & _).
    destruct (removeDisconnected_cells (clearCells g1 group) w)
      as (g2 & n & Hrem & _).
    destruct (bombAround_within2 g1 w (row b1, col b1)) as (around & Hbomb & _).
    destruct (removeDisconnected_cells (blast g1 around) w) as (g3 & m & Hrem' & _).
    unfold trySnapAndResolve. fold placed. rewrite Hplace, Hk1.
    destruct (kind b); simpl.
    + rewrite Hrun. simpl. destruct (3 <=? Z.of_nat (length group)) eqn:E; simpl.
      * rewrite Hrem. simpl. destruct (n >? 0); eexists; (split; [done|]);
          exists group; by rewrite E.
      * eexists. split; [done|]. exists group. by rewrite E.
    + rewrite Hrun. simpl. destruct (3 <=? Z.of_nat (length group)) eqn:E; simpl.
      * rewrite Hrem. simpl. destruct (n >? 0); eexists; (split; [done|]);
          exists group; by rewrite E.
      * eexists. split; [done|]. exists group. by rewrite E.
    + rewrite Hbomb. simpl. rewrite Hrem'. simpl. by eexists.
    + by eexists.
    + by eexists.
Qed.

(** ** The properties on concrete rounds *)

Lemma wfGrid_gridOf (bs : list (Cell * BubbleColor)) : wfGrid exWidth (gridOf bs).
Proof.
  unfold gridOf. generalize (wfGrid_emptyGrid exWidth).
  generalize (emptyGrid exWidth). induction bs as [|e bs IH]; intros g Hwf; [done|].
  simpl. by apply IH, wfGrid_setCell.
Qed.

Lemma length_gridOf (bs : list (Cell * BubbleColor)) : length (gridOf bs) = 18%nat.
Proof.
  unfold gridOf. assert (length (emptyGrid exWidth) = 18%nat) as <- by done.
  generalize (emptyGrid exWidth). induction bs as [|e bs IH]; intros g; [done|].
  simpl. by rewrite IH, length_setCell.
Qed.

Lemma cachedAt_seededBubble (off : Q) (i : nat) (r c : Z) (cl : BubbleColor) :
  cachedAt off (seededBubble off i r c cl).
Proof. split; reflexivity. Qed.

(** Every seeded grid satisfies the invariant on cached positions. *)
Lemma cacheInvariant_gridOf (bs : list (Cell * BubbleColor)) (combo : Z) :
  cacheInvariant (roundOf (gridOf bs) combo).
Proof.
  unfold cacheInvariant, roundOf, gridOf. cbn [grid descentOffset].
  assert (∀ r c b, cell (emptyGrid exWidth) r c = Some b → cachedAt 0 b) as Hempty.
  { intros r c b. by rewrite cell_emptyGrid. }
  revert Hempty. generalize (emptyGrid exWidth).
  induction bs as [|e bs IH]; intros g Hg; [done|].
  simpl. apply IH. intros r c b.
  destruct (cell_setCell_cases g e.1.1 e.1.2 r c
              (Some (seededBubble 0 0 e.1.1 e.1.2 e.2))) as [-> | ->].
  - intros [= <-]. apply cachedAt_seededBubble.
  - apply Hg.
Qed.

Lemma cached_position_goes_stale_witness :
  cell (grid (loopDescent exLevel exWidth exTick (roundOf exSingle 0))) 0 3
    = Some (seededBubble 0 0 0 3 red) ∧
  ¬ cachedAt (descentOffset (loopDescent exLevel exWidth exTick (roundOf exSingle 0)))
             (seededBubble 0 0 0 3 red) ∧
  ¬ cacheInvariant (loopDescent exLevel exWidth exTick (roundOf exSingle 0)).
Proof.
  apply (cached_position_goes_stale exLevel exWidth exTick
           (roundOf exSingle 0) 0 3 (seededBubble 0 0 0 3 red)).
  - apply cacheInvariant_gridOf.
  - reflexivity.
  - reflexivity.
  - vm_compute. discriminate.
Defined.

(** The drop count of the disconnection removal that follows the blast is
    1 here, and neither the score nor the event log reflects it. *)
Lemma bomb_drops_are_not_scored :
  (placeFirst exChain 0 exWidth (shotAt 2 4 blue bomb)
     (snapCandidates (xyToGridGuess 0 (x (shotAt 2 4 blue bomb))
                                      (y (shotAt 2 4 blue bomb))))
   ≫= λ placed,
     bombAround placed.1 exWidth (row placed.2, col placed.2)
     ≫= λ around, snd <$> removeDisconnected (blast placed.1 around) exWidth)
  = Some 1 ∧
  score <$> trySnapAndResolve exWidth 0 (shotAt 2 4 blue bomb) (roundOf exChain 2)
    = Some (score (roundOf exChain 2)) ∧
  events <$> trySnapAndResolve exWidth 0 (shotAt 2 4 blue bomb) (roundOf exChain 2)
    = Some (events (roundOf exChain 2)).
Proof. vm_compute. done. Qed.

Lemma bomb_clears_radius_without_score_witness :
  ∃ st', trySnapAndResolve exWidth 0 (shotAt 2 4 blue bomb) (roundOf exChain 2)
           = Some st' ∧
         cell (grid st') 2 3 = None ∧ cell (grid st') 2 4 = None ∧
         score st' = score (roundOf exChain 2).
Proof.
  destruct (bomb_clears_radius_without_score exWidth 0 (shotAt 2 4 blue bomb)
              (roundOf exChain 2)
              (setCell exChain 2 4 (Some (landedAt 2 4 blue bomb)))
              (landedAt 2 4 blue bomb))
    as (around & g2 & n & st' & _ & _ & _ & Hst & Hg & _ & Hin & Hself & _ & Hs & _).
  - apply wfGrid_gridOf.
  - unfold roundOf, exChain. cbn [grid]. rewrite length_gridOf. lia.
  - vm_compute. reflexivity.
  - reflexivity.
  - exists st'. split; [done|]. rewrite Hg. split; [|split; [|done]].
    + apply (Hin (2, 3) (seededBubble 0 0 2 3 red)).
      * right. left. vm_compute. apply list_elem_of_In. simpl. tauto.
      * vm_compute. reflexivity.
      * discriminate.
    + apply Hself. discriminate.
Defined.

(** A match of three with nothing dropped (score 30, no combo event)
    still adds one to the chain; a freeze bubble, which runs no match,
    leaves a chain of 2 at 2. *)
Lemma combo_chain_ignores_drops :
  (score <$> trySnapAndResolve exWidth 0 (shotAt 1 3 red normal) (roundOf exPair 0)
     = Some 30 ∧
   events <$> trySnapAndResolve exWidth 0 (shotAt 1 3 red normal) (roundOf exPair 0)
     = Some [] ∧
   comboChain <$> trySnapAndResolve exWidth 0 (shotAt 1 3 red normal) (roundOf exPair 0)
     = Some 1) ∧
  comboChain <$> trySnapAndResolve exWidth 0 (shotAt 1 3 red freeze) (roundOf exPair 2)
    = Some 2.
Proof. vm_compute. done. Qed.

Lemma combo_chain_follows_matches_witness :
  ∃ st', trySnapAndResolve exWidth 0 (shotAt 1 3 red normal) (roundOf exSingle 4)
           = Some st' ∧
         comboChain st' = 0.
Proof.
  destruct (combo_chain_follows_matches exWidth 0 (shotAt 1 3 red normal)
              (roundOf exSingle 4)) as [_ H].
  { unfold roundOf, exSingle. cbn [grid]. rewrite length_gridOf. lia. }
  destruct (H (setCell exSingle 1 3 (Some (landedAt 1 3 red normal)))
              (landedAt 1 3 red normal)) as (st' & Hst & group & Hgroup & Hc).
  - vm_compute. reflexivity.
  - exists st'. split; [done|]. rewrite Hc.
    vm_compute in Hgroup. injection Hgroup as <-. reflexivity.
Defined.

Lemma removeDisconnected_drops_unanchored_witness :
  ∃ g' n, removeDisconnected exFloating exWidth = Some (g', n) ∧
          cell g' 3 3 = None ∧ n = 1.
Proof.
  destruct (removeDisconnected_drops_unanchored exFloating exWidth)
    as (g' & n & Hrun & _ & _ & _ & _ & Hn).
  - apply wfGrid_gridOf.
  - exists g', n. split; [done|].
    vm_compute in Hrun. injection Hrun as <- <-. split; reflexivity.
Defined.

(** With a rate of 2000 px/s one frame of 33 ms adds 66 px: one row is
    inserted, one spacing subtracted, and the offset ends above the
    spacing.  With a rate that makes one frame add exactly one spacing the
    offset ends equal to the spacing and no row is inserted. *)
Lemma descent_offset_escapes :
  ((0 <= descentOffset (roundOf exSingle 0))%Q ∧
   (descentOffset (roundOf exSingle 0) < ROW_V_SPACING)%Q) ∧
  ¬ (descentOffset (loopDescent exFastLevel exWidth exTick (roundOf exSingle 0))
       < ROW_V_SPACING)%Q ∧
  ¬ (descentOffset (loopDescent exEdgeLevel exWidth exTick (roundOf exSingle 0))
       < ROW_V_SPACING)%Q ∧
  grid (loopDescent exEdgeLevel exWidth exTick (roundOf exSingle 0))
    = grid (roundOf exSingle 0).
Proof.
  vm_compute. repeat split; try done; intros H; discriminate H.
Qed.

Lemma descent_offset_bounded_witness :
  (0 <= descentOffset (runDescent exLevel exWidth [exTick; exTick] (roundOf exSingle 0))
     <= ROW_V_SPACING)%Q.
Proof.
  apply (descent_offset_bounded exLevel exWidth).
  - vm_compute. discriminate.
  - vm_compute. discriminate.
  - repeat constructor; vm_compute; discriminate.
  - split; vm_compute; discriminate.
Defined.

Lemma match_removes_only_three_or_more_witness :
  ∃ st', trySnapAndResolve exWidth 0 (shotAt 1 3 red normal) (roundOf exSingle 4)
           = Some st' ∧
         grid st' = setCell exSingle 1 3 (Some (landedAt 1 3 red normal)) ∧
         score st' = score (roundOf exSingle 4).
Proof.
  destruct (match_removes_only_three_or_more exWidth 0 (shotAt 1 3 red normal)
              (roundOf exSingle 4)
              (setCell exSingle 1 3 (Some (landedAt 1 3 red normal)))
              (landedAt 1 3 red normal))
    as (group & st' & Hgroup & _ & Hst & Hsmall & _).
  - unfold roundOf, exSingle. cbn [grid]. rewrite length_gridOf. lia.
  - vm_compute. reflexivity.
  - by left.
  - exists st'. split; [done|]. apply Hsmall.
    vm_compute in Hgroup. injection Hgroup as <-. simpl. lia.
Defined.

Lemma shoot_in_flight_is_noop_witness :
  shoot false exWidth 600 exShot exInFlight = exInFlight.
Proof.
  apply (shoot_in_flight_is_noop false exWidth 600 exShot exInFlight
           (shotAt 9 4 red normal)).
  reflexivity.
Defined.

Lemma refill_replaces_queue_witness :
  nextQueue (shoot false exWidth 600 exShot exAfterShot) = [normal; normal; normal].
Proof.
  destruct (refill_replaces_queue false exWidth 600 exShot exAfterShot)
    as (_ & _ & H & _).
  - apply (queueReach_other _ _ _
             (shoot false exWidth 600 exShot (roundOf exSingle 0))); [|reflexivity].
    apply queueReach_shoot.
    exact (queueReach_refill false exWidth 600
             (withNextQueue [] (roundOf exSingle 0)) (λ _, 0.5%Q)
             (queueReach_mount false exWidth 600
                (withNextQueue [] (roundOf exSingle 0)) eq_refl)).
  - reflexivity.
  - apply H. vm_compute. lia.
Defined.

(** * Further properties of the engine *)

(** ** Neighbours *)

Lemma elem_of_neighborCells (rows w r c : Z) (q : Cell) :
  q ∈ neighborCells rows w r c ↔
  q ∈ [ (r, c - 1); (r, c + 1);
        (r - 1, c + (if isOdd r then 0 else -1)); (r - 1, c + (if isOdd r then 1 else 0));
        (r + 1, c + (if isOdd r then 0 else -1)); (r + 1, c + (if isOdd r then 1 else 0)) ] ∧
  0 <= q.1 < rows ∧ 0 <= q.2 < maxColsOf w q.1.
Proof.
  unfold neighborCells. rewrite list_elem_of_filter. split.
  - intros [[H1 H2] Hin]. split; [done|]. lia.
  - intros [Hin [H1 H2]]. split; [|done]. lia.
Qed.

Lemma isOdd_nonneg (r : Z) : 0 <= r → isOdd r = bool_decide (r mod 2 = 1).
Proof.
  intros Hr. unfold isOdd. rewrite Z.rem_mod_nonneg by lia.
  case_bool_decide; [by apply Z.eqb_eq|by apply Z.eqb_neq].
Qed.

Ltac parity r :=
  pose proof (Z.div_mod r 2 ltac:(lia)); pose proof (Z.mod_pos_bound r 2 ltac:(lia)).

Lemma isOdd_succ (r : Z) : 0 <= r → isOdd (r + 1) = negb (isOdd r).
Proof.
  intros Hr. rewrite !isOdd_nonneg by lia. parity r. parity (r + 1).
  repeat case_bool_decide; simpl; try done; lia.
Qed.

Lemma isOdd_pred (r : Z) : 0 <= r - 1 → isOdd (r - 1) = negb (isOdd r).
Proof.
  intros Hr. rewrite !isOdd_nonneg by lia. parity r. parity (r - 1).
  repeat case_bool_decide; simpl; try done; lia.
Qed.

(** X1.  Neighbourhood is symmetric on the usable cells: a neighbour of a
    usable cell is itself usable and has that cell among its neighbours. *)
Theorem neighbors_symmetric (g : Grid) (w : Z) (p q : Cell) :
  inBounds g w p → adjacent g w p q →
  inBounds g w q ∧ adjacent g w q p.
Proof.
  unfold adjacent, inBounds. intros [Hr Hc] Hq.
  apply elem_of_neighborCells in Hq as (Hin & Hqr & Hqc).
  split; [done|]. apply elem_of_neighborCells. split; [|done].
  destruct p as [r c], q as [r' c']. simpl in *.
  rewrite !elem_of_cons, elem_of_nil in Hin.
  rewrite !elem_of_cons, elem_of_nil.
  destruct Hin as [E|[E|[E|[E|[E|[E|[]]]]]]]; injection E as -> ->.
  - right. left. f_equal. lia.
  - left. f_equal. lia.
  - rewrite isOdd_pred by lia. do 5 right. left.
    destruct (isOdd r); simpl; f_equal; lia.
  - rewrite isOdd_pred by lia. do 4 right. left.
    destruct (isOdd r); simpl; f_equal; lia.
  - rewrite isOdd_succ by lia. do 3 right. left.
    destruct (isOdd r); simpl; f_equal; lia.
  - rewrite isOdd_succ by lia. do 2 right. left.
    destruct (isOdd r); simpl; f_equal; lia.
Qed.

(** X2.  Whatever the cell, [neighbors] returns at most six usable cells,
    all different from each other and from the cell itself. *)
Theorem neighbors_distinct_usable (g : Grid) (w r c : Z) :
  (length (neighbors g w r c) <= 6)%nat ∧
  NoDup (neighbors g w r c).*1 ∧
  ((r, c) ∉ (neighbors g w r c).*1) ∧
  ∀ n, n ∈ neighbors g w r c → inBounds g w n.1 ∧ n.2 = cell g n.1.1 n.1.2.
Proof.
  assert ((neighbors g w r c).*1 = neighborCells (Z.of_nat (length g)) w r c) as E.
  { unfold neighbors. rewrite <- list_fmap_compose. apply list_fmap_id. }
  split; [apply length_neighbors|]. rewrite E. split; [|split].
  - unfold neighborCells. apply NoDup_filter.
    repeat (apply NoDup_cons; split;
            [rewrite ?elem_of_cons, elem_of_nil; destruct (isOdd r);
             intros H; repeat (destruct H as [H|H]; [injection H; lia|]); done|]).
    apply NoDup_nil_2.
  - rewrite elem_of_neighborCells. intros [Hin _].
    rewrite !elem_of_cons, elem_of_nil in Hin. destruct (isOdd r);
      repeat (destruct Hin as [Hin|Hin]; [injection Hin; lia|]); done.
  - intros n Hn. apply elem_of_neighbors in Hn as [Hn Hb]. split; [|done].
    by apply elem_of_neighborCells in Hn as (_ & ? & ?).
Qed.

(** ** Rounding to the nearest integer *)

Lemma Math_round_near (n : Z) (q : Q) :
  (inject_Z n - (1 # 2) <= q)%Q → (q < inject_Z n + (1 # 2))%Q → Math_round q = n.
Proof.
  intros Hlo Hhi. unfold Math_round.
  assert (inject_Z n <= q + (1 # 2))%Q as H1 by lra.
  assert (q + (1 # 2) < inject_Z (n + 1))%Q as H2.
  { rewrite inject_Z_plus. change (inject_Z 1) with 1%Q. lra. }
  apply Qfloor_resp_le in H1. rewrite Qfloor_Z in H1.
  destruct (Z_lt_le_dec (Qfloor (q + (1 # 2))) (n + 1)) as [L|L]; [lia|].
  exfalso. rewrite Zle_Qle in L. pose proof (Qfloor_le (q + (1 # 2))) as F. lra.
Qed.

(** ** The flood match finds the connected group *)

Lemma elem_of_floodPushes (g : Grid) (w : Z) (target : BubbleColor) (cur q : Cell) :
  q ∈ floodPushes g w target cur ↔ adjacent g w cur q ∧ matchesAt g target q.
Proof.
  unfold floodPushes, adjacent, matchesAt. rewrite list_elem_of_omap. split.
  - intros ([p ob] & Hn & Hf). apply elem_of_neighbors in Hn as [Hp Hob].
    simpl in *. destruct ob as [nb|]; [|done].
    destruct (matchesTarget target nb) eqn:Hm; [|done].
    injection Hf as <-. eauto.
  - intros (Hadj & nb & Hc & Hm). exists (q, Some nb). split.
    + apply elem_of_neighbors. by split.
    + simpl. by rewrite Hm.
Qed.

Lemma floodInv_start (g : Grid) (w : Z) (target : BubbleColor) (o : Cell) :
  floodInv g w target o [o] ∅ [].
Proof.
  split; [|split; [|split]].
  - intros p Hp. by apply elem_of_nil in Hp.
  - intros p Hp Hm. apply list_elem_of_singleton in Hp as ->. by constructor.
  - right. by apply list_elem_of_singleton.
  - intros p Hp. by apply not_elem_of_empty in Hp.
Qed.

Lemma floodInv_skip (g : Grid) (w : Z) (target : BubbleColor) (o cur : Cell)
    (stack : list Cell) (visited : gset Cell) (res : list Cell) :
  cur ∈ visited →
  floodInv g w target o (cur :: stack) visited res →
  floodInv g w target o stack visited res.
Proof.
  intros Hcur (H1 & H2 & H3 & H4). split; [done|]. split; [|split].
  - intros p Hp. apply H2. apply elem_of_cons. by right.
  - destruct H3 as [?|Hin]; [by left|].
    apply elem_of_cons in Hin as [->|?]; [by left|by right].
  - intros p Hp Hm. destruct (H4 p Hp Hm) as [Hres Hq]. split; [done|].
    intros q Hadj Hmq. destruct (Hq q Hadj Hmq) as [?|Hin]; [by left|].
    apply elem_of_cons in Hin as [->|?]; [by left|by right].
Qed.

Lemma floodInv_reject (g : Grid) (w : Z) (target : BubbleColor) (o cur : Cell)
    (stack : list Cell) (visited : gset Cell) (res : list Cell) :
  ¬ matchesAt g target cur →
  floodInv g w target o (cur :: stack) visited res →
  floodInv g w target o stack (visited ∪ {[cur]}) res.
Proof.
  intros Hno (H1 & H2 & H3 & H4). split; [|split; [|split]].
  - intros p Hp. destruct (H1 p Hp) as [Hv Hr]. split; [|done].
    apply elem_of_union. by left.
  - intros p Hp. apply H2. apply elem_of_cons. by right.
  - rewrite elem_of_union, elem_of_singleton. destruct H3 as [?|Hin]; [tauto|].
    apply elem_of_cons in Hin as [->|?]; tauto.
  - intros p Hp Hm. apply elem_of_union in Hp as [Hp|Hp].
    + destruct (H4 p Hp Hm) as [Hres Hq]. split; [done|].
      intros q Hadj Hmq. rewrite elem_of_union, elem_of_singleton.
      destruct (Hq q Hadj Hmq) as [?|Hin]; [tauto|].
      apply elem_of_cons in Hin as [->|?]; tauto.
    + apply elem_of_singleton in Hp as ->. done.
Qed.

Lemma floodInv_accept (g : Grid) (w : Z) (target : BubbleColor) (o cur : Cell)
    (stack : list Cell) (visited : gset Cell) (res : list Cell) :
  matchesAt g target cur →
  floodInv g w target o (cur :: stack) visited res →
  floodInv g w target o (rev (floodPushes g w target cur) ++ stack)
           (visited ∪ {[cur]}) (res ++ [cur]).
Proof.
  intros Hyes (H1 & H2 & H3 & H4).
  assert (floodReach g w target o cur) as Hcur.
  { apply H2; [|done]. apply elem_of_cons. by left. }
  split; [|split; [|split]].
  - intros p Hp. rewrite elem_of_union, elem_of_singleton.
    apply elem_of_app in Hp as [Hp|Hp].
    + destruct (H1 p Hp). tauto.
    + apply list_elem_of_singleton in Hp as ->. tauto.
  - intros p Hp Hm. apply elem_of_app in Hp as [Hp|Hp].
    + rewrite elem_of_rev in Hp. apply elem_of_floodPushes in Hp as [Hadj _].
      by eapply floodReach_step.
    + apply H2; [|done]. apply elem_of_cons. by right.
  - rewrite elem_of_union, elem_of_singleton, elem_of_app.
    destruct H3 as [?|Hin]; [tauto|].
    apply elem_of_cons in Hin as [->|?]; tauto.
  - intros p Hp Hm. rewrite elem_of_app, list_elem_of_singleton.
    apply elem_of_union in Hp as [Hp|Hp].
    + destruct (H4 p Hp Hm) as [Hres Hq]. split; [tauto|].
      intros q Hadj Hmq. rewrite elem_of_union, elem_of_singleton, elem_of_app.
      destruct (Hq q Hadj Hmq) as [?|Hin]; [tauto|].
      apply elem_of_cons in Hin as [->|?]; tauto.
    + apply elem_of_singleton in Hp as ->. split; [tauto|].
      intros q Hadj Hmq. rewrite elem_of_union, elem_of_singleton, elem_of_app.
      right. left. rewrite elem_of_rev. by apply elem_of_floodPushes.
Qed.

Lemma floodMatch_loop_inv (g : Grid) (w : Z) (target : BubbleColor) (o : Cell)
    (fuel : nat) :
  ∀ stack visited res result,
    floodInv g w target o stack visited res →
    floodMatch_loop fuel g w target stack visited res = Some result →
    ∃ visited', floodInv g w target o [] visited' result.
Proof.
  induction fuel as [|fuel IH]; intros [|cur stack] visited res result Hinv Hrun;
    simpl in Hrun; try done.
  - injection Hrun as <-. eauto.
  - injection Hrun as <-. eauto.
  - case_decide as Hv.
    + eapply IH; [|done]. by eapply floodInv_skip.
    + destruct (cell g cur.1 cur.2) as [b|] eqn:Hb.
      * destruct (matchesTarget target b) eqn:Hm.
        -- eapply IH; [|done]. apply floodInv_accept; [|done]. by exists b.
        -- eapply IH; [|done]. apply floodInv_reject; [|done].
           intros (b' & Hb' & Hm'). congruence.
      * eapply IH; [|done]. apply floodInv_reject; [|done].
        intros (b' & Hb' & _). congruence.
Qed.

(** X4.  [floodMatch] returns, without duplicates, exactly the cells that
    are connected to the starting cell through bubbles of the target
    colour or of kind rainbow, the starting cell included; it returns
    nothing when the starting cell holds no such bubble. *)
Theorem floodMatch_is_connected_group (g : Grid) (w r c : Z) (target : BubbleColor) :
  ∃ group,
    floodMatch g w r c target = Some group ∧ NoDup group ∧
    (∀ p, p ∈ group ↔ floodReach g w target (r, c) p) ∧
    (matchesAt g target (r, c) → (r, c) ∈ group) ∧
    (¬ matchesAt g target (r, c) → group = []).
Proof.
  destruct (floodMatch_result g w r c target) as (group & Hrun & Hnd & _).
  exists group. split; [done|]. split; [done|].
  destruct (floodMatch_loop_inv g w target (r, c) _ _ _ _ _
              (floodInv_start g w target (r, c)) Hrun)
    as (visited & H1 & _ & H3 & H4).
  assert (∀ p, floodReach g w target (r, c) p → p ∈ group) as Hall.
  { induction 1 as [Hm|p q Hp IH Hadj Hm].
    - destruct H3 as [Ho|Ho]; [|by apply elem_of_nil in Ho]. by apply H4.
    - destruct (H1 p IH) as [Hv _]. destruct (H4 p Hv) as [_ Hq].
      { destruct Hp; [done|done]. }
      destruct (Hq q Hadj Hm) as [?|Hin]; [by apply H4|by apply elem_of_nil in Hin]. }
  split; [|split].
  - intros p. split; [by apply H1|apply Hall].
  - intros Hm. apply Hall. by constructor.
  - intros Hno. destruct group as [|p group]; [done|]. exfalso.
    destruct (H1 p) as [_ Hp]; [apply elem_of_cons; by left|].
    apply Hno. clear -Hp. induction Hp; done.
Qed.

(** ** Disconnection removal: repetition and unusable cells *)

Lemma length_sweepRow (visited : gset Cell) (r : Z) (rw : list (option Bubble)) :
  ∀ c0, length (sweepRow visited r c0 rw).1 = length rw.
Proof.
  induction rw as [|ob rw IH]; intros c0; simpl; [done|].
  specialize (IH (c0 + 1)). destruct (sweepRow visited r (c0 + 1) rw) as [rest n].
  destruct (floating visited r c0 ob); simpl in *; by rewrite IH.
Qed.

Lemma length_sweep (visited : gset Cell) (g : Grid) :
  ∀ r0, length (sweep visited r0 g).1 = length g.
Proof.
  induction g as [|rw g IH]; intros r0; simpl; [done|].
  specialize (IH (r0 + 1)). destruct (sweepRow visited r0 0 rw).
  destruct (sweep visited (r0 + 1) g). simpl in *. by rewrite IH.
Qed.

Lemma wfGrid_sweep (w : Z) (visited : gset Cell) (g : Grid) :
  ∀ r0, wfGrid w g → wfGrid w (sweep visited r0 g).1.
Proof.
  unfold wfGrid. induction g as [|rw g IH]; intros r0 Hwf; simpl; [done|].
  apply Forall_cons in Hwf as [Hrw Hwf]. specialize (IH (r0 + 1) Hwf).
  pose proof (length_sweepRow visited r0 rw 0) as Hlen.
  destruct (sweepRow visited r0 0 rw) as [rw' n].
  destruct (sweep visited (r0 + 1) g) as [rest m]. simpl in *.
  apply Forall_cons. split; [by rewrite Hlen|done].
Qed.

Lemma sweepRow_fixed (visited : gset Cell) (r : Z) (rw : list (option Bubble)) :
  ∀ c0,
    (∀ j ob, rw !! j = Some ob → floating visited r (c0 + Z.of_nat j) ob = false) →
    sweepRow visited r c0 rw = (rw, 0).
Proof.
  induction rw as [|ob rw IH]; intros c0 Hfix; simpl; [done|].
  rewrite (IH (c0 + 1)).
  - pose proof (Hfix 0%nat ob eq_refl) as H0.
    replace (c0 + Z.of_nat 0) with c0 in H0 by lia. by rewrite H0.
  - intros j ob' Hj. specialize (Hfix (S j) ob' Hj).
    by replace (c0 + Z.of_nat (S j)) with (c0 + 1 + Z.of_nat j) in Hfix by lia.
Qed.

Lemma sweep_fixed (visited : gset Cell) (g : Grid) :
  ∀ r0,
    (∀ i rw j ob, g !! i = Some rw → rw !! j = Some ob →
                  floating visited (r0 + Z.of_nat i) (Z.of_nat j) ob = false) →
    sweep visited r0 g = (g, 0).
Proof.
  induction g as [|rw g IH]; intros r0 Hfix; simpl; [done|].
  rewrite sweepRow_fixed.
  - rewrite (IH (r0 + 1)); [done|]. intros i rw' j ob Hi Hj.
    specialize (Hfix (S i) rw' j ob Hi Hj).
    by replace (r0 + Z.of_nat (S i)) with (r0 + 1 + Z.of_nat i) in Hfix by lia.
  - intros j ob Hj. specialize (Hfix 0%nat rw j ob eq_refl Hj).
    by replace (r0 + Z.of_nat 0) with r0 in Hfix by lia.
Qed.

Lemma sweep_nothing_floating (visited : gset Cell) (g : Grid) :
  (∀ r c, floating visited r c (cell g r c) = false) → sweep visited 0 g = (g, 0).
Proof.
  intros Hfix. apply sweep_fixed. intros i rw j ob Hi Hj.
  specialize (Hfix (Z.of_nat i) (Z.of_nat j)). unfold cell in Hfix.
  destruct (Z.ltb_spec (Z.of_nat i) 0); [lia|].
  destruct (Z.ltb_spec (Z.of_nat j) 0); [lia|]. simpl in Hfix.
  by rewrite !Nat2Z.id, Hi, Hj in Hfix.
Qed.

(** The anchor search of a well-formed grid visits exactly the anchored
    cells. *)
Lemma removeDisconnected_anchored (g : Grid) (w : Z) :
  wfGrid w g →
  ∃ visited, removeDisconnected g w = Some (sweep visited 0 g) ∧
             ∀ p, p ∈ visited ↔ anchored g w p.
Proof.
  intros Hwf. destruct (removeDisconnected_total g w) as (visited & Hrun & Hrem).
  exists visited. split; [done|]. intros p. apply anchorInv_final; [done|].
  eapply anchor_loop_inv; [apply anchorInv_seeds|done].
Qed.

Lemma anchored_mono (g g' : Grid) (w : Z) (p : Cell) :
  length g' = length g →
  (∀ q, anchored g w q → cell g' q.1 q.2 = cell g q.1 q.2) →
  anchored g w p → anchored g' w p.
Proof.
  intros Hlen Hsame. induction 1 as [c b Hb|p q b Hp IH Hadj Hb Hg].
  - apply (anchored_top _ _ c b).
    pose proof (Hsame (0, c) (anchored_top _ _ c b Hb)) as E. simpl in E. congruence.
  - apply (anchored_step _ _ p q b); [done| | |done].
    + unfold adjacent in *. by rewrite Hlen.
    + rewrite Hsame; [done|]. by eapply anchored_step.
Qed.

(** X5.  Disconnection removal is idempotent: run again on its own
    result it returns the same grid and the count 0. *)
Theorem removeDisconnected_idempotent (g : Grid) (w : Z) :
  wfGrid w g →
  ∃ g' n, removeDisconnected g w = Some (g', n) ∧
          removeDisconnected g' w = Some (g', 0).
Proof.
  intros Hwf.
  destruct (removeDisconnected_anchored g w Hwf) as (visited & Hrun & Hvis).
  pose proof (cell_sweep visited g) as Hcell.
  pose proof (length_sweep visited g 0) as Hlen.
  pose proof (wfGrid_sweep w visited g 0 Hwf) as Hwf'.
  destruct (sweep visited 0 g) as [g' n] eqn:Es. simpl in *.
  exists g', n. split; [done|].
  destruct (removeDisconnected_anchored g' w Hwf') as (visited' & Hrun' & Hvis').
  rewrite Hrun'. f_equal. apply sweep_nothing_floating. intros r c.
  assert (∀ q, anchored g w q → cell g' q.1 q.2 = cell g q.1 q.2) as Hsame.
  { intros q Hq. rewrite Hcell. unfold swept.
    destruct (anchored_occupied _ _ _ Hq) as [b ->]. unfold floating.
    rewrite (bool_decide_eq_false_2 ((q.1, q.2) ∉ visited)).
    - by rewrite andb_false_r.
    - rewrite <- surjective_pairing, Hvis. tauto. }
  rewrite Hcell. unfold swept.
  destruct (floating visited r c (cell g r c)) eqn:Ef; [done|].
  destruct (cell g r c) as [b|] eqn:Hb; [|done]. unfold floating in *.
  destruct (isGray b); [done|]. simpl in *.
  apply bool_decide_eq_false in Ef. apply bool_decide_eq_false.
  intros Hnot. apply Hnot. apply Hvis'.
  apply (anchored_mono g g' w (r, c) Hlen Hsame). apply Hvis.
  destruct (decide ((r, c) ∈ visited)); [done|]. by exfalso.
Qed.

Lemma anchored_usable (g : Grid) (w : Z) (p : Cell) :
  anchored g w p → p.1 = 0 ∨ inBounds g w p.
Proof.
  destruct 1 as [c b Hb|p q b Hp Hadj Hb Hg]; [by left|right].
  unfold adjacent in Hadj. by apply elem_of_neighborCells in Hadj as (_ & ? & ?).
Qed.

Lemma sweepRow_positive (visited : gset Cell) (r : Z) (rw : list (option Bubble)) :
  ∀ c0 j ob,
    rw !! j = Some ob → floating visited r (c0 + Z.of_nat j) ob = true →
    1 <= (sweepRow visited r c0 rw).2.
Proof.
  induction rw as [|ob0 rw IH]; intros c0 j ob Hj Hf; [done|]. simpl.
  pose proof (sweepRow_nonneg visited r rw (c0 + 1)) as Hpos.
  specialize (IH (c0 + 1)). destruct (sweepRow visited r (c0 + 1) rw) as [rest n].
  simpl in *. destruct j as [|j].
  - injection Hj as ->. replace (c0 + Z.of_nat 0) with c0 in Hf by lia.
    rewrite Hf. simpl. lia.
  - replace (c0 + Z.of_nat (S j)) with (c0 + 1 + Z.of_nat j) in Hf by lia.
    specialize (IH j ob Hj Hf). destruct (floating visited r c0 ob0); simpl; lia.
Qed.

Lemma sweep_positive (visited : gset Cell) (g : Grid) :
  ∀ r0 i rw j ob,
    g !! i = Some rw → rw !! j = Some ob →
    floating visited (r0 + Z.of_nat i) (Z.of_nat j) ob = true →
    1 <= (sweep visited r0 g).2.
Proof.
  induction g as [|rw0 g IH]; intros r0 i rw j ob Hi Hj Hf; [done|]. simpl.
  pose proof (sweepRow_nonneg visited r0 rw0 0) as Hpos0.
  pose proof (sweep_nonneg visited g (r0 + 1)) as Hpos.
  pose proof (sweepRow_positive visited r0 rw0 0) as Hrow.
  specialize (IH (r0 + 1)).
  destruct (sweepRow visited r0 0 rw0) as [rw' n].
  destruct (sweep visited (r0 + 1) g) as [rest m]. simpl in *.
  destruct i as [|i].
  - injection Hi as ->. replace (r0 + Z.of_nat 0) with r0 in Hf by lia.
    specialize (Hrow j ob Hj Hf). lia.
  - replace (r0 + Z.of_nat (S i)) with (r0 + 1 + Z.of_nat i) in Hf by lia.
    specialize (IH i rw j ob Hi Hj Hf). lia.
Qed.

Lemma sweep_drops_floating (visited : gset Cell) (g : Grid) (r c : Z) :
  floating visited r c (cell g r c) = true → 1 <= (sweep visited 0 g).2.
Proof.
  intros Hf. destruct (cell g r c) as [b|] eqn:Hb; [|done].
  pose proof Hb as Hb'. apply cell_Some_bounds in Hb' as (Hr & rw & Hrw & Hc).
  apply (sweep_positive visited g 0 (Z.to_nat r) rw (Z.to_nat c) (Some b)); [done| |].
  - unfold cell in Hb. destruct (Z.ltb_spec r 0); [lia|].
    destruct (Z.ltb_spec c 0); [lia|]. simpl in Hb. rewrite Hrw in Hb.
    destruct (rw !! Z.to_nat c) as [ob|]; [by subst|done].
  - by replace (0 + Z.of_nat (Z.to_nat r)) with r by lia;
      replace (Z.of_nat (Z.to_nat c)) with c by lia.
Qed.

(** A non-gray bubble that is not anchored is dropped and counted. *)
Lemma removeDisconnected_drops (g : Grid) (w r c : Z) (b : Bubble) :
  wfGrid w g → cell g r c = Some b → color b ≠ gray → ¬ anchored g w (r, c) →
  ∃ g' n, removeDisconnected g w = Some (g', n) ∧ cell g' r c = None ∧ 1 <= n.
Proof.
  intros Hwf Hb Hg Hna.
  destruct (removeDisconnected_anchored g w Hwf) as (visited & Hrun & Hvis).
  pose proof (cell_sweep visited g r c) as Hcell.
  pose proof (sweep_drops_floating visited g r c) as Hn.
  destruct (sweep visited 0 g) as [g' n] eqn:Es. simpl in *.
  exists g', n. split; [done|].
  assert (floating visited r c (cell g r c) = true) as Hf.
  { rewrite Hb. unfold floating, isGray. rewrite bool_decide_eq_false_2 by done.
    rewrite bool_decide_eq_true_2; [done|]. by rewrite Hvis. }
  split; [|by apply Hn]. rewrite Hcell. unfold swept. by rewrite Hf.
Qed.

(** X6.  A non-gray bubble below row 0 that sits outside the usable cells
    of its row (the last slot of an odd row) is never connected: the
    disconnection removal always drops it, and counts it. *)
Theorem removeDisconnected_drops_unusable (g : Grid) (w r c : Z) (b : Bubble) :
  wfGrid w g → cell g r c = Some b → color b ≠ gray →
  r ≠ 0 → ¬ inBounds g w (r, c) →
  ¬ anchored g w (r, c) ∧
  ∃ g' n, removeDisconnected g w = Some (g', n) ∧ cell g' r c = None ∧ 1 <= n.
Proof.
  intros Hwf Hb Hg Hr Hout.
  assert (¬ anchored g w (r, c)) as Hna.
  { intros Ha. destruct (anchored_usable _ _ _ Ha); simpl in *; tauto. }
  split; [done|]. by eapply removeDisconnected_drops.
Qed.

(** ** Row insertion and the capacity of the grid *)

Lemma length_removelast_cons {A : Type} (a : A) (l : list A) :
  length (removelast (a :: l)) = length l.
Proof.
  revert a. induction l as [|b l IH]; intros a; [done|].
  change (removelast (a :: b :: l)) with (a :: removelast (b :: l)).
  cbn [length]. f_equal. apply IH.
Qed.

Lemma Forall_removelast {A : Type} (P : A → Prop) (l : list A) :
  Forall P l → Forall P (removelast l).
Proof.
  induction 1 as [|a l Ha Hl IH]; [done|]. destruct l as [|b l]; [done|].
  change (removelast (a :: b :: l)) with (a :: removelast (b :: l)).
  by apply Forall_cons.
Qed.

Lemma length_addNewDescendingRow (w : Z) (i : RowInput) (st : State) :
  length (grid (addNewDescendingRow w i st)) = length (grid st).
Proof.
  unfold addNewDescendingRow. cbn [grid withGrid].
  by rewrite length_removelast_cons, length_fmap.
Qed.

Lemma wfGrid_addNewDescendingRow (w : Z) (i : RowInput) (st : State) :
  wfGrid w (grid st) → wfGrid w (grid (addNewDescendingRow w i st)).
Proof.
  unfold wfGrid, addNewDescendingRow. cbn [grid withGrid]. intros Hwf.
  apply Forall_removelast, Forall_cons. split.
  - by rewrite length_fmap, length_seqZ.
  - apply Forall_fmap. eapply Forall_impl; [exact Hwf|].
    intros rw Hrw. simpl. by rewrite length_fmap.
Qed.

Lemma addNewDescendingRow_top (w : Z) (i : RowInput) (st : State) (c : Z) :
  (0 < length (grid st))%nat → 0 <= c < computeCols w →
  cell (grid (addNewDescendingRow w i st)) 0 c =
    Some (mkBubble (rowId i c) 0 c (gridToXY (descentOffset st) 0 c).1
                   (gridToXY (descentOffset st) 0 c).2 (rowColor i c) normal true).
Proof.
  intros Hlen Hc. unfold addNewDescendingRow, cell. cbn [grid withGrid].
  destruct (Z.ltb_spec c 0); [lia|]. simpl orb. cbv iota.
  rewrite lookup_removelast by (simpl; rewrite length_fmap; lia).
  change (Z.to_nat 0) with 0%nat. cbn [lookup list_lookup].
  rewrite list_lookup_fmap.
  rewrite (lookup_seqZ_lt 0 (computeCols w) (Z.to_nat c)) by lia. simpl.
  replace (0 + Z.of_nat (Z.to_nat c)) with c by lia.
  by destruct (gridToXY (descentOffset st) 0 c).
Qed.

(** X7.  A row insertion keeps the number of rows and the width of every
    row.  On a grid that has rows, it fills every slot of row 0 with a
    fresh stationary normal bubble whose row, column and cached position
    are those of its slot at the current offset; the content of every
    other row that still fits moves one row down with only its [row]
    field changed; the rest of the state is untouched. *)
Theorem addNewDescendingRow_shifts_rows (w : Z) (i : RowInput) (st : State) :
  (0 < length (grid st))%nat →
  length (grid (addNewDescendingRow w i st)) = length (grid st) ∧
  (wfGrid w (grid st) → wfGrid w (grid (addNewDescendingRow w i st))) ∧
  (∀ c, 0 <= c < computeCols w →
     ∃ b, cell (grid (addNewDescendingRow w i st)) 0 c = Some b ∧
          row b = 0 ∧ col b = c ∧ kind b = normal ∧ stationary b = true ∧
          color b = rowColor i c ∧ cachedAt (descentOffset st) b) ∧
  (∀ r c, 0 <= r → r + 1 < Z.of_nat (length (grid st)) →
     cell (grid (addNewDescendingRow w i st)) (r + 1) c =
       pushDown (cell (grid st) r c)) ∧
  (score (addNewDescendingRow w i st), comboChain (addNewDescendingRow w i st),
   descentOffset (addNewDescendingRow w i st), power (addNewDescendingRow w i st),
   nextQueue (addNewDescendingRow w i st), events (addNewDescendingRow w i st),
   moving (addNewDescendingRow w i st), dir (addNewDescendingRow w i st))
  = (score st, comboChain st, descentOffset st, power st, nextQueue st, events st,
     moving st, dir st).
Proof.
  intros Hlen. split; [apply length_addNewDescendingRow|].
  split; [apply wfGrid_addNewDescendingRow|]. split; [|split; [|done]].
  - intros c Hc. eexists. split; [by apply addNewDescendingRow_top|].
    cbn. repeat split; reflexivity.
  - intros r c. apply addNewDescendingRow_shifts.
Qed.

Lemma loopDescent_shape (level : LevelConfig) (w : Z) (t : Tick) (st : State) :
  length (grid (loopDescent level w t st)) = length (grid st) ∧
  (wfGrid w (grid st) → wfGrid w (grid (loopDescent level w t st))) ∧
  (score (loopDescent level w t st), comboChain (loopDescent level w t st),
   power (loopDescent level w t st), nextQueue (loopDescent level w t st),
   events (loopDescent level w t st), moving (loopDescent level w t st),
   dir (loopDescent level w t st))
  = (score st, comboChain st, power st, nextQueue st, events st, moving st, dir st).
Proof.
  unfold loopDescent. destruct (negb _).
  - rewrite length_addNewDescendingRow. split; [done|]. split; [|done].
    intros Hwf. by apply wfGrid_addNewDescendingRow.
  - done.
Qed.

(** X8.  Whatever the frames and the descent rate, the descent controller
    never changes the number of rows of the grid nor the width of its
    rows, and it touches nothing but the grid and the offset: score,
    combo chain, power-ups, next-queue, events and the bubble in flight
    stay as they were. *)
Theorem runDescent_keeps_capacity (level : LevelConfig) (w : Z) (ts : list Tick)
    (st : State) :
  length (grid (runDescent level w ts st)) = length (grid st) ∧
  (wfGrid w (grid st) → wfGrid w (grid (runDescent level w ts st))) ∧
  (score (runDescent level w ts st), comboChain (runDescent level w ts st),
   power (runDescent level w ts st), nextQueue (runDescent level w ts st),
   events (runDescent level w ts st), moving (runDescent level w ts st),
   dir (runDescent level w ts st))
  = (score st, comboChain st, power st, nextQueue st, events st, moving st, dir st).
Proof.
  unfold runDescent. revert st. induction ts as [|t ts IH]; intros st; [done|].
  simpl. destruct (IH (loopDescent level w t st)) as (H1 & H2 & H3).
  destruct (loopDescent_shape level w t st) as (L1 & L2 & L3).
  rewrite H1, L1, H3, L3. split; [done|]. split; [|done]. intros Hwf. by apply H2, L2.
Qed.

(** X9.  The top row is full width, so after a row insertion the bubble
    that sat in its last column lies in the last slot of row 1, which no
    neighbour list ever names; if it is not gray, the next disconnection
    removal drops it, whatever it touches. *)
Theorem inserted_row_strands_last_column (w : Z) (i : RowInput) (st : State)
    (b : Bubble) :
  wfGrid w (grid st) → (2 <= length (grid st))%nat →
  cell (grid st) 0 (computeCols w - 1) = Some b → color b ≠ gray →
  ∃ b' g' n,
    cell (grid (addNewDescendingRow w i st)) 1 (computeCols w - 1) = Some b' ∧
    (id b', color b', kind b', x b', y b') = (id b, color b, kind b, x b, y b) ∧
    removeDisconnected (grid (addNewDescendingRow w i st)) w = Some (g', n) ∧
    cell g' 1 (computeCols w - 1) = None.
Proof.
  intros Hwf Hlen Hb Hg.
  pose proof (addNewDescendingRow_shifts w i st 0 (computeCols w - 1)
                ltac:(lia) ltac:(lia)) as Hshift.
  rewrite Hb in Hshift. simpl in Hshift.
  destruct (removeDisconnected_drops
              (grid (addNewDescendingRow w i st)) w 1 (computeCols w - 1) _
              (wfGrid_addNewDescendingRow w i st Hwf) Hshift Hg)
    as (g' & n & Hrun & Hnone & _).
  { intros Ha. destruct (anchored_usable _ _ _ Ha) as [?|[_ Hc]]; [done|].
    unfold maxColsOf in Hc. simpl in Hc. change (isOdd 1) with true in Hc. lia. }
  eexists _, g', n. split; [exact Hshift|]. split; [done|]. split; done.
Qed.

(** ** What a snap resolution can do to the round *)

Lemma length_blast (around : list Cell) : ∀ g : Grid, length (blast g around) = length g.
Proof.
  unfold blast. induction around as [|k around IH]; intros g; [done|].
  cbn [fold_left]. rewrite IH. unfold blastCell.
  destruct (cell g k.1 k.2) as [bb|]; [|done].
  destruct (isGray bb); [done|]. apply length_setCell.
Qed.

Lemma wfGrid_blast (w : Z) (around : list Cell) :
  ∀ g : Grid, wfGrid w g → wfGrid w (blast g around).
Proof.
  unfold blast. induction around as [|k around IH]; intros g Hwf; [done|].
  cbn [fold_left]. apply IH. unfold blastCell.
  destruct (cell g k.1 k.2) as [bb|]; [|done].
  destruct (isGray bb); [done|]. by apply wfGrid_setCell.
Qed.

Lemma length_clearCells (group : list Cell) :
  ∀ g : Grid, length (clearCells g group) = length g.
Proof.
  unfold clearCells. induction group as [|k group IH]; intros g; [done|].
  cbn [fold_left]. by rewrite IH, length_setCell.
Qed.

Lemma wfGrid_clearCells (w : Z) (group : list Cell) :
  ∀ g : Grid, wfGrid w g → wfGrid w (clearCells g group).
Proof.
  unfold clearCells. induction group as [|k group IH]; intros g Hwf; [done|].
  cbn [fold_left]. by apply IH, wfGrid_setCell.
Qed.

Lemma removeDisconnected_shape (g : Grid) (w : Z) :
  ∃ g' n, removeDisconnected g w = Some (g', n) ∧
          length g' = length g ∧ (wfGrid w g → wfGrid w g') ∧ 0 <= n.
Proof.
  destruct (removeDisconnected_total g w) as (visited & _ & ->).
  pose proof (length_sweep visited g 0). pose proof (wfGrid_sweep w visited g 0).
  pose proof (sweep_nonneg visited g 0).
  destruct (sweep visited 0 g) as [g' n]. by exists g', n.
Qed.

Lemma alter_fixed {A : Type} (f : A → A) (i : nat) (l : list A) :
  (∀ a, l !! i = Some a → f a = a) → alter f i l = l.
Proof.
  intros Hf. apply list_eq. intros j. destruct (decide (i = j)) as [<-|Hne].
  - rewrite list_lookup_alter_eq. destruct (l !! i) as [a|] eqn:E; [|done].
    simpl. by rewrite Hf.
  - by rewrite list_lookup_alter_ne.
Qed.

(** Putting a bubble into an empty slot and emptying the slot again gives
    the grid back. *)
Lemma setCell_undo (g : Grid) (r c : Z) (v : option Bubble) :
  cell g r c = None → setCell (setCell g r c v) r c None = g.
Proof.
  unfold cell, setCell. destruct (_ || _); [done|]. intros Hnone.
  rewrite list_alter_alter_eq. apply alter_fixed. intros rw Hrw. simpl.
  rewrite list_insert_insert_eq. rewrite Hrw in Hnone.
  apply list_insert_id'. intros Hlt.
  destruct (rw !! Z.to_nat c) as [ob|] eqn:E; [by subst|].
  apply lookup_ge_None in E. lia.
Qed.

Lemma withGrid_same (st : State) : withGrid (grid st) st = st.
Proof. by destruct st. Qed.

(** The outcome of a snap resolution, by cases. *)
Lemma trySnapAndResolve_outcome (w now : Z) (b : Bubble) (st : State) :
  ∃ st', trySnapAndResolve w now b st = Some st' ∧
    length (grid st') = length (grid st) ∧
    (wfGrid w (grid st) → wfGrid w (grid st')) ∧
    (moving st', dir st', descentOffset st', nextQueue st')
      = (moving st, dir st, descentOffset st, nextQueue st) ∧
    ((score st' = score st ∧ events st' = events st) ∨
     (30 <= score st' - score st ∧ events st' = events st ∧
      comboChain st' = comboChain st + 1) ∨
     (35 <= score st' - score st ∧ events st' = events st ++ [comboAchieved] ∧
      comboChain st' = comboChain st + 1)) ∧
    (comboChain st' = comboChain st ∨ comboChain st' = comboChain st + 1 ∨
     comboChain st' = 0).
Proof.
  unfold trySnapAndResolve.
  destruct (placeFirst _ _ _ _ _) as [[g1 b1]|] eqn:Hplace.
  2:{ exists st. repeat split; auto. }
  assert (length g1 = length (grid st) ∧ (wfGrid w (grid st) → wfGrid w g1))
    as [Hlen1 Hwf1].
  { apply placeFirst_Some in Hplace as (q & _ & _ & _ & ->).
    split; [apply length_setCell|]. intros Hwf. by apply wfGrid_setCell. }
  destruct (floodMatch_result g1 w (row b1) (col b1) (color b1))
    as (group & Hrun & _ & _).
  destruct (removeDisconnected_shape (clearCells g1 group) w)
    as (g2 & n & Hrem & Hlen2 & Hwf2 & Hn).
  rewrite length_clearCells in Hlen2.
  destruct (bombAround_within2 g1 w (row b1, col b1)) as (around & Hbomb & _).
  destruct (removeDisconnected_shape (blast g1 around) w)
    as (g3 & m & Hrem' & Hlen3 & Hwf3 & _).
  rewrite length_blast in Hlen3.
  assert (∃ st', (group ← floodMatch g1 w (row b1) (col b1) (color b1);
                  if 3 <=? Z.of_nat (length group)
                  then
                    let st0 := withGrid (clearCells g1 group) st in
                    let st1 := withScore (score st0 + 10 * Z.of_nat (length group)) st0 in
                    let st2 := withComboChain (comboChain st1 + 1) st1 in
                    dropped ← removeDisconnected (grid st2) w;
                    let st3 := withGrid dropped.1 st2 in
                    if dropped.2 >? 0
                    then Some (emit comboAchieved
                                 (withScore (score st3 + 5 * dropped.2) st3))
                    else Some st3
                  else Some (withComboChain 0 (withGrid g1 st))) = Some st' ∧
            length (grid st') = length (grid st) ∧
            (wfGrid w (grid st) → wfGrid w (grid st')) ∧
            (moving st', dir st', descentOffset st', nextQueue st')
              = (moving st, dir st, descentOffset st, nextQueue st) ∧
            ((score st' = score st ∧ events st' = events st) ∨
             (30 <= score st' - score st ∧ events st' = events st ∧
              comboChain st' = comboChain st + 1) ∨
             (35 <= score st' - score st ∧ events st' = events st ++ [comboAchieved] ∧
              comboChain st' = comboChain st + 1)) ∧
            (comboChain st' = comboChain st ∨ comboChain st' = comboChain st + 1 ∨
             comboChain st' = 0)) as Hmatch.
  { rewrite Hrun. simpl. destruct (3 <=? Z.of_nat (length group)) eqn:E3.
    - rewrite Hrem. simpl. destruct (n >? 0) eqn:En.
      + eexists. split; [done|]. simpl. split; [by rewrite Hlen2|].
        split; [by intros; apply Hwf2, wfGrid_clearCells, Hwf1|]. split; [done|].
        split; [|auto]. right. right. split; [lia|done].
      + eexists. split; [done|]. simpl. split; [by rewrite Hlen2|].
        split; [by intros; apply Hwf2, wfGrid_clearCells, Hwf1|]. split; [done|].
        split; [|auto]. right. left. split; [lia|done].
    - eexists. split; [done|]. simpl. split; [done|]. split; [done|].
      split; [done|]. split; auto. }
  destruct (kind b1); [exact Hmatch|exact Hmatch| | |].
  - rewrite Hbomb. simpl. rewrite Hrem'. simpl. eexists. split; [done|]. simpl.
    split; [by rewrite Hlen3|]. split; [by intros; apply Hwf3, wfGrid_blast, Hwf1|].
    split; [done|]. split; auto.
  - eexists. split; [done|]. simpl. split; [by rewrite length_setCell|].
    split; [by intros; apply wfGrid_setCell, Hwf1|]. split; [done|]. split; auto.
  - eexists. split; [done|]. simpl. split; [by rewrite length_setCell|].
    split; [by intros; apply wfGrid_setCell, Hwf1|]. split; [done|]. split; auto.
Qed.

(** X10.  On a grid that has rows, every snap resolution returns: its
    searches terminate.  It keeps the number of rows and the width of the
    rows of the grid, and leaves the descent offset, the next-queue and
    the flight state as they were. *)
Theorem trySnapAndResolve_keeps_shape (w now : Z) (b : Bubble) (st : State) :
  (0 < length (grid st))%nat →
  ∃ st', trySnapAndResolve w now b st = Some st' ∧
    length (grid st') = length (grid st) ∧
    (wfGrid w (grid st) → wfGrid w (grid st')) ∧
    (moving st', dir st', descentOffset st', nextQueue st')
      = (moving st, dir st, descentOffset st, nextQueue st).
Proof.
  intros _. destruct (trySnapAndResolve_outcome w now b st)
    as (st' & Hrun & Hlen & Hwf & Hrest & _).
  by exists st'.
Qed.

(** X11.  On a grid that has rows, a snap resolution never lowers the
    score: either score and events are unchanged, or the score grows by
    at least 30 and the combo chain by one; a combo event is emitted at
    most once, and only together with a gain of at least 35.  The combo
    chain afterwards is the old one, the old one plus one, or zero. *)
Theorem trySnapAndResolve_score_grows (w now : Z) (b : Bubble) (st : State) :
  (0 < length (grid st))%nat →
  ∃ st', trySnapAndResolve w now b st = Some st' ∧
    score st <= score st' ∧
    ((score st' = score st ∧ events st' = events st) ∨
     (30 <= score st' - score st ∧ events st' = events st ∧
      comboChain st' = comboChain st + 1) ∨
     (35 <= score st' - score st ∧ events st' = events st ++ [comboAchieved] ∧
      comboChain st' = comboChain st + 1)) ∧
    (comboChain st' = comboChain st ∨ comboChain st' = comboChain st + 1 ∨
     comboChain st' = 0).
Proof.
  intros _. destruct (trySnapAndResolve_outcome w now b st)
    as (st' & Hrun & _ & _ & _ & Hscore & Hcombo).
  exists st'. split; [done|]. split; [|done]. lia.
Qed.

(** X12.  On a grid that has rows, a freeze or aim bubble never changes
    the grid, the score, the combo chain or the events: if it finds no
    free candidate nothing happens at all, and if it is placed it is
    taken out again and only its own timer is set (5000 ms for freeze,
    6000 ms for aim, from the time of the snap), the other timer keeping
    its value. *)
Theorem powerup_snap_sets_timer_only (w now : Z) (b : Bubble) (st : State) :
  (0 < length (grid st))%nat →
  kind b = freeze ∨ kind b = aim →
  trySnapAndResolve w now b st =
    Some (match placeFirst (grid st) (descentOffset st) w b
                  (snapCandidates (xyToGridGuess (descentOffset st) (x b) (y b))) with
          | None => st
          | Some _ =>
            withPower (if decide (kind b = freeze)
                       then mkPower (now + 5000) (aimBoostUntil (power st))
                       else mkPower (freezeUntil (power st)) (now + 6000)) st
          end).
Proof.
  intros _ Hkind. unfold trySnapAndResolve.
  destruct (placeFirst _ _ _ _ _) as [[g1 b1]|] eqn:Hplace; [|done].
  apply placeFirst_Some in Hplace as (q & _ & Hfree & -> & ->). cbn [kind row col].
  rewrite (setCell_undo _ _ _ _ Hfree).
  destruct Hkind as [-> | ->]; simpl; f_equal; by destruct st.
Qed.



(** ** Shooting *)

(** X14.  After any call of [shoot] a bubble is in flight, so a second
    call right after it, with whatever draws, changes nothing: two calls
    in a row launch one bubble and emit one shot event. *)
Theorem shoot_twice_launches_once (re : bool) (w h : Z) (i1 i2 : ShotInput)
    (st : State) :
  is_Some (moving (shoot re w h i1 st)) ∧
  shoot re w h i2 (shoot re w h i1 st) = shoot re w h i1 st ∧
  (moving st = None →
     events (shoot re w h i2 (shoot re w h i1 st)) = events st ++ [shotFired]).
Proof.
  assert (is_Some (moving (shoot re w h i1 st))) as [b Hb].
  { unfold shoot. destruct (moving st) as [b|] eqn:Hm; [by rewrite Hm|].
    simpl. by eexists. }
  split; [by exists b|].
  assert (shoot re w h i2 (shoot re w h i1 st) = shoot re w h i1 st) as E.
  { unfold shoot at 1. by rewrite Hb. }
  split; [done|]. intros Hm. rewrite E. unfold shoot. rewrite Hm. simpl.
  by destruct (length (tail (nextQueue st)) <? 2)%nat.
Qed.

(** X15.  A launching [shoot] loads the head of the next-queue (a normal
    bubble when the queue is empty) and launches it from the bottom
    centre, not yet on the grid; without the rainbow flag no reachable
    queue ever holds a rainbow kind, so no rainbow bubble is ever
    launched. *)
Theorem shoot_launches_queue_head (re : bool) (w h : Z) (i : ShotInput) (st : State) :
  queueReach re w h st → moving st = None →
  ∃ b, moving (shoot re w h i st) = Some b ∧
       kind b = hd normal (nextQueue st) ∧
       (row b, col b, stationary b) = (-1, -1, false) ∧
       (x b == inject_Z w / 2)%Q ∧ (y b == inject_Z h - 24)%Q ∧
       dir (shoot re w h i st) = Some (shotDir i) ∧
       grid (shoot re w h i st) = grid st ∧
       (re = false → (rainbow ∉ nextQueue st) ∧ kind b ≠ rainbow).
Proof.
  intros Hreach Hm. unfold shoot. rewrite Hm.
  eexists. split.
  { by destruct (length (nextQueue (withNextQueue (tail (nextQueue st)) st)) <? 2)%nat. }
  cbn [kind row col stationary x y].
  split; [by destruct (nextQueue st)|]. split; [done|]. split; [reflexivity|].
  split; [unfold BUBBLE_RADIUS; ring|].
  split; [by destruct (length _ <? 2)%nat|].
  split; [by destruct (length _ <? 2)%nat|].
  intros ->.
  assert (∀ st0, queueReach false w h st0 → rainbow ∉ nextQueue st0) as Hnone.
  { clear. intros st0. induction 1 as [st E|st rolls _ IH|st i _ IH|st st' _ IH E].
    - rewrite E. apply not_elem_of_nil.
    - rewrite refillNextQueue_queue. unfold kindOfRoll. simpl.
      rewrite !not_elem_of_cons. repeat split; try apply not_elem_of_nil;
        repeat (match goal with |- context [if ?c then _ else _] => destruct c end);
        done.
    - destruct (moving st) as [b|] eqn:Hm; [unfold shoot; by rewrite Hm|].
      rewrite shoot_queue by done. destruct (length _ <? 2)%nat.
      + unfold kindOfRoll. simpl.
        rewrite !not_elem_of_cons. repeat split; try apply not_elem_of_nil;
          repeat (match goal with |- context [if ?c then _ else _] => destruct c end);
          done.
      + intros Hin. apply IH. destruct (nextQueue st) as [|k q]; [done|].
        apply elem_of_cons. by right.
    - by rewrite E. }
  specialize (Hnone st Hreach). split; [done|].
  destruct (nextQueue st) as [|k q]; [done|]. simpl. intros ->.
  apply Hnone. apply elem_of_cons. by left.
Qed.

(** ** Seeding the grid *)

Lemma length_emptyGrid (w : Z) : length (emptyGrid w) = 18%nat.
Proof. unfold emptyGrid. by rewrite length_replicate. Qed.

Lemma topRows_range (cfg : SeedConfig) : 6 <= topRows cfg <= 8.
Proof. unfold topRows. destruct (doubleLayer cfg); lia. Qed.

Lemma Qfloor_unit (u : Q) (n : Z) :
  unitRoll u → 0 < n → 0 <= Qfloor (u * inject_Z n) < n.
Proof.
  intros [H0 H1] Hn.
  assert (inject_Z 0 < inject_Z n)%Q as Hq by (rewrite <- Zlt_Qlt; lia).
  change (inject_Z 0) with 0%Q in Hq.
  split.
  - change 0 with (Qfloor (inject_Z 0)). apply Qfloor_resp_le.
    change (inject_Z 0) with 0%Q. nra.
  - destruct (Z_lt_le_dec (Qfloor (u * inject_Z n)) n) as [L|L]; [done|].
    exfalso. rewrite Zle_Qle in L. pose proof (Qfloor_le (u * inject_Z n)). nra.
Qed.

(** Writing a well-placed bubble into a usable cell keeps the grid
    well seeded. *)
Lemma seededWell_setCell (cfg : SeedConfig) (off : Q) (g : Grid) (w r c : Z)
    (b : Bubble) :
  seededWell cfg off g w →
  inBounds g w (r, c) → r < topRows cfg + 4 →
  (row b, col b) = (r, c) → kind b = normal → stationary b = true → cachedAt off b →
  (topRows cfg <= r → color b = gray) →
  (startingPattern cfg = simplePattern → 3 < r → color b = gray) →
  (startingPattern cfg = alternatingPattern → isOdd (r + c) = true → color b = gray) →
  seededWell cfg off (setCell g r c (Some b)) w.
Proof.
  intros Hg Hin Hr Hrc Hk Hs Hc Htop Hsim Halt r' c' b' Hb'.
  assert (∀ p, inBounds g w p → inBounds (setCell g r c (Some b)) w p) as Hmono.
  { intros p. unfold inBounds. by rewrite length_setCell. }
  destruct (decide ((r, c) = (r', c'))) as [E|E].
  - injection E as <- <-.
    destruct (cell_setCell_cases g r c r c (Some b)) as [E|E]; rewrite E in Hb'.
    + injection Hb' as <-. split; [done|]. split; [by apply Hmono|]. done.
    + destruct (Hg r c b' Hb') as (? & ? & ?). split; [done|]. split; [by apply Hmono|]. done.
  - rewrite cell_setCell_ne in Hb' by done.
    destruct (Hg r' c' b' Hb') as (? & ? & ?). split; [done|]. split; [by apply Hmono|]. done.
Qed.

Lemma seededWell_emptyGrid (cfg : SeedConfig) (off : Q) (w : Z) :
  seededWell cfg off (emptyGrid w) w.
Proof. intros r c b. by rewrite cell_emptyGrid. Qed.

Lemma seedCell_seededWell (cfg : SeedConfig) (inp : SeedInput) (off : Q) (g : Grid)
    (w r c : Z) :
  length g = 18%nat → 0 <= r < topRows cfg → 0 <= c < maxColsOf w r →
  wfGrid w g → seededWell cfg off g w →
  length (seedCell cfg inp off g r c) = 18%nat ∧
  wfGrid w (seedCell cfg inp off g r c) ∧
  seededWell cfg off (seedCell cfg inp off g r c) w.
Proof.
  intros Hlen Hr Hc Hwf Hg. pose proof (topRows_range cfg) as Htop. unfold seedCell.
  destruct (bool_decide (startingPattern cfg = simplePattern) && (r >? 3)) eqn:E1;
    [done|].
  destruct (bool_decide (startingPattern cfg = alternatingPattern) && isOdd (r + c))
    eqn:E2; [done|].
  destruct (bool_decide (startingPattern cfg = randomPattern) && _) eqn:E3; [done|].
  destruct (gridToXY off r c) as [x0 y0] eqn:Exy.
  split; [by rewrite length_setCell|]. split; [by apply wfGrid_setCell|].
  apply seededWell_setCell; try done.
  - unfold inBounds. simpl. lia.
  - lia.
  - unfold cachedAt. cbn [x y row col]. rewrite Exy. split; reflexivity.
  - lia.
  - intros Hp Hgt. rewrite bool_decide_eq_true_2 in E1 by done. simpl in E1. lia.
  - intros Hp Hodd. rewrite bool_decide_eq_true_2 in E2 by done. simpl in E2. congruence.
Qed.

Lemma seedRows_seededWell (cfg : SeedConfig) (inp : SeedInput) (off : Q) (w : Z) :
  length (seedRows cfg inp off w (emptyGrid w)) = 18%nat ∧
  wfGrid w (seedRows cfg inp off w (emptyGrid w)) ∧
  seededWell cfg off (seedRows cfg inp off w (emptyGrid w)) w.
Proof.
  unfold seedRows.
  assert (∀ rs g, (∀ r, r ∈ rs → 0 <= r < topRows cfg) →
            length g = 18%nat ∧ wfGrid w g ∧ seededWell cfg off g w →
            let g' := fold_left (λ g r, seedRow cfg inp off w g r) rs g in
            length g' = 18%nat ∧ wfGrid w g' ∧ seededWell cfg off g' w) as Hrows.
  { induction rs as [|r rs IH]; intros g Hrs Hg; [done|]. simpl. apply IH.
    - intros r' Hr'. apply Hrs. apply elem_of_cons. by right.
    - assert (0 <= r < topRows cfg) as Hr by (apply Hrs; apply elem_of_cons; by left).
      unfold seedRow.
      assert (∀ cs g, (∀ c, c ∈ cs → 0 <= c < maxColsOf w r) →
                length g = 18%nat ∧ wfGrid w g ∧ seededWell cfg off g w →
                let g' := fold_left (λ g c, seedCell cfg inp off g r c) cs g in
                length g' = 18%nat ∧ wfGrid w g' ∧ seededWell cfg off g' w) as Hcols.
      { clear -Hr. induction cs as [|c cs IH]; intros g Hcs Hg; [done|]. simpl.
        apply IH.
        - intros c' Hc'. apply Hcs. apply elem_of_cons. by right.
        - destruct Hg as (? & ? & ?). apply seedCell_seededWell; try done.
          apply Hcs. apply elem_of_cons. by left. }
      apply Hcols; [|done]. intros c Hc. apply elem_of_seqZ in Hc. lia. }
  apply Hrows.
  - intros r Hr. apply elem_of_seqZ in Hr. lia.
  - split; [apply length_emptyGrid|]. split; [apply wfGrid_emptyGrid|].
    apply seededWell_emptyGrid.
Qed.

Lemma placeGray_cons (cfg : SeedConfig) (inp : SeedInput) (off : Q) (w : Z)
    (u v : Q) (draws : list (Q * Q)) (placed : Z) (g : Grid) :
  placeGray cfg inp off w ((u, v) :: draws) placed g =
    if placed <? unbreakableGrayCount cfg then
      match cell g (Qfloor (u * inject_Z (Z.min (topRows cfg + 4) MAX_ROWS)))
                   (Qfloor (v * inject_Z (maxColsOf w
                      (Qfloor (u * inject_Z (Z.min (topRows cfg + 4) MAX_ROWS)))))) with
      | Some _ => placeGray cfg inp off w draws placed g
      | None =>
        placeGray cfg inp off w draws (placed + 1)
          (setCell g (Qfloor (u * inject_Z (Z.min (topRows cfg + 4) MAX_ROWS)))
             (Qfloor (v * inject_Z (maxColsOf w
                (Qfloor (u * inject_Z (Z.min (topRows cfg + 4) MAX_ROWS))))))
             (Some (mkBubble (grayId inp placed)
                (Qfloor (u * inject_Z (Z.min (topRows cfg + 4) MAX_ROWS)))
                (Qfloor (v * inject_Z (maxColsOf w
                   (Qfloor (u * inject_Z (Z.min (topRows cfg + 4) MAX_ROWS))))))
                (gridToXY off
                   (Qfloor (u * inject_Z (Z.min (topRows cfg + 4) MAX_ROWS)))
                   (Qfloor (v * inject_Z (maxColsOf w
                      (Qfloor (u * inject_Z (Z.min (topRows cfg + 4) MAX_ROWS))))))).1
                (gridToXY off
                   (Qfloor (u * inject_Z (Z.min (topRows cfg + 4) MAX_ROWS)))
                   (Qfloor (v * inject_Z (maxColsOf w
                      (Qfloor (u * inject_Z (Z.min (topRows cfg + 4) MAX_ROWS))))))).2
                gray normal true)))
      end
    else Some g.
Proof. reflexivity. Qed.

Lemma placeGray_nil (cfg : SeedConfig) (inp : SeedInput) (off : Q) (w : Z)
    (placed : Z) (g : Grid) :
  placeGray cfg inp off w [] placed g =
    if placed <? unbreakableGrayCount cfg then None else Some g.
Proof. reflexivity. Qed.

Lemma placeGray_seededWell (cfg : SeedConfig) (inp : SeedInput) (off : Q) (w : Z)
    (draws : list (Q * Q)) :
  Forall (λ d, unitRoll d.1 ∧ unitRoll d.2) draws →
  ∀ placed g g',
    length g = 18%nat → wfGrid w g → seededWell cfg off g w →
    placeGray cfg inp off w draws placed g = Some g' →
    length g' = 18%nat ∧ wfGrid w g' ∧ seededWell cfg off g' w ∧
    (∀ r c b, cell g r c = Some b → cell g' r c = Some b).
Proof.
  induction 1 as [|[u v] draws [Hu Hv] _ IH]; intros placed g g' Hlen Hwf Hg Hrun.
  - rewrite placeGray_nil in Hrun.
    destruct (placed <? unbreakableGrayCount cfg); [done|]. by injection Hrun as <-.
  - rewrite placeGray_cons in Hrun.
    destruct (placed <? unbreakableGrayCount cfg); [|by injection Hrun as <-].
    simpl in Hu, Hv. pose proof (topRows_range cfg) as Htop.
    set (r := Qfloor (u * inject_Z (Z.min (topRows cfg + 4) MAX_ROWS))) in *.
    assert (0 <= r < Z.min (topRows cfg + 4) MAX_ROWS) as Hr.
    { apply Qfloor_unit; [done|]. unfold MAX_ROWS. lia. }
    pose proof (maxColsOf_range w r) as Hmax.
    set (c := Qfloor (v * inject_Z (maxColsOf w r))) in *.
    assert (0 <= c < maxColsOf w r) as Hc by (apply Qfloor_unit; [done|lia]).
    destruct (cell g r c) as [b0|] eqn:Hcell; [exact (IH _ _ _ Hlen Hwf Hg Hrun)|].
    eapply IH in Hrun as (H1 & H2 & H3 & H4).
    + split; [done|]. split; [done|]. split; [done|]. intros r' c' b' Hb'.
      apply H4. rewrite cell_setCell_ne; [done|]. intros [= <- <-]. congruence.
    + by rewrite length_setCell.
    + by apply wfGrid_setCell.
    + unfold MAX_ROWS in Hr. apply seededWell_setCell; try done.
      * unfold inBounds. simpl. lia.
      * lia.
Qed.

(** X16.  With rolls in [0, 1), whenever [initGrid] returns, the new grid
    has 18 rows of [cols] slots, and every bubble in it is a stationary
    normal bubble lying in a usable cell above row [topRows + 4], whose
    row and column are those of its slot and whose cached position is
    that of its cell at the current offset.  Below the seeded rows, in
    rows past 3 of a simple pattern, and on the odd cells of an
    alternating pattern there are only gray obstacles.  The rest of the
    state is untouched. *)
Theorem initGrid_seeds_well (cfg : SeedConfig) (inp : SeedInput) (w : Z)
    (st st' : State) :
  Forall (λ d, unitRoll d.1 ∧ unitRoll d.2) (grayDraws inp) →
  initGrid cfg inp w st = Some st' →
  length (grid st') = 18%nat ∧ wfGrid w (grid st') ∧
  seededWell cfg (descentOffset st) (grid st') w ∧
  st' = withGrid (grid st') st.
Proof.
  intros Hdraws Hrun. unfold initGrid in Hrun.
  destruct (placeGray _ _ _ _ _ _ _) as [g|] eqn:Hg; [|done].
  injection Hrun as <-. cbn [grid withGrid].
  destruct (seedRows_seededWell cfg inp (descentOffset st) w) as (H1 & H2 & H3).
  destruct (placeGray_seededWell cfg inp _ w _ Hdraws _ _ _ H1 H2 H3 Hg)
    as (? & ? & ? & _).
  done.
Qed.

(** *** Counting the obstacles *)

Lemma rowBubbles_insert (rw : list (option Bubble)) (j : nat) (b : Bubble) :
  rw !! j = Some None → rowBubbles (<[j := Some b]> rw) = rowBubbles rw + 1.
Proof.
  unfold rowBubbles. revert j. induction rw as [|ob rw IH]; intros j Hj; [done|].
  destruct j as [|j]; simpl in Hj.
  - injection Hj as ->. change (<[0%nat:=Some b]> (None :: rw)) with (Some b :: rw).
    rewrite filter_cons_True by (by eexists).
    rewrite filter_cons_False by (by intros [? ?]). cbn [length]. lia.
  - specialize (IH j Hj).
    change (<[S j:=Some b]> (ob :: rw)) with (ob :: <[j:=Some b]> rw).
    rewrite !filter_cons. case_decide; cbn [length]; lia.
Qed.

Lemma bubbleCount_alter (f : list (option Bubble) → list (option Bubble))
    (g : Grid) (i : nat) (rw : list (option Bubble)) :
  g !! i = Some rw →
  bubbleCount (alter f i g) = bubbleCount g - rowBubbles rw + rowBubbles (f rw).
Proof.
  revert i. induction g as [|rw0 g IH]; intros i Hi; [done|].
  destruct i as [|i]; simpl in Hi.
  - injection Hi as ->. change (alter f 0%nat (rw :: g)) with (f rw :: g).
    rewrite !bubbleCount_cons. lia.
  - change (alter f (S i) (rw0 :: g)) with (rw0 :: alter f i g).
    rewrite !bubbleCount_cons, (IH i Hi). lia.
Qed.

Lemma bubbleCount_setCell_free (w : Z) (g : Grid) (r c : Z) (b : Bubble) :
  wfGrid w g → inBounds g w (r, c) → cell g r c = None →
  bubbleCount (setCell g r c (Some b)) = bubbleCount g + 1.
Proof.
  intros Hwf Hin Hnone.
  destruct (inBounds_row w g (r, c) Hwf Hin) as (rw & Hrw & Hc). simpl in *.
  destruct Hin as [Hr _]. simpl in Hr. unfold setCell, cell in *.
  destruct (Z.ltb_spec r 0); [lia|]. destruct (Z.ltb_spec c 0); [lia|]. simpl in *.
  rewrite Hrw in Hnone.
  destruct (lookup_lt_is_Some_2 rw (Z.to_nat c)) as [ob Hob]; [lia|].
  rewrite Hob in Hnone. subst ob.
  rewrite (bubbleCount_alter _ _ _ _ Hrw), (rowBubbles_insert _ _ _ Hob). lia.
Qed.

Lemma bubbleCount_le_slots (w : Z) (g : Grid) :
  wfGrid w g → bubbleCount g <= Z.of_nat (length g) * computeCols w.
Proof.
  unfold wfGrid. pose proof (computeCols_range w) as Hcols.
  induction 1 as [|rw g Hrw _ IH]; [done|].
  rewrite bubbleCount_cons. simpl length.
  assert (rowBubbles rw <= computeCols w).
  { unfold rowBubbles. pose proof (length_filter (λ ob : option Bubble, is_Some ob) rw).
    lia. }
  lia.
Qed.

Lemma placeGray_count (cfg : SeedConfig) (inp : SeedInput) (off : Q) (w : Z)
    (draws : list (Q * Q)) :
  Forall (λ d, unitRoll d.1 ∧ unitRoll d.2) draws →
  ∀ placed g g',
    length g = 18%nat → wfGrid w g →
    placeGray cfg inp off w draws placed g = Some g' →
    bubbleCount g' = bubbleCount g + Z.max 0 (unbreakableGrayCount cfg - placed) ∧
    (∀ r c b, cell g' r c = Some b →
              cell g r c = Some b ∨ (cell g r c = None ∧ color b = gray)).
Proof.
  induction 1 as [|[u v] draws [Hu Hv] _ IH]; intros placed g g' Hlen Hwf Hrun.
  - rewrite placeGray_nil in Hrun.
    destruct (Z.ltb_spec placed (unbreakableGrayCount cfg)); [done|].
    injection Hrun as <-. split; [lia|auto].
  - rewrite placeGray_cons in Hrun.
    destruct (Z.ltb_spec placed (unbreakableGrayCount cfg));
      [|injection Hrun as <-; split; [lia|auto]].
    simpl in Hu, Hv. pose proof (topRows_range cfg) as Htop.
    set (r := Qfloor (u * inject_Z (Z.min (topRows cfg + 4) MAX_ROWS))) in *.
    assert (0 <= r < Z.min (topRows cfg + 4) MAX_ROWS) as Hr.
    { apply Qfloor_unit; [done|]. unfold MAX_ROWS. lia. }
    pose proof (maxColsOf_range w r) as Hmax.
    set (c := Qfloor (v * inject_Z (maxColsOf w r))) in *.
    assert (0 <= c < maxColsOf w r) as Hc by (apply Qfloor_unit; [done|lia]).
    unfold MAX_ROWS in Hr.
    destruct (cell g r c) as [b0|] eqn:Hcell.
    + destruct (IH _ _ _ Hlen Hwf Hrun) as [H1 H2]. split; [lia|done].
    + apply IH in Hrun as [H1 H2];
        [|by rewrite length_setCell|by apply wfGrid_setCell].
      rewrite (bubbleCount_setCell_free w) in H1; [|done|unfold inBounds; simpl; lia|done].
      split; [lia|]. intros r' c' b' Hb'.
      destruct (H2 r' c' b' Hb') as [Hold|[Hold Hgray]].
      * destruct (decide ((r, c) = (r', c'))) as [[= <- <-]|Hne].
        -- right. split; [done|].
           destruct (cell_setCell_cases g r c r c
                       (Some (mkBubble (grayId inp placed) r c (gridToXY off r c).1
                                (gridToXY off r c).2 gray normal true)))
             as [E|E]; rewrite E in Hold; [by injection Hold as <-|congruence].
        -- left. by rewrite cell_setCell_ne in Hold.
      * right. split; [|done].
        destruct (decide ((r, c) = (r', c'))) as [[= <- <-]|Hne]; [done|].
        by rewrite cell_setCell_ne in Hold.
Qed.

(** X17.  With rolls in [0, 1), whenever [initGrid] returns, the obstacle
    loop has overwritten none of the seeded bubbles, has added exactly
    [unbreakableGrayCount] bubbles (none when the count is negative), and
    every bubble it added is gray. *)
Theorem initGrid_adds_obstacles (cfg : SeedConfig) (inp : SeedInput) (w : Z)
    (st st' : State) :
  Forall (λ d, unitRoll d.1 ∧ unitRoll d.2) (grayDraws inp) →
  initGrid cfg inp w st = Some st' →
  (∀ r c b, cell (seedRows cfg inp (descentOffset st) w (emptyGrid w)) r c = Some b →
            cell (grid st') r c = Some b) ∧
  bubbleCount (grid st') =
    bubbleCount (seedRows cfg inp (descentOffset st) w (emptyGrid w))
    + Z.max 0 (unbreakableGrayCount cfg) ∧
  (∀ r c b, cell (grid st') r c = Some b →
            cell (seedRows cfg inp (descentOffset st) w (emptyGrid w)) r c = None →
            color b = gray).
Proof.
  intros Hdraws Hrun. unfold initGrid in Hrun.
  destruct (placeGray _ _ _ _ _ _ _) as [g|] eqn:Hg; [|done].
  injection Hrun as <-. cbn [grid withGrid].
  destruct (seedRows_seededWell cfg inp (descentOffset st) w) as (H1 & H2 & H3).
  destruct (placeGray_seededWell cfg inp _ w _ Hdraws _ _ _ H1 H2 H3 Hg)
    as (_ & _ & _ & Hkeep).
  destruct (placeGray_count cfg inp _ w _ Hdraws _ _ _ H1 H2 Hg) as [Hcount Hnew].
  split; [done|]. split; [by rewrite Z.sub_0_r in Hcount|].
  intros r c b Hb Hnone. destruct (Hnew r c b Hb) as [?|[_ ?]]; [congruence|done].
Qed.

(** X18.  The obstacle loop has no exit but a full count: when the level
    asks for more obstacles than the grid has free slots (18 rows of
    [cols] slots less the seeded bubbles), [initGrid] never returns,
    whatever the rolls. *)
Theorem initGrid_hangs_when_overfull (cfg : SeedConfig) (inp : SeedInput) (w : Z)
    (st : State) :
  Forall (λ d, unitRoll d.1 ∧ unitRoll d.2) (grayDraws inp) →
  18 * computeCols w
    < bubbleCount (seedRows cfg inp (descentOffset st) w (emptyGrid w))
      + unbreakableGrayCount cfg →
  initGrid cfg inp w st = None.
Proof.
  intros Hdraws Hmany. destruct (initGrid cfg inp w st) as [st'|] eqn:Hrun; [|done].
  exfalso. unfold initGrid in Hrun.
  destruct (placeGray _ _ _ _ _ _ _) as [g|] eqn:Hg; [|done].
  destruct (seedRows_seededWell cfg inp (descentOffset st) w) as (H1 & H2 & H3).
  destruct (placeGray_seededWell cfg inp _ w _ Hdraws _ _ _ H1 H2 H3 Hg)
    as (Hlen & Hwf & _).
  destruct (placeGray_count cfg inp _ w _ Hdraws _ _ _ H1 H2 Hg) as [Hcount _].
  pose proof (bubbleCount_le_slots w g Hwf) as Hle. rewrite Hlen in Hle. lia.
Qed.

(** * The bubble in flight *)

Lemma Qle_bool_false (a b : Q) : Qle_bool a b = false → (b < a)%Q.
Proof.
  intros H. destruct (Qlt_le_dec b a) as [|Hle]; [done|].
  apply Qle_bool_iff in Hle. congruence.
Qed.

Lemma bounce_range (w : Z) (px dx : Q) :
  32 <= w →
  (BUBBLE_RADIUS <= (bounce w px dx).1
   ∧ (bounce w px dx).1 <= inject_Z w - BUBBLE_RADIUS)%Q ∧
  ((bounce w px dx).2 == dx ∨ (bounce w px dx).2 == - dx)%Q.
Proof.
  intros Hw.
  assert (32 <= inject_Z w)%Q as Hq.
  { change 32%Q with (inject_Z 32). by rewrite <- Zle_Qle. }
  unfold bounce, BUBBLE_RADIUS.
  destruct (Qle_bool px 16) eqn:E1.
  - destruct (Qle_bool (inject_Z w - 16) 16) eqn:E2; cbn [fst snd].
    + apply Qle_bool_iff in E2. split; [lra|]. left. ring.
    + apply Qle_bool_false in E2. split; [lra|]. right. ring.
  - apply Qle_bool_false in E1.
    destruct (Qle_bool (inject_Z w - 16) px) eqn:E2; cbn [fst snd].
    + split; [lra|]. right. ring.
    + apply Qle_bool_false in E2. split; [lra|]. by left.
Qed.

Lemma existsb_false {A : Type} (f : A → bool) (l : list A) :
  existsb f l = false ↔ ∀ a, a ∈ l → f a = false.
Proof.
  split.
  - intros H a Ha. destruct (f a) eqn:E; [|done].
    assert (existsb f l = true) as Ht; [|congruence].
    apply existsb_exists. exists a. split; [by apply list_elem_of_In|done].
  - intros H. destruct (existsb f l) eqn:E; [|done].
    apply existsb_exists in E as (a & Ha & Hf).
    apply list_elem_of_In in Ha. rewrite (H a Ha) in Hf. done.
Qed.

Lemma contact_lands (w now : Z) (st : State) (m : Bubble) :
  moving st = Some m →
  ∃ st', contact w now st = Some st' ∧ moving st' = None ∧ dir st' = None ∧
         length (grid st') = length (grid st).
Proof.
  intros Hm. unfold contact. rewrite Hm.
  destruct (trySnapAndResolve_outcome w now m st) as (st1 & -> & Hlen & _).
  simpl. eexists. split; [done|]. by repeat split.
Qed.

(** X19.  One frame of flight either ends the flight (the bubble is handed
    to the snap and both the bubble and its direction are cleared) or moves
    the bubble by speed 520 along its direction, keeps its centre between
    the two walls, flips at most the sign of the horizontal direction, and
    leaves it clear of the ceiling line and of every bubble of the grid. *)
Theorem advanceFlight_bounces_or_lands (w now : Z) (dt : Q) (st : State)
    (m : Bubble) (dx dy : Q) :
  32 <= w → moving st = Some m → dir st = Some (dx, dy) →
  ∃ st', advanceFlight w now dt st = Some st' ∧
    length (grid st') = length (grid st) ∧
    ((moving st' = None ∧ dir st' = None) ∨
     (∃ m' dx', moving st' = Some m' ∧ dir st' = Some (dx', dy) ∧
        (dx' == dx ∨ dx' == - dx)%Q ∧
        (BUBBLE_RADIUS <= x m' ∧ x m' <= inject_Z w - BUBBLE_RADIUS)%Q ∧
        (y m' == y m + dy * 520 * dt)%Q ∧ (BUBBLE_RADIUS + 2 < y m')%Q ∧
        (∀ b, b ∈ bubblesOf (grid st) → touches (x m') (y m') b = false) ∧
        (id m', color m', kind m') = (id m, color m, kind m) ∧
        (grid st', score st', comboChain st', descentOffset st', power st',
         nextQueue st', events st')
        = (grid st, score st, comboChain st, descentOffset st, power st,
           nextQueue st, events st))).
Proof.
  intros Hw Hm Hd. unfold advanceFlight. rewrite Hm, Hd.
  pose proof (bounce_range w (x m + dx * SHOOT_SPEED * dt) dx Hw) as (Hx & Hdx).
  destruct (bounce w (x m + dx * SHOOT_SPEED * dt) dx) as [x2 dx2] eqn:Hb.
  cbn [fst snd] in Hx, Hdx.
  destruct (Qle_bool (y m + dy * SHOOT_SPEED * dt) (BUBBLE_RADIUS + 2)) eqn:Hy.
  { edestruct contact_lands as (st' & -> & ? & ? & Hlen); [reflexivity|].
    exists st'. split; [done|]. split; [exact Hlen|]. by left. }
  cbn [grid withFlight].
  destruct (existsb (touches x2 (y m + dy * SHOOT_SPEED * dt)) (bubblesOf (grid st)))
    eqn:Ht.
  { edestruct contact_lands as (st' & -> & ? & ? & Hlen); [reflexivity|].
    exists st'. split; [done|]. split; [exact Hlen|]. by left. }
  eexists. split; [done|]. split; [done|]. right.
  eexists _, dx2. split; [reflexivity|]. split; [reflexivity|].
  cbn [x y id color kind]. split; [done|]. split; [done|].
  split; [reflexivity|]. split; [by apply Qle_bool_false in Hy|].
  split; [by apply existsb_false|]. done.
Qed.

(** * The danger line *)

Lemma elem_of_bubblesOf (g : Grid) (b : Bubble) :
  b ∈ bubblesOf g ↔ ∃ rw, rw ∈ g ∧ Some b ∈ rw.
Proof.
  unfold bubblesOf. rewrite list_elem_of_omap. split.
  - intros (ob & Hin & ->). apply list_elem_of_In, in_concat in Hin as (rw & Hrw & Hb).
    exists rw. split; by apply list_elem_of_In.
  - intros (rw & Hrw & Hb). exists (Some b). split; [|done].
    apply list_elem_of_In, in_concat. exists rw. split; by apply list_elem_of_In.
Qed.

Lemma atDanger_false (h : Z) (g : Grid) :
  atDanger h g = false ↔
  Forall (λ rw, ∀ b, Some b ∈ rw → (y b + BUBBLE_RADIUS < inject_Z h - 64)%Q) g.
Proof.
  unfold atDanger. rewrite existsb_false, Forall_forall. split.
  - intros H rw Hrw b Hb. apply Qle_bool_false, H, elem_of_bubblesOf. eauto.
  - intros H b (rw & Hrw & Hb)%elem_of_bubblesOf.
    specialize (H rw Hrw b Hb). destruct (Qle_bool _ _) eqn:E; [|done].
    apply Qle_bool_iff in E. lra.
Qed.

Lemma loopDescent_safe (level : LevelConfig) (w h : Z) (t : Tick) (st : State) :
  96 < h → atDanger h (grid st) = false →
  atDanger h (grid (loopDescent level w t st)) = false.
Proof.
  intros Hh Hsafe.
  assert (96 < inject_Z h)%Q as Hq.
  { change 96%Q with (inject_Z 96). by rewrite <- Zlt_Qlt. }
  unfold loopDescent. cbn [descentOffset withDescentOffset].
  destruct (Qle_bool _ ROW_V_SPACING) eqn:E; [done|]. cbn [negb].
  apply Qle_bool_false in E.
  unfold addNewDescendingRow. cbn [grid withGrid descentOffset withDescentOffset].
  apply atDanger_false, Forall_removelast, Forall_cons. split.
  - intros b (c & Hb & _)%list_elem_of_fmap.
    unfold gridToXY in Hb. injection Hb as ->. cbn [y].
    unfold BUBBLE_RADIUS. rewrite Qmult_0_l. lra.
  - apply atDanger_false in Hsafe. rewrite Forall_fmap.
    eapply Forall_impl; [exact Hsafe|]. intros rw Hrw b.
    intros ([b0|] & Hb & Hin)%list_elem_of_fmap; [|done].
    injection Hb as ->. cbn [y]. by apply Hrw.
Qed.

(** X20.  The descent never ends a round by height: as long as the canvas
    is taller than 96 pixels, a grid that is clear of the danger line stays
    clear through any sequence of descent updates, whatever the speed and
    however many rows are pushed down, because the test reads the positions
    stored at placement. *)
Theorem descent_never_endangers (level : LevelConfig) (w h : Z) (ts : list Tick)
    (st : State) :
  96 < h → atDanger h (grid st) = false →
  atDanger h (grid (runDescent level w ts st)) = false.
Proof.
  intros Hh. unfold runDescent. revert st.
  induction ts as [|t ts IH]; intros st Hsafe; [done|].
  simpl. apply IH. by apply loopDescent_safe.
Qed.

(** * The win test and the level score *)

Lemma elem_of_bubblesOf_cell (g : Grid) (b : Bubble) :
  b ∈ bubblesOf g ↔ ∃ r c, cell g r c = Some b.
Proof.
  rewrite elem_of_bubblesOf. split.
  - intros (rw & (i & Hi)%list_elem_of_lookup & (j & Hj)%list_elem_of_lookup).
    exists (Z.of_nat i), (Z.of_nat j). unfold cell.
    destruct (Z.ltb_spec (Z.of_nat i) 0); [lia|].
    destruct (Z.ltb_spec (Z.of_nat j) 0); [lia|]. simpl.
    by rewrite !Nat2Z.id, Hi, Hj.
  - intros (r & c & Hc). unfold cell in Hc.
    destruct ((r <? 0) || (c <? 0)); [done|].
    destruct (g !! Z.to_nat r) as [rw|] eqn:Hr; [|done].
    destruct (rw !! Z.to_nat c) as [ob|] eqn:Hcol; [|done]. subst ob.
    exists rw. split; eapply list_elem_of_lookup_2; eauto.
Qed.

(** X21.  The round is won exactly when every bubble left on the grid is a
    gray obstacle; in particular a grid without any bubble is won, and
    obstacles never stand in the way of a win. *)
Theorem roundWon_iff_only_gray (g : Grid) :
  roundWon g = true ↔ ∀ r c b, cell g r c = Some b → color b = gray.
Proof.
  unfold roundWon. rewrite Nat.eqb_eq. split.
  - intros Hlen r c b Hc. apply nil_length_inv in Hlen.
    destruct (decide (color b = gray)) as [|Hne]; [done|].
    assert (b ∈ filter (λ b, color b ≠ gray) (bubblesOf g)) as Hin.
    { apply list_elem_of_filter. split; [done|]. apply elem_of_bubblesOf_cell. eauto. }
    rewrite Hlen in Hin. by apply elem_of_nil in Hin.
  - intros Hall.
    destruct (filter (λ b, color b ≠ gray) (bubblesOf g)) as [|b l] eqn:E; [done|].
    assert (b ∈ filter (λ b, color b ≠ gray) (bubblesOf g)) as Hin.
    { rewrite E. apply list_elem_of_here. }
    apply list_elem_of_filter in Hin as (Hne & (r & c & Hc)%elem_of_bubblesOf_cell).
    destruct Hne. eauto.
Qed.

(** X22.  The score reported on a win is the round score plus 50 per life
    plus a time bonus that starts at 500, loses 5 for each full second
    played and is gone after 100 seconds; it never grows with the time
    played, and without a recorded start time the bonus is the full 500. *)
Theorem levelScore_time_bonus (sc lives s now later : Z) :
  s ≠ 0 → s <= now → now <= later →
  sc + lives * 50 <= levelScore sc lives (Some s) now <= sc + lives * 50 + 500 ∧
  levelScore sc lives (Some s) later <= levelScore sc lives (Some s) now ∧
  (now - s < 1000 → levelScore sc lives (Some s) now = sc + lives * 50 + 500) ∧
  (100000 <= now - s → levelScore sc lives (Some s) now = sc + lives * 50) ∧
  (now - s < 100000 →
     levelScore sc lives (Some s) now = sc + lives * 50 + 500 - 5 * ((now - s) / 1000)) ∧
  levelScore sc lives None now = sc + lives * 50 + 500.
Proof.
  intros Hs Hnow Hlater. unfold levelScore, elapsedSeconds.
  destruct (Z.eqb_spec s 0) as [|_]; [done|].
  assert (0 <= (now - s) / 1000) by (apply Z.div_pos; lia).
  assert ((now - s) / 1000 <= (later - s) / 1000) by (apply Z.div_le_mono; lia).
  repeat split; try lia.
  - intros Hlt. rewrite Z.div_small by lia. lia.
  - intros Hge. assert (100 <= (now - s) / 1000); [|lia].
    apply Z.div_le_lower_bound; lia.
  - intros Hlt. assert ((now - s) / 1000 < 100); [|lia].
    apply Z.div_lt_upper_bound; lia.
Qed.

(** * The session *)

Lemma gameStep_inv (levels : Z) (s : Session) (e : GameEvent) :
  1 <= levels → sessionInv levels s → sessionInv levels (gameStep levels s e).
Proof.
  intros Hl (Hlives & Hidx & Hshots & Hcombos & Hkey & Htimers).
  destruct e; unfold sessionInv; cbn [gameStep game timers].
  - unfold handleLoseLife. destruct (Z.leb_spec (lives (game s) - 1) 0); simpl;
      repeat split; try done; lia.
  - simpl. repeat split; try done; try lia.
    apply Forall_app. split; [done|]. by apply Forall_singleton.
  - destruct (timers s) as [|captured rest] eqn:E.
    { rewrite E. repeat split; try done; try lia. }
    apply Forall_cons in Htimers as (Hc & Hrest). unfold winTimer.
    destruct (Z.ltb_spec captured (levels - 1)); simpl; repeat split; try done; lia.
  - simpl. repeat split; try done; lia.
  - simpl. repeat split; try done; lia.
  - simpl. repeat split; try done; lia.
  - simpl. repeat split; try done; lia.
  - simpl. repeat split; try done; lia.
Qed.

(** X23.  Whatever the player, the canvas and the win timers do, in any
    order, the session keeps between one and three lives and a level index
    that names one of the levels; the shot and combo counters and the
    remount key never become negative. *)
Theorem session_stays_in_range (levels : Z) (es : list GameEvent) :
  1 <= levels →
  1 <= lives (game (gameRun levels es newSession)) <= 3 ∧
  0 <= levelIndex (game (gameRun levels es newSession)) < levels ∧
  0 <= shots (game (gameRun levels es newSession)) ∧
  0 <= combos (game (gameRun levels es newSession)) ∧
  0 <= runningKey (game (gameRun levels es newSession)).
Proof.
  intros Hl.
  assert (sessionInv levels (gameRun levels es newSession)) as (? & ? & ? & ? & ? & _);
    [|done].
  unfold gameRun.
  assert (sessionInv levels newSession) as Hinit.
  { unfold sessionInv. simpl. repeat split; try lia. apply Forall_nil_2. }
  revert Hinit. generalize newSession.
  induction es as [|e es IH]; intros s Hs; [done|].
  simpl. apply IH. by apply gameStep_inv.
Qed.

(** X24.  Losing lives runs in a cycle of three: from any legal number of
    lives, three losses in a row bring the same number back and remount the
    round exactly once; the total score, the counters and the level are not
    touched, so running out of lives costs no points. *)
Theorem three_losses_cycle (gs : GameState) :
  1 <= lives gs <= 3 →
  handleLoseLife (handleLoseLife (handleLoseLife gs))
  = mkGame (levelIndex gs) (lives gs) (totalScore gs) (shots gs) (combos gs)
           (runningKey gs + 1) (muted gs).
Proof.
  intros Hl. destruct gs as [idx l sc sh co key mu]. simpl in Hl.
  assert (l = 1 ∨ l = 2 ∨ l = 3) as [->|[->| ->]] by lia; reflexivity.
Qed.

Lemma Math_round_range (q : Q) (n : Z) :
  (0 <= q)%Q → (q <= inject_Z n)%Q → 0 <= Math_round q <= n.
Proof.
  intros H0 Hn. unfold Math_round. split.
  - change 0 with (Qfloor 0). apply Qfloor_resp_le. lra.
  - assert (Qfloor (q + (1 # 2)) < n + 1); [|lia].
    rewrite Zlt_Qlt. eapply Qle_lt_trans; [apply Qfloor_le|].
    rewrite inject_Z_plus. change (inject_Z 1) with 1%Q. lra.
Qed.

Lemma Math_round_comp (q q' : Q) : (q == q')%Q → Math_round q = Math_round q'.
Proof. intros E. unfold Math_round. apply Qfloor_comp. by rewrite E. Qed.

(** X25.  The accuracy shown is a whole percentage between 0 and 100; it is
    100 before the first shot and whenever the combos are at least half the
    shots, and 0 when shots were fired without any combo. *)
Theorem accuracy_is_percentage (gs : GameState) :
  0 <= shots gs → 0 <= combos gs →
  0 <= accuracy gs <= 100 ∧
  (shots gs = 0 → accuracy gs = 100) ∧
  (shots gs <= combos gs * 2 → accuracy gs = 100) ∧
  (0 < shots gs → combos gs = 0 → accuracy gs = 0).
Proof.
  intros Hs Hc. unfold accuracy.
  destruct (Z.gtb_spec (shots gs) 0) as [Hpos|Hzero].
  2:{ repeat split; try lia. }
  set (a := shots gs - Z.max 0 (shots gs - combos gs * 2)).
  assert (0 <= a <= shots gs) as Ha by (unfold a; lia).
  assert (0 < inject_Z (shots gs))%Q as Hsq.
  { change 0%Q with (inject_Z 0). by rewrite <- Zlt_Qlt. }
  assert (0 <= inject_Z a / inject_Z (shots gs))%Q as Hlo.
  { apply Qle_shift_div_l; [done|]. rewrite Qmult_0_l.
    change 0%Q with (inject_Z 0). rewrite <- Zle_Qle. lia. }
  assert (inject_Z a / inject_Z (shots gs) <= 1)%Q as Hhi.
  { apply Qle_shift_div_r; [done|]. rewrite Qmult_1_l. rewrite <- Zle_Qle. lia. }
  split; [|split; [lia|split]].
  - apply Math_round_range; [|change (inject_Z 100) with 100%Q];
      generalize dependent (inject_Z a / inject_Z (shots gs))%Q; intros; lra.
  - intros Hhalf. replace a with (shots gs) by (unfold a; lia).
    rewrite (Math_round_comp _ 100); [done|].
    field. intros E. rewrite E in Hsq. by apply Qlt_irrefl in Hsq.
  - intros _ Hnone. replace a with 0 by (unfold a; lia).
    rewrite (Math_round_comp _ 0); [done|].
    field. intros E. rewrite E in Hsq. by apply Qlt_irrefl in Hsq.
Qed.

(** * The further properties on concrete rounds *)

Lemma length_exSingle : (0 < length (grid (roundOf exSingle 0)))%nat.
Proof. unfold roundOf, exSingle. cbn [grid]. rewrite length_gridOf. lia. Qed.

Lemma exSeedInput_unit :
  Forall (λ d, unitRoll d.1 ∧ unitRoll d.2) (grayDraws exSeedInput).
Proof.
  unfold exSeedInput, unitRoll. cbn [grayDraws].
  repeat (apply Forall_cons; split;
          [repeat split; (vm_compute; (reflexivity || discriminate))|]).
  apply Forall_nil_2.
Qed.

Lemma neighbors_symmetric_witness :
  inBounds exSingle exWidth (1, 3) ∧ adjacent exSingle exWidth (1, 3) (0, 3).
Proof.
  apply (neighbors_symmetric exSingle exWidth (0, 3) (1, 3)).
  - unfold inBounds. vm_compute. repeat split; discriminate.
  - unfold adjacent. apply list_elem_of_In. vm_compute.
    repeat (first [left; reflexivity | right]).
Defined.

Lemma removeDisconnected_idempotent_witness :
  ∃ g' n, removeDisconnected exFloating exWidth = Some (g', n) ∧
          removeDisconnected g' exWidth = Some (g', 0).
Proof.
  apply (removeDisconnected_idempotent exFloating exWidth).
  apply wfGrid_gridOf.
Defined.

Lemma removeDisconnected_drops_unusable_witness :
  ¬ anchored exStranded exWidth (1, 7) ∧
  ∃ g' n, removeDisconnected exStranded exWidth = Some (g', n) ∧
          cell g' 1 7 = None ∧ 1 <= n.
Proof.
  apply (removeDisconnected_drops_unusable exStranded exWidth 1 7
           (seededBubble 0 0 1 7 blue)).
  - apply wfGrid_gridOf.
  - reflexivity.
  - discriminate.
  - lia.
  - unfold inBounds. intros [_ [_ H]]. vm_compute in H. discriminate.
Defined.

Lemma addNewDescendingRow_shifts_rows_witness :
  length (grid (addNewDescendingRow exWidth exRow (roundOf exSingle 0)))
    = length (grid (roundOf exSingle 0)).
Proof.
  destruct (addNewDescendingRow_shifts_rows exWidth exRow (roundOf exSingle 0))
    as [H _]; [apply length_exSingle|exact H].
Defined.

Lemma inserted_row_strands_last_column_witness :
  ∃ b' g' n,
    cell (grid (addNewDescendingRow exWidth exRow (roundOf exTopRight 0))) 1
         (computeCols exWidth - 1) = Some b' ∧
    (id b', color b', kind b', x b', y b')
      = (id (seededBubble 0 0 0 7 red), color (seededBubble 0 0 0 7 red),
         kind (seededBubble 0 0 0 7 red), x (seededBubble 0 0 0 7 red),
         y (seededBubble 0 0 0 7 red)) ∧
    removeDisconnected (grid (addNewDescendingRow exWidth exRow (roundOf exTopRight 0)))
                       exWidth = Some (g', n) ∧
    cell g' 1 (computeCols exWidth - 1) = None.
Proof.
  apply (inserted_row_strands_last_column exWidth exRow (roundOf exTopRight 0)
           (seededBubble 0 0 0 7 red)).
  - apply wfGrid_gridOf.
  - unfold roundOf, exTopRight. cbn [grid]. rewrite length_gridOf. lia.
  - reflexivity.
  - discriminate.
Defined.

Lemma trySnapAndResolve_keeps_shape_witness :
  ∃ st', trySnapAndResolve exWidth 0 (shotAt 1 3 red normal) (roundOf exSingle 4)
           = Some st' ∧
         length (grid st') = length (grid (roundOf exSingle 4)).
Proof.
  destruct (trySnapAndResolve_keeps_shape exWidth 0 (shotAt 1 3 red normal)
              (roundOf exSingle 4)) as (st' & Hst & Hlen & _).
  - unfold roundOf, exSingle. cbn [grid]. rewrite length_gridOf. lia.
  - exists st'. by split.
Defined.

Lemma trySnapAndResolve_score_grows_witness :
  ∃ st', trySnapAndResolve exWidth 0 (shotAt 6 3 red normal) (roundOf exChain 0)
           = Some st' ∧
         score (roundOf exChain 0) <= score st'.
Proof.
  destruct (trySnapAndResolve_score_grows exWidth 0 (shotAt 6 3 red normal)
              (roundOf exChain 0)) as (st' & Hst & Hle & _).
  - unfold roundOf, exChain. cbn [grid]. rewrite length_gridOf. lia.
  - exists st'. by split.
Defined.

Lemma powerup_snap_sets_timer_only_witness :
  trySnapAndResolve exWidth 0 (shotAt 1 3 red freeze) (roundOf exSingle 0) =
    Some (match placeFirst (grid (roundOf exSingle 0))
                  (descentOffset (roundOf exSingle 0)) exWidth (shotAt 1 3 red freeze)
                  (snapCandidates
                     (xyToGridGuess (descentOffset (roundOf exSingle 0))
                        (x (shotAt 1 3 red freeze)) (y (shotAt 1 3 red freeze)))) with
          | None => roundOf exSingle 0
          | Some _ =>
            withPower (if decide (kind (shotAt 1 3 red freeze) = freeze)
                       then mkPower (0 + 5000)
                              (aimBoostUntil (power (roundOf exSingle 0)))
                       else mkPower (freezeUntil (power (roundOf exSingle 0)))
                              (0 + 6000))
                      (roundOf exSingle 0)
          end).
Proof.
  apply (powerup_snap_sets_timer_only exWidth 0 (shotAt 1 3 red freeze)
           (roundOf exSingle 0)).
  - apply length_exSingle.
  - by left.
Defined.


Lemma shoot_launches_queue_head_witness :
  ∃ b, moving (shoot false exWidth 600 exShot exAfterShot) = Some b ∧
       kind b = hd normal (nextQueue exAfterShot).
Proof.
  destruct (shoot_launches_queue_head false exWidth 600 exShot exAfterShot)
    as (b & Hb & Hk & _).
  - apply (queueReach_other _ _ _
             (shoot false exWidth 600 exShot (roundOf exSingle 0))); [|reflexivity].
    apply queueReach_shoot.
    exact (queueReach_refill false exWidth 600
             (withNextQueue [] (roundOf exSingle 0)) (λ _, 0.5%Q)
             (queueReach_mount false exWidth 600
                (withNextQueue [] (roundOf exSingle 0)) eq_refl)).
  - reflexivity.
  - exists b. by split.
Defined.

Lemma initGrid_seeds_well_witness :
  ∃ st', initGrid exSeed exSeedInput exWidth (roundOf (emptyGrid exWidth) 0) = Some st' ∧
         length (grid st') = 18%nat ∧ wfGrid exWidth (grid st').
Proof.
  destruct (initGrid exSeed exSeedInput exWidth (roundOf (emptyGrid exWidth) 0))
    as [st'|] eqn:E; [|vm_compute in E; discriminate].
  exists st'. split; [reflexivity|].
  destruct (initGrid_seeds_well exSeed exSeedInput exWidth
              (roundOf (emptyGrid exWidth) 0) st') as (Hlen & Hwf & _).
  - apply exSeedInput_unit.
  - exact E.
  - by split.
Defined.

Lemma initGrid_adds_obstacles_witness :
  ∃ st', initGrid exSeed exSeedInput exWidth (roundOf (emptyGrid exWidth) 0) = Some st' ∧
         bubbleCount (grid st') =
           bubbleCount (seedRows exSeed exSeedInput 0 exWidth (emptyGrid exWidth)) + 2.
Proof.
  destruct (initGrid exSeed exSeedInput exWidth (roundOf (emptyGrid exWidth) 0))
    as [st'|] eqn:E; [|vm_compute in E; discriminate].
  exists st'. split; [reflexivity|].
  destruct (initGrid_adds_obstacles exSeed exSeedInput exWidth
              (roundOf (emptyGrid exWidth) 0) st') as (_ & Hcount & _).
  - apply exSeedInput_unit.
  - exact E.
  - exact Hcount.
Defined.

Lemma initGrid_hangs_when_overfull_witness :
  initGrid exOverfull exSeedInput exWidth (roundOf (emptyGrid exWidth) 0) = None.
Proof.
  apply (initGrid_hangs_when_overfull exOverfull exSeedInput exWidth
           (roundOf (emptyGrid exWidth) 0)).
  - apply exSeedInput_unit.
  - vm_compute. reflexivity.
Defined.

Lemma advanceFlight_bounces_or_lands_witness :
  ∃ st', advanceFlight exWidth 0 0.033 exInFlight = Some st' ∧
         length (grid st') = length (grid exInFlight).
Proof.
  destruct (advanceFlight_bounces_or_lands exWidth 0 0.033 exInFlight
              (shotAt 9 4 red normal) 0 (- (1))) as (st' & Hst & Hlen & _).
  - unfold exWidth. lia.
  - reflexivity.
  - reflexivity.
  - exists st'. by split.
Defined.

Lemma descent_never_endangers_witness :
  atDanger 600 (grid (runDescent exFastLevel exWidth [exTick; exTick]
                        (roundOf exSingle 0))) = false.
Proof.
  apply (descent_never_endangers exFastLevel exWidth 600 [exTick; exTick]
           (roundOf exSingle 0)).
  - lia.
  - vm_compute. reflexivity.
Defined.

Lemma levelScore_time_bonus_witness :
  levelScore 120 3 (Some 1000) 31000 = 120 + 3 * 50 + 500 - 5 * ((31000 - 1000) / 1000).
Proof.
  destruct (levelScore_time_bonus 120 3 1000 31000 32000)
    as (_ & _ & _ & _ & H & _); [lia..|].
  apply H. lia.
Defined.

Lemma session_stays_in_range_witness :
  1 <= lives (game (gameRun 5 [LoseLife; LoseLife; LoseLife; LevelWon 100; Skip;
                                TimerFires] newSession)) <= 3 ∧
  0 <= levelIndex (game (gameRun 5 [LoseLife; LoseLife; LoseLife; LevelWon 100; Skip;
                                     TimerFires] newSession)) < 5.
Proof.
  destruct (session_stays_in_range 5 [LoseLife; LoseLife; LoseLife; LevelWon 100; Skip;
                                      TimerFires]) as (Hl & Hi & _); [lia|].
  by split.
Defined.

Lemma three_losses_cycle_witness :
  handleLoseLife (handleLoseLife (handleLoseLife newGame))
  = mkGame (levelIndex newGame) (lives newGame) (totalScore newGame) (shots newGame)
           (combos newGame) (runningKey newGame + 1) (muted newGame).
Proof.
  apply (three_losses_cycle newGame). simpl. lia.
Defined.

Lemma accuracy_is_percentage_witness : 0 <= accuracy exGame <= 100.
Proof.
  destruct (accuracy_is_percentage exGame) as (H & _); [simpl; lia..|].
  exact H.
Defined.

(** * Where a snap places the bubble *)







(** * Rounding to the nearest double *)

Lemma pow2_pos (e : Z) : (0 < F64.pow2 e)%Q.
Proof. unfold F64.pow2. by apply Qpower_0_lt. Qed.

Lemma pow2_add (a b : Z) : (F64.pow2 (a + b) == F64.pow2 a * F64.pow2 b)%Q.
Proof. unfold F64.pow2. by apply Qpower_plus. Qed.

Lemma pow2_nonneg_exp (a : Z) : 0 <= a → (F64.pow2 a == inject_Z (2 ^ a))%Q.
Proof. intros Ha. unfold F64.pow2. by rewrite Zpower_Qpower. Qed.

Lemma rne_err (q : Q) :
  (- (1 # 2) <= inject_Z (F64.rne q) - q)%Q ∧ (inject_Z (F64.rne q) - q <= 1 # 2)%Q.
Proof.
  unfold F64.rne.
  pose proof (Qfloor_le q) as Hlo. pose proof (Qlt_floor q) as Hhi.
  rewrite inject_Z_plus in Hhi. change (inject_Z 1) with 1%Q in Hhi.
  destruct (Qcompare_spec (q - inject_Z (Qfloor q)) (1 # 2)) as [E|E|E].
  - destruct (Z.even (Qfloor q)).
    + split; lra.
    + rewrite inject_Z_plus. change (inject_Z 1) with 1%Q. split; lra.
  - split; lra.
  - rewrite inject_Z_plus. change (inject_Z 1) with 1%Q. split; lra.
Qed.

Lemma Qdiv_le_cross (a b n d : Q) :
  (0 <= a)%Q → (0 < b)%Q → (0 < d)%Q → (a <= n)%Q → (d <= b)%Q → (a / b <= n / d)%Q.
Proof.
  intros Ha Hb Hd Han Hdb.
  apply Qle_shift_div_l; [done|].
  assert (0 <= a / b)%Q as Ht by (apply Qle_shift_div_l; [done|]; lra).
  assert (a / b * b == a)%Q as Hab by (field; lra).
  set (t := (a / b)%Q) in *. clearbody t. nra.
Qed.

Lemma ilog2_le (q : Q) : ¬ (q == 0)%Q → (F64.pow2 (F64.ilog2 q) <= Qabs q)%Q.
Proof.
  intros Hq. unfold F64.ilog2.
  set (a := Z.log2 (Z.abs (Qnum q))). set (b := Z.log2 (Z.pos (Qden q))).
  destruct (Qle_bool (F64.pow2 (a - b)) (Qabs q)) eqn:E.
  { by apply Qle_bool_iff in E. }
  destruct q as [n d]. cbn [Qnum Qden] in *.
  assert (n ≠ 0) as Hn.
  { intros ->. apply Hq. reflexivity. }
  assert (0 <= a) as Ha by apply Z.log2_nonneg.
  assert (0 <= b) as Hb by apply Z.log2_nonneg.
  destruct (Z.log2_spec (Z.abs n)) as [Ha1 _]; [lia|]. fold a in Ha1.
  destruct (Z.log2_spec (Z.pos d)) as [_ Hb2]; [lia|]. fold b in Hb2.
  replace (a - b - 1) with (a + - (b + 1)) by lia.
  rewrite pow2_add. unfold F64.pow2 at 2. rewrite Qpower_opp.
  fold (F64.pow2 (b + 1)). rewrite !pow2_nonneg_exp by lia.
  change (Qabs (n # d)) with (Z.abs n # d).
  rewrite (Qmake_Qdiv (Z.abs n) d).
  apply Qdiv_le_cross.
  - rewrite <- (Zle_Qle 0). lia.
  - rewrite <- (Zlt_Qlt 0). lia.
  - rewrite <- (Zlt_Qlt 0). lia.
  - rewrite <- Zle_Qle. done.
  - rewrite <- Zle_Qle. replace (Z.succ b) with (b + 1) in Hb2 by lia. lia.
Qed.

Lemma ulp_le (x B : Q) :
  ¬ (x == 0)%Q → (Qabs x <= B)%Q → (1 <= B)%Q →
  (F64.pow2 (F64.ulpExp x) <= B * (1 # 4503599627370496))%Q.
Proof.
  intros Hx HB H1. unfold F64.ulpExp.
  destruct (Z.max_spec (F64.ilog2 x - 52) (-1074)) as [[_ ->]|[_ ->]].
  - assert (F64.pow2 (-1074) <= 1 # 4503599627370496)%Q as H.
    { apply Qle_bool_iff. vm_compute. reflexivity. }
    lra.
  - replace (F64.ilog2 x - 52) with (F64.ilog2 x + -52) by lia.
    rewrite pow2_add.
    assert (F64.pow2 (-52) == 1 # 4503599627370496)%Q as -> by reflexivity.
    pose proof (ilog2_le x Hx) as Hk.
    set (p := F64.pow2 (F64.ilog2 x)) in *. clearbody p.
    set (ax := Qabs x) in *. clearbody ax. lra.
Qed.

(** The standard model of rounding, in absolute form: the double nearest
    to a value of magnitude at most [B] is within [B * 2^-53] of it. *)
Lemma rnd_err (x B : Q) :
  (Qabs x <= B)%Q → (1 <= B)%Q →
  (- (B * F64.u) <= F64.rnd x - x)%Q ∧ (F64.rnd x - x <= B * F64.u)%Q.
Proof.
  intros HB H1. unfold F64.rnd, F64.u.
  destruct (Qeq_bool x 0) eqn:E0.
  { apply Qeq_bool_iff in E0. rewrite E0. split; lra. }
  apply Qeq_bool_neq in E0. rewrite Qred_correct.
  pose proof (ulp_le x B E0 HB H1) as Hp.
  pose proof (pow2_pos (F64.ulpExp x)) as Hpos.
  set (p := F64.pow2 (F64.ulpExp x)) in *. clearbody p.
  destruct (rne_err (x / p)) as [Hlo Hhi].
  set (m := inject_Z (F64.rne (x / p))) in *. clearbody m.
  assert (x == x / p * p)%Q as Hx by (field; lra).
  set (t := (x / p)%Q) in *. clearbody t.
  rewrite Hx. split; nra.
Qed.

(** * The coordinate transforms in double precision *)

(** The constant that [Math.sqrt(3)] returns is the double nearest to the
    square root of 3: the root lies within half a unit in the last place
    ([2^-53]) of it. *)
Lemma sqrt3_nearest :
  ((F64.sqrt3 - F64.u) * (F64.sqrt3 - F64.u) < 3)%Q ∧
  (3 < (F64.sqrt3 + F64.u) * (F64.sqrt3 + F64.u))%Q ∧
  F64.rnd F64.sqrt3 = F64.sqrt3.
Proof. split; [reflexivity|]. split; [reflexivity|]. vm_compute. reflexivity. Qed.

Lemma F64_ROW_V_SPACING_val :
  F64.ROW_V_SPACING = (7644454104122883 # 281474976710656)%Q.
Proof. vm_compute. reflexivity. Qed.

Lemma F64_COL_H_SPACING_val :
  F64.COL_H_SPACING = (2206763817411543 # 70368744177664)%Q.
Proof. vm_compute. reflexivity. Qed.

Lemma F64_half_column :
  F64.div F64.COL_H_SPACING 2 = (2206763817411543 # 140737488355328)%Q.
Proof. vm_compute. reflexivity. Qed.

(** Names the double nearest to [x], of magnitude at most [B], and
    records how far it lies from [x]. *)
Local Ltac round_step x B name :=
  let H := fresh "H" in
  let Hlo := fresh "Hlo" in
  let Hhi := fresh "Hhi" in
  assert (Qabs x <= B)%Q as H by (apply Qabs_Qle_condition; split; lra);
  destruct (rnd_err x B H ltac:(lra)) as [Hlo Hhi];
  unfold F64.u in Hlo, Hhi;
  set (name := F64.rnd x) in *; clearbody name; clear H.

Lemma row_guess (off py : Q) (r : Z) :
  0 <= r < MAX_ROWS → (Qabs off <= F64.pow2 40)%Q →
  (Qabs (py - F64.sub (F64.add F64.BUBBLE_RADIUS
                         (F64.mul (inject_Z r) F64.ROW_V_SPACING)) off)
   <= F64.ROW_V_SPACING / 2 - (1 # 1000))%Q →
  Math_round (F64.div (F64.sub (F64.add py off) F64.BUBBLE_RADIUS) F64.ROW_V_SPACING) = r.
Proof.
  intros Hr Hoff Hpy. unfold MAX_ROWS in Hr.
  assert (0 <= inject_Z r)%Q as Hr0 by (rewrite <- (Zle_Qle 0); lia).
  assert (inject_Z r <= 17)%Q as Hr1.
  { change 17%Q with (inject_Z 17). rewrite <- Zle_Qle. lia. }
  change (F64.pow2 40) with 1099511627776%Q in Hoff.
  apply Qabs_Qle_condition in Hoff as [Hoff0 Hoff1].
  rewrite F64_ROW_V_SPACING_val in *.
  change ((7644454104122883 # 281474976710656) / 2)%Q
    with (7644454104122883 # 562949953421312)%Q in Hpy.
  apply Qabs_Qle_condition in Hpy as [Hpy0 Hpy1].
  unfold F64.div, F64.sub, F64.add, F64.mul, F64.BUBBLE_RADIUS in *.
  set (R := inject_Z r) in *.
  round_step (R * (7644454104122883 # 281474976710656))%Q 512%Q t1.
  round_step (16 + t1)%Q 1024%Q t2.
  round_step (t2 - off)%Q 2199023255552%Q yv.
  round_step (py + off)%Q 512%Q s1.
  round_step (s1 - 16)%Q 512%Q s2.
  change (s2 / (7644454104122883 # 281474976710656))%Q
    with (s2 * (281474976710656 # 7644454104122883))%Q.
  round_step (s2 * (281474976710656 # 7644454104122883))%Q 32%Q q.
  apply Math_round_near; fold R; lra.
Qed.

Lemma col_guess (px : Q) (r c : Z) :
  0 <= c < MAX_COLS →
  (Qabs (px - F64.add (F64.add (if isEven r then 0 else F64.div F64.COL_H_SPACING 2)
                         F64.BUBBLE_RADIUS)
                (F64.mul (inject_Z c) F64.COL_H_SPACING))
   <= F64.COL_H_SPACING / 2 - (1 # 1000))%Q →
  Math_round
    (F64.div (F64.sub (F64.sub px (if isEven r then 0 else F64.div F64.COL_H_SPACING 2))
                F64.BUBBLE_RADIUS) F64.COL_H_SPACING) = c.
Proof.
  intros Hc Hpx. unfold MAX_COLS in Hc.
  assert (0 <= inject_Z c)%Q as Hc0 by (rewrite <- (Zle_Qle 0); lia).
  assert (inject_Z c <= 11)%Q as Hc1.
  { change 11%Q with (inject_Z 11). rewrite <- Zle_Qle. lia. }
  rewrite F64_half_column in *. rewrite F64_COL_H_SPACING_val in *.
  change ((2206763817411543 # 70368744177664) / 2)%Q
    with (2206763817411543 # 140737488355328)%Q in Hpx.
  apply Qabs_Qle_condition in Hpx as [Hpx0 Hpx1].
  unfold F64.div, F64.sub, F64.add, F64.mul, F64.BUBBLE_RADIUS in *.
  set (C := inject_Z c) in *.
  destruct (isEven r).
  - round_step (0 + 16)%Q 64%Q a1.
    round_step (C * (2206763817411543 # 70368744177664))%Q 512%Q a2.
    round_step (a1 + a2)%Q 1024%Q xv.
    round_step (px - 0)%Q 1024%Q b1.
    round_step (b1 - 16)%Q 1024%Q b2.
    change (b2 / (2206763817411543 # 70368744177664))%Q
      with (b2 * (70368744177664 # 2206763817411543))%Q.
    round_step (b2 * (70368744177664 # 2206763817411543))%Q 32%Q q.
    apply Math_round_near; fold C; lra.
  - round_step ((2206763817411543 # 140737488355328) + 16)%Q 64%Q a1.
    round_step (C * (2206763817411543 # 70368744177664))%Q 512%Q a2.
    round_step (a1 + a2)%Q 1024%Q xv.
    round_step (px - (2206763817411543 # 140737488355328))%Q 1024%Q b1.
    round_step (b1 - 16)%Q 1024%Q b2.
    change (b2 / (2206763817411543 # 70368744177664))%Q
      with (b2 * (70368744177664 # 2206763817411543))%Q.
    round_step (b2 * (70368744177664 # 2206763817411543))%Q 32%Q q.
    apply Math_round_near; fold C; lra.
Qed.

(** On every cell of the grid, at the offsets 0, 13, 27 and 1e18, the
    positions and the guesses of [F64] are those of the machine's
    doubles. *)
Lemma F64_agrees_with_machine :
  forallb (λ o, forallb (λ r, forallb (λ c, agreeAt o r c) (seqZ 0 MAX_COLS))
                        (seqZ 0 MAX_ROWS))
          [0; 13; 27; 10 ^ 18] = true.
Proof. vm_compute. reflexivity. Qed.

Lemma F64_constants_are_machine :
  Machine.toQ Machine.ROW_V_SPACING = F64.ROW_V_SPACING ∧
  Machine.toQ Machine.COL_H_SPACING = F64.COL_H_SPACING ∧
  Machine.toQ Machine.sqrt3 = F64.sqrt3 ∧
  ROW_V_SPACING = F64.ROW_V_SPACING.
Proof. vm_compute. done. Qed.

(** C8.  In double arithmetic, for every cell of the grid and every
    descent offset of magnitude at most [2^40], [xyToGridGuess] applied to
    the position that [gridToXY] gives for the cell returns exactly the
    cell.  The quotients handed to [Math.round] are not the row and the
    column themselves, only within a fraction of them, and the rounding
    to the nearest integer absorbs the difference. *)
Theorem xyToGridGuess_inverts_gridToXY_in_doubles (off : Q) (r c : Z) :
  0 <= r < MAX_ROWS → 0 <= c < MAX_COLS → (Qabs off <= F64.pow2 40)%Q →
  F64.xyToGridGuess off (F64.gridToXY off r c).1 (F64.gridToXY off r c).2 = (r, c).
Proof.
  intros Hr Hc Hoff. unfold F64.xyToGridGuess, F64.gridToXY. cbn [fst snd].
  rewrite (row_guess off _ r Hr Hoff).
  - f_equal. apply col_guess; [done|].
    set (xv := F64.add _ _). clearbody xv.
    assert (xv - xv == 0)%Q as -> by ring.
    apply Qle_bool_iff. vm_compute. reflexivity.
  - set (yv := F64.sub _ _). clearbody yv.
    assert (yv - yv == 0)%Q as -> by ring.
    apply Qle_bool_iff. vm_compute. reflexivity.
Qed.

(** At the offset 1e18 the row term of [gridToXY] is absorbed by the
    offset: the position of cell (3, 4) is guessed into cell (4, 5). *)
Lemma round_trip_fails_at_huge_offset :
  F64.rnd exHugeOffset = exHugeOffset ∧
  F64.xyToGridGuess exHugeOffset (F64.gridToXY exHugeOffset 3 4).1
                    (F64.gridToXY exHugeOffset 3 4).2 = (4, 5) ∧
  Machine.xyToGridGuess (Machine.ofZ (10 ^ 18))
                        (Machine.gridToXY (Machine.ofZ (10 ^ 18)) 3 4).1
                        (Machine.gridToXY (Machine.ofZ (10 ^ 18)) 3 4).2 = (4, 5).
Proof. vm_compute. done. Qed.

(** At offset 0 the column quotient of cell (0, 7) is the double just
    below 7: rounding down would give column 6, [Math.round] gives 7. *)
Lemma column_quotient_below_index :
  F64.div (F64.sub (F64.sub (F64.gridToXY 0 0 7).1 0) F64.BUBBLE_RADIUS) F64.COL_H_SPACING
    = (7881299347898367 # 1125899906842624)%Q ∧
  (7881299347898367 # 1125899906842624 < 7)%Q ∧
  Qfloor (7881299347898367 # 1125899906842624) = 6 ∧
  Math_round (7881299347898367 # 1125899906842624) = 7.
Proof. vm_compute. done. Qed.

Lemma xyToGridGuess_inverts_gridToXY_in_doubles_witness :
  F64.xyToGridGuess 0 (F64.gridToXY 0 0 7).1 (F64.gridToXY 0 0 7).2 = (0, 7).
Proof.
  apply (xyToGridGuess_inverts_gridToXY_in_doubles 0 0 7).
  - unfold MAX_ROWS. lia.
  - unfold MAX_COLS. lia.
  - apply Qle_bool_iff. vm_compute. reflexivity.
Defined.

(** X3.  In double arithmetic, for offsets of magnitude at most [2^40], a
    point that lies within half a row spacing less a thousandth of a pixel
    above or below, and within half a column spacing less a thousandth of
    a pixel left or right, of the position that [gridToXY] gives for a cell
    of the grid is guessed into that cell. *)
Theorem xyToGridGuess_tolerance_in_doubles (off px py : Q) (r c : Z) :
  0 <= r < MAX_ROWS → 0 <= c < MAX_COLS → (Qabs off <= F64.pow2 40)%Q →
  (Qabs (px - (F64.gridToXY off r c).1) <= F64.COL_H_SPACING / 2 - (1 # 1000))%Q →
  (Qabs (py - (F64.gridToXY off r c).2) <= F64.ROW_V_SPACING / 2 - (1 # 1000))%Q →
  F64.xyToGridGuess off px py = (r, c).
Proof.
  intros Hr Hc Hoff Hpx Hpy. unfold F64.xyToGridGuess.
  unfold F64.gridToXY in Hpx, Hpy. cbn [fst snd] in Hpx, Hpy.
  rewrite (row_guess off py r Hr Hoff Hpy). f_equal.
  by apply col_guess.
Qed.

(** Without the margin the guess can miss: at offset 0 the point half a
    column spacing to the left of the position of cell (0, 4) is guessed
    into cell (0, 3), the quotient being the double just below 3.5. *)
Lemma tolerance_closed_end_misses :
  F64.xyToGridGuess 0 (F64.sub (F64.gridToXY 0 0 4).1 (F64.div F64.COL_H_SPACING 2))
                    (F64.gridToXY 0 0 4).2 = (0, 3).
Proof. vm_compute. reflexivity. Qed.

Lemma xyToGridGuess_tolerance_in_doubles_witness :
  F64.xyToGridGuess 0 ((F64.gridToXY 0 2 3).1 + 5) ((F64.gridToXY 0 2 3).2 - 5) = (2, 3).
Proof.
  apply (xyToGridGuess_tolerance_in_doubles 0 _ _ 2 3).
  - unfold MAX_ROWS. lia.
  - unfold MAX_COLS. lia.
  - apply Qle_bool_iff. vm_compute. reflexivity.
  - apply Qle_bool_iff. vm_compute. reflexivity.
  - apply Qle_bool_iff. vm_compute. reflexivity.
Defined.
